(** * EntityComponentSystem: the system scheduler and the entity containers

    A shallow embedding of [SystemManager.cpp] (work-order computation and
    work-state masks) and of [EntityManager.h] (chunked entity containers and
    the entity lookup table), with the properties of the design document
    proved over it.

    Conventions.  A [std::vector] is a [list] read with [!!] and written
    with [<[i:=x]>]; an access that C++ leaves undefined (index out of
    range, null dereference) and a failed [assert] make the operation return
    [None].  Addresses are integers, far from the wrap-around of [uptr]; a
    pointer that may be null is an [option].  Loops whose trip count is not
    syntactic carry a fuel argument; the top-level functions pass a bound
    that is proved sufficient. *)

From Stdlib Require Import ZArith Lia.
From stdpp Require Import ssreflect base option list gmap relations sorting.

#[local] Set Warnings "-rewrite-rw,-clear-no-such-hyp".

(** [std::vector::back] followed by [pop_back]. *)
Definition pop_back {A} (l : list A) : option (list A * A) :=
  x ← last l; Some (take (pred (length l)) l, x).

(** * System manager *)

Module SystemManager.

(** [ISystem]: the part of the interface the manager consumes. *)
Record ISystem := mkISystem { m_Priority : Z; m_Enabled : bool }.

Definition GetSystemPriority (sys : ISystem) : Z := m_Priority sys.
Definition IsActive (sys : ISystem) : bool := m_Enabled sys.
Definition SetActive (b : bool) (sys : ISystem) : ISystem :=
  {| m_Priority := m_Priority sys; m_Enabled := b |}.

(** The manager: system objects live in the system arena ([objects], by
    address); [m_Systems] maps a system type id to the address of its object;
    the work order is a vector of such addresses. *)
Record SystemManager := mkSystemManager {
  objects : gmap Z ISystem;
  m_Systems : gmap nat Z;
  m_SystemDependencyMatrix : list (list bool);
  m_SystemWorkOrder : list Z
}.

(** [EDGES[i][j]] *)
Definition at2 (EDGES : list (list bool)) (i j : nat) : option bool :=
  row ← EDGES !! i; row !! j.

(** [this->m_Systems[index]->...]: the object behind the registered pointer. *)
Definition system_at (this : SystemManager) (index : nat) : option ISystem :=
  p ← m_Systems this !! index; objects this !! p.

(** ** The depth-first search lambda *)

(** The loop [for (int i = 0; i < VERTEX_STATE.size(); ++i)] of [DFS], over
    the remaining values [ks] of [i]. *)
Fixpoint DFS_for (DFS : nat → list Z → list nat → option (list Z * list nat))
    (EDGES : list (list bool)) (vertex : nat) (ks : list nat)
    (VERTEX_STATE : list Z) (output : list nat) : option (list Z * list nat) :=
  match ks with
  | [] => Some (VERTEX_STATE, output)
  | i :: ks =>
      e ← at2 EDGES i vertex;
      r ← (if e : bool then
             st ← VERTEX_STATE !! i;
             if decide (st = 0%Z) then DFS i VERTEX_STATE output
             else Some (VERTEX_STATE, output)
           else Some (VERTEX_STATE, output));
      DFS_for DFS EDGES vertex ks r.1 r.2
  end.

Fixpoint DFS (fuel : nat) (EDGES : list (list bool)) (vertex : nat)
    (VERTEX_STATE : list Z) (output : list nat) : option (list Z * list nat) :=
  match fuel with
  | O => None
  | S fuel =>
      if decide (vertex < length VERTEX_STATE) then
        r ← DFS_for (DFS fuel EDGES) EDGES vertex (seq 0 (length VERTEX_STATE))
              (<[vertex := 1%Z]> VERTEX_STATE) output;
        Some (<[vertex := 2%Z]> (r.1), r.2 ++ [vertex])
      else None
  end.

(** ** Partition into vertex groups *)

(** The loop [for (int i = 0; i < INDICES.size(); ++i)] that collects the
    unassigned neighbours of [index]. *)
Fixpoint member_for (M : list (list bool)) (index : nat) (ks : list nat)
    (INDICES : list Z) (member : list nat) : option (list Z * list nat) :=
  match ks with
  | [] => Some (INDICES, member)
  | i :: ks =>
      x ← INDICES !! i;
      c ← (if decide (x ≠ (-1)%Z) then
             a ← at2 M i index;
             if a : bool then Some true else at2 M index i
           else Some false);
      if c : bool then member_for M index ks (<[i := (-1)%Z]> INDICES) (member ++ [i])
      else member_for M index ks INDICES member
  end.

Section Scheduler.

(** [ISystem.h] is not part of the sources at hand: the two constants of
    [SystemPriority] it declares are parameters.  [SystemPriority] is an
    unsigned integer type with values [0 .. PRIORITY_MAX]. *)
Variable PRIORITY_MAX : Z.
Variable LOWEST_SYSTEM_PRIORITY : Z.

(** The loop [while (member.empty() == false)]. *)
Fixpoint member_while (fuel : nat) (this : SystemManager)
    (INDICES : list Z) (member group : list nat) (groupPriority : Z)
    : option (list Z * list nat * Z) :=
  match pop_back member with
  | None => Some (INDICES, group, groupPriority)
  | Some (member, index) =>
      match fuel with
      | O => None
      | S fuel =>
          r ← member_for (m_SystemDependencyMatrix this) index
                 (seq 0 (length INDICES)) INDICES member;
          sys ← system_at this index;
          member_while fuel this r.1 r.2 (group ++ [index])
            (Z.max (GetSystemPriority sys) groupPriority)
      end
  end.

(** The loop [while (INDICES.empty() == false)]. *)
Fixpoint groups_while (fuel : nat) (this : SystemManager) (INDICES : list Z)
    (VERTEX_GROUPS : list (list nat)) (GROUP_PRIORITY : list Z)
    : option (list (list nat) * list Z) :=
  match pop_back INDICES with
  | None => Some (VERTEX_GROUPS, GROUP_PRIORITY)
  | Some (INDICES, index) =>
      match fuel with
      | O => None
      | S fuel =>
          if decide (index = (-1)%Z) then
            groups_while fuel this INDICES VERTEX_GROUPS GROUP_PRIORITY
          else
            r ← member_while (S (length INDICES)) this INDICES
                   [Z.to_nat index] [] LOWEST_SYSTEM_PRIORITY;
            groups_while fuel this r.1.1
              (VERTEX_GROUPS ++ [r.1.2]) (GROUP_PRIORITY ++ [r.2])
      end
  end.

(** ** Ordering the groups *)

(** [std::multimap::insert]: the map is kept as a list sorted by key, a new
    pair goes behind the pairs with an equivalent key. *)
Fixpoint multimap_insert {V} (k : Z) (v : V) (m : list (Z * V)) : list (Z * V) :=
  match m with
  | [] => [(k, v)]
  | kv :: m' =>
      if decide (k < kv.1)%Z then (k, v) :: m else kv :: multimap_insert k v m'
  end.

(** [std::numeric_limits<SystemPriority>::max() - GROUP_PRIORITY[i]],
    converted to the key type [SystemPriority]. *)
Definition sort_key (groupPriority : Z) : Z :=
  ((PRIORITY_MAX - groupPriority) `mod` (PRIORITY_MAX + 1))%Z.

(** The loop over the members of one group that starts the searches. *)
Fixpoint group_for (fuel : nat) (EDGES : list (list bool)) (g : list nat)
    (vertex_states : list Z) (order : list nat) : option (list Z * list nat) :=
  match g with
  | [] => Some (vertex_states, order)
  | v :: g =>
      st ← vertex_states !! v;
      r ← (if decide (st = 0%Z) then DFS fuel EDGES v vertex_states order
           else Some (vertex_states, order));
      group_for fuel EDGES g r.1 r.2
  end.

(** The loop [for (int i = 0; i < NUM_VERTEX_GROUPS; ++i)]. *)
Fixpoint sort_for (fuel : nat) (EDGES : list (list bool)) (ks : list nat)
    (VERTEX_GROUPS : list (list nat)) (GROUP_PRIORITY : list Z)
    (vertex_states : list Z) (SORTED : list (Z * list nat))
    : option (list (Z * list nat)) :=
  match ks with
  | [] => Some SORTED
  | i :: ks =>
      g ← VERTEX_GROUPS !! i;
      r ← group_for fuel EDGES g vertex_states [];
      p ← GROUP_PRIORITY !! i;
      sort_for fuel EDGES ks VERTEX_GROUPS GROUP_PRIORITY r.1
        (multimap_insert (sort_key p) (reverse r.2) SORTED)
  end.

Definition vertex_groups (this : SystemManager) : option (list (list nat) * list Z) :=
  let NUM_SYSTEMS := length (m_SystemDependencyMatrix this) in
  groups_while NUM_SYSTEMS this (Z.of_nat <$> seq 0 NUM_SYSTEMS) [] [].

(** The system type ids in work order, before they are replaced by the
    registered pointers. *)
Definition work_order_ids (this : SystemManager) : option (list nat) :=
  let NUM_SYSTEMS := length (m_SystemDependencyMatrix this) in
  gs ← vertex_groups this;
  SORTED ← sort_for NUM_SYSTEMS (m_SystemDependencyMatrix this)
              (seq 0 (length gs.1)) gs.1 gs.2 (replicate NUM_SYSTEMS 0%Z) [];
  Some (concat (SORTED.*2)).

Definition UpdateSystemWorkOrder (this : SystemManager) : option SystemManager :=
  ids ← work_order_ids this;
  order ← mapM (λ m, m_Systems this !! m) ids;
  Some {| objects := objects this;
          m_Systems := m_Systems this;
          m_SystemDependencyMatrix := m_SystemDependencyMatrix this;
          m_SystemWorkOrder := order |}.

End Scheduler.

(** ** Work-state masks *)

Definition GetSystemWorkState (this : SystemManager) : option (list bool) :=
  mapM (λ p, IsActive <$> objects this !! p) (m_SystemWorkOrder this).

(** The loop of [SetSystemWorkState] over the remaining values [ks] of [i];
    [objs] is the system arena as written so far. *)
Fixpoint SetSystemWorkState_for (order : list Z) (mask : list bool) (ks : list nat)
    (objs : gmap Z ISystem) : option (gmap Z ISystem) :=
  match ks with
  | [] => Some objs
  | i :: ks =>
      p ← order !! i;
      b ← mask !! i;
      sys ← objs !! p;
      SetSystemWorkState_for order mask ks (<[p := SetActive b sys]> objs)
  end.

Definition SetSystemWorkState (mask : list bool) (this : SystemManager)
    : option SystemManager :=
  if decide (length mask = length (m_SystemWorkOrder this)) then
    objs ← SetSystemWorkState_for (m_SystemWorkOrder this) mask
              (seq 0 (length (m_SystemWorkOrder this))) (objects this);
    Some {| objects := objs;
            m_Systems := m_Systems this;
            m_SystemDependencyMatrix := m_SystemDependencyMatrix this;
            m_SystemWorkOrder := m_SystemWorkOrder this |}
  else None.

(** ** The per-frame passes *)

(** [PreUpdate], [Update] and [PostUpdate] share one body: walk the work
    order and call the matching method on every system whose active flag is
    set at that moment.  The methods of [ISystem] are virtual; what such a
    method does to the system objects, for the time step passed, is the
    parameter [method] (address of the called system, arena before, arena
    after).  The log lists the systems called, in call order; a work-order
    entry that points to no system object is undefined behaviour ([None]). *)
Fixpoint pass_for (method : Z → gmap Z ISystem → gmap Z ISystem) (order : list Z)
    (objs : gmap Z ISystem) (log : list Z) : option (gmap Z ISystem * list Z) :=
  match order with
  | [] => Some (objs, log)
  | system :: order =>
      sys ← objs !! system;
      if IsActive sys then pass_for method order (method system objs) (log ++ [system])
      else pass_for method order objs log
  end.

Definition pass (method : Z → gmap Z ISystem → gmap Z ISystem) (this : SystemManager)
    : option (SystemManager * list Z) :=
  r ← pass_for method (m_SystemWorkOrder this) (objects this) [];
  Some ({| objects := r.1;
           m_Systems := m_Systems this;
           m_SystemDependencyMatrix := m_SystemDependencyMatrix this;
           m_SystemWorkOrder := m_SystemWorkOrder this |}, r.2).

Definition Update (ISystem_Update : Z → gmap Z ISystem → gmap Z ISystem) :=
  pass ISystem_Update.

(** ** Vocabulary of the properties *)

(** [dep M i j]: the matrix says that system [i] runs after system [j]. *)
Definition dep (M : list (list bool)) (i j : nat) : Prop := at2 M i j = Some true.

Definition adjacent (M : list (list bool)) (i j : nat) : Prop := dep M i j ∨ dep M j i.

(** The arc followed by the search: from a vertex to one that depends on it. *)
Definition arc (M : list (list bool)) (j i : nat) : Prop := dep M i j.

Definition acyclic (M : list (list bool)) : Prop := ∀ i, ¬ tc (arc M) i i.

Definition square (M : list (list bool)) : Prop :=
  Forall (λ row, length row = length M) M.

(** Every index of the matrix has a registered system object. *)
Definition registered (this : SystemManager) : Prop :=
  ∀ i, i < length (m_SystemDependencyMatrix this) →
    ∃ p sys, m_Systems this !! i = Some p ∧ objects this !! p = Some sys.

Definition priority_of (this : SystemManager) (i : nat) : option Z :=
  GetSystemPriority <$> system_at this i.

(** A set of vertices closed under adjacency. *)
Definition closed (M : list (list bool)) (g : list nat) : Prop :=
  ∀ i j, i ∈ g → adjacent M i j → j ∈ g.

(** The group priority computed by the partition: the largest priority of
    the members, starting from [LOWEST]. *)
Definition group_priority (LOWEST : Z) (this : SystemManager) (g : list nat) (p : Z) : Prop :=
  (LOWEST ≤ p)%Z ∧
  (∀ m, m ∈ g → ∃ q, priority_of this m = Some q ∧ (q ≤ p)%Z) ∧
  (p = LOWEST ∨ ∃ m, m ∈ g ∧ priority_of this m = Some p).

(** Invariant of the flood fill of one group: [assigned] are the members of
    the groups found before, [k] is the size of [INDICES]. *)
Definition member_inv (M : list (list bool)) (assigned : list nat) (k : nat)
    (INDICES : list Z) (member group : list nat) : Prop :=
  length INDICES = k ∧
  NoDup (member ++ group) ∧
  (∀ j, j ∈ member ++ group → j ≤ k ∧ j ∉ assigned) ∧
  (∀ j, j < length M →
     (j ∈ assigned ∨ j ∈ member ++ group) ↔ (k ≤ j ∨ INDICES !! j = Some (-1)%Z)) ∧
  (∀ j x, INDICES !! j = Some x → x = (-1)%Z ∨ x = Z.of_nat j) ∧
  (∀ i j, i ∈ group → adjacent M i j → j ∈ member ++ group).

(** Invariant of the partition loop. *)
Definition groups_inv (LOWEST : Z) (this : SystemManager) (INDICES : list Z)
    (VERTEX_GROUPS : list (list nat)) (GROUP_PRIORITY : list Z) : Prop :=
  let M := m_SystemDependencyMatrix this in
  length INDICES ≤ length M ∧
  (∀ j x, INDICES !! j = Some x → x = (-1)%Z ∨ x = Z.of_nat j) ∧
  NoDup (concat VERTEX_GROUPS) ∧
  (∀ j, j < length M →
     j ∈ concat VERTEX_GROUPS ↔ (length INDICES ≤ j ∨ INDICES !! j = Some (-1)%Z)) ∧
  (∀ j, j ∈ concat VERTEX_GROUPS → j < length M) ∧
  Forall (closed M) VERTEX_GROUPS ∧
  Forall (λ g, g ≠ []) VERTEX_GROUPS ∧
  Forall2 (group_priority LOWEST this) VERTEX_GROUPS GROUP_PRIORITY.

(** How one vertex state may change during a search: a state other than
    "unvisited" ([0]) stays, an unvisited vertex stays so or becomes done ([2]). *)
Definition step (a b : Z) : Prop :=
  (a ≠ 0%Z → b = a) ∧ (a = 0%Z → b = 0%Z ∨ b = 2%Z).

(** The number of unvisited vertices bounds the depth of the search. *)
Definition zeros (VERTEX_STATE : list Z) : nat :=
  length (filter (λ st, st = 0%Z) VERTEX_STATE).

(** Neither unvisited nor on the search stack. *)
Definition finished (VERTEX_STATE : list Z) (i : nat) : Prop :=
  VERTEX_STATE !! i ≠ Some 0%Z ∧ VERTEX_STATE !! i ≠ Some 1%Z.

(** What a search started at [v] in state [VS] guarantees about the state
    [VS'] it leaves and the vertices [new] it appends. *)
Definition DFS_post (M : list (list bool)) (v : nat) (VS VS' : list Z)
    (new : list nat) : Prop :=
  Forall2 step VS VS' ∧
  NoDup new ∧
  (∀ i, i ∈ new ↔ VS !! i = Some 0%Z ∧ VS' !! i = Some 2%Z) ∧
  (∀ i, i ∈ new → rtc (arc M) v i) ∧
  (acyclic M → (∀ a, VS !! a = Some 1%Z → rtc (arc M) a v) →
   ∀ pj j i, new !! pj = Some j → dep M i j →
     (∃ pi, pi < pj ∧ new !! pi = Some i) ∨ finished VS i).

(** Between two searches started by the group loop the vertices emitted so
    far ([S]) are done and all others are unvisited. *)
Definition marked (n : nat) (S : list nat) (VS : list Z) : Prop :=
  length VS = n ∧
  ∀ i, i < n → VS !! i = Some (if decide (i ∈ S) then 2%Z else 0%Z).

(** A postorder: whoever depends on a vertex is emitted before it. *)
Definition postordered (M : list (list bool)) (o : list nat) : Prop :=
  ∀ pj j i, o !! pj = Some j → dep M i j → ∃ pi, pi < pj ∧ o !! pi = Some i.

(** The pairs the sorting loop inserts, in insertion order, for the group
    priorities [ps] and the postorders [orders] of the groups. *)
Definition entries (PRIORITY_MAX : Z) (ps : list Z) (orders : list (list nat))
    : list (Z * list nat) :=
  zip_with (λ p o, (sort_key PRIORITY_MAX p, reverse o)) ps orders.

(** The multimap after inserting the pairs [L] one after the other. *)
Definition multimap_from {V} (SORTED : list (Z * V)) (L : list (Z * V)) : list (Z * V) :=
  foldl (λ m kv, multimap_insert kv.1 kv.2 m) SORTED L.

(** The values of [SystemPriority] at hand: none below
    [LOWEST_SYSTEM_PRIORITY], none above the largest value of the type. *)
Definition priorities_ok (PRIORITY_MAX LOWEST : Z) (this : SystemManager) : Prop :=
  (0 ≤ LOWEST)%Z ∧
  ∀ i q, priority_of this i = Some q → (LOWEST ≤ q ≤ PRIORITY_MAX)%Z.

(** [p] is the largest priority among the members of [g]. *)
Definition max_priority (this : SystemManager) (g : list nat) (p : Z) : Prop :=
  (∀ m, m ∈ g → ∃ q, priority_of this m = Some q ∧ (q ≤ p)%Z) ∧
  (∃ m, m ∈ g ∧ priority_of this m = Some p).

(** The registered systems, by increasing type id. *)
Definition registered_systems (this : SystemManager) : list Z :=
  omap (λ i, m_Systems this !! i) (seq 0 (length (m_SystemDependencyMatrix this))).

(** [x] stands at an earlier position than [y]. *)
Definition before {A} (l : list A) (x y : A) : Prop :=
  ∃ px py, l !! px = Some x ∧ l !! py = Some y ∧ px < py.

(** ** The intra-group ordering as the design document words it

    "Visit an unvisited vertex, recursively visit all not-yet-visited
    predecessors per the directed edge [M[i][j]], restricted to the group's
    members, mark done, then append to a postorder list."  A predecessor of
    [v] is a vertex [i] with an edge [M[i][v]]; the candidates are tried by
    increasing index. *)
Inductive visit (M : list (list bool)) (G : list nat)
    : nat → list Z → list nat → list Z → list nat → Prop :=
  | visit_vertex v VS out VS' out' :
      visit_preds M G v (seq 0 (length VS)) (<[v := 1%Z]> VS) out VS' out' →
      visit M G v VS out (<[v := 2%Z]> VS') (out' ++ [v])
with visit_preds (M : list (list bool)) (G : list nat)
    : nat → list nat → list Z → list nat → list Z → list nat → Prop :=
  | visit_preds_done v VS out :
      visit_preds M G v [] VS out VS out
  | visit_preds_visit v i ks VS out VS1 out1 VS2 out2 :
      dep M i v → i ∈ G → VS !! i = Some 0%Z →
      visit M G i VS out VS1 out1 →
      visit_preds M G v ks VS1 out1 VS2 out2 →
      visit_preds M G v (i :: ks) VS out VS2 out2
  | visit_preds_skip v i ks VS out VS2 out2 :
      ¬ (dep M i v ∧ i ∈ G ∧ VS !! i = Some 0%Z) →
      visit_preds M G v ks VS out VS2 out2 →
      visit_preds M G v (i :: ks) VS out VS2 out2.

(** The members [g] of the group [G] still to be looked at: a search
    starts from each one that is unvisited when its turn comes. *)
Inductive visit_group (M : list (list bool)) (G : list nat)
    : list nat → list Z → list nat → list Z → list nat → Prop :=
  | visit_group_done VS order :
      visit_group M G [] VS order VS order
  | visit_group_start v g VS order VS1 order1 VS2 order2 :
      VS !! v = Some 0%Z →
      visit M G v VS order VS1 order1 →
      visit_group M G g VS1 order1 VS2 order2 →
      visit_group M G (v :: g) VS order VS2 order2
  | visit_group_skip v g st VS order VS2 order2 :
      VS !! v = Some st → st ≠ 0%Z →
      visit_group M G g VS order VS2 order2 →
      visit_group M G (v :: g) VS order VS2 order2.

(** The groups one after the other, each with a postorder list of its own. *)
Inductive visit_groups (M : list (list bool))
    : list (list nat) → list Z → list (list nat) → Prop :=
  | visit_groups_nil VS :
      visit_groups M [] VS []
  | visit_groups_cons g gs VS VS' o os :
      visit_group M g g VS [] VS' o →
      visit_groups M gs VS' os →
      visit_groups M (g :: gs) VS (o :: os).

(** Every entry of the work order points to a system object. *)
Definition work_order_valid (this : SystemManager) : Prop :=
  ∀ p, p ∈ m_SystemWorkOrder this → is_Some (objects this !! p).

(** The method leaves every active flag as it is (and removes no object). *)
Definition keeps_flags (method : Z → gmap Z ISystem → gmap Z ISystem) : Prop :=
  ∀ system objs p, IsActive <$> method system objs !! p = IsActive <$> objs !! p.


(** The systems of the work order that are active in [objs]. *)
Definition active_systems (objs : gmap Z ISystem) (order : list Z) : list Z :=
  filter (λ p, IsActive <$> objs !! p = Some true) order.

(** The systems of the work order whose bit of the mask is set. *)
Definition masked_systems (order : list Z) (mask : list bool) : list Z :=
  (filter (λ pb, pb.2 = true) (zip order mask)).*1.

(** No two type ids are registered with the same system object. *)
Definition registry_injective (this : SystemManager) : Prop :=
  ∀ i j p, m_Systems this !! i = Some p → m_Systems this !! j = Some p → i = j.

(** The marks the partition leaves in [INDICES]: an entry is either struck
    out or still holds its own position. *)
Definition marks (INDICES : list Z) : Prop :=
  ∀ j x, INDICES !! j = Some x → x = (-1)%Z ∨ x = Z.of_nat j.

(** The first member of a group, the vertex its flood fill started from. *)
Definition leader (g : list nat) : nat := default 0 (head g).

(** A group led by its first member: no member is larger, and every member
    is reached from it along adjacent vertices. *)
Definition led (M : list (list bool)) (g : list nat) : Prop :=
  ∃ s, head g = Some s ∧ ∀ j, j ∈ g → j ≤ s ∧ rtc (adjacent M) s j.

(** A search leaves the length of the state vector and the state of every
    vertex that is not unvisited, the start vertex apart. *)
Definition keeps_visited (rec : nat → list Z → list nat → option (list Z * list nat))
    : Prop :=
  ∀ i VS out VS' out', rec i VS out = Some (VS', out') →
    length VS' = length VS ∧
    ∀ j, j ≠ i → VS !! j ≠ Some 0%Z → VS' !! j = VS !! j.

(** ** Example configurations *)

(** A manager whose systems [0 .. n-1] have the priorities [prios], all
    active, with the object of system [i] at address [4096 + 64 i]. *)
Definition manager_of (prios : list Z) (M : list (list bool)) : SystemManager :=
  {| objects := list_to_map (imap (λ i p, ((4096 + 64 * Z.of_nat i)%Z, mkISystem p true)) prios);
     m_Systems := list_to_map (imap (λ i _, (i, (4096 + 64 * Z.of_nat i)%Z)) prios);
     m_SystemDependencyMatrix := M;
     m_SystemWorkOrder := [] |}.

(** Systems A, B, C, D (ids 0 to 3): A runs after B, C runs after B, no
    edge touches D. *)
Definition example_ABCD : SystemManager :=
  manager_of [5; 5; 5; 10]%Z
    [[false; true;  false; false];
     [false; false; false; false];
     [false; true;  false; false];
     [false; false; false; false]].

(** Three systems on a cycle [0 → 1 → 2 → 0]. *)
Definition example_cycle : SystemManager :=
  manager_of [1; 2; 3]%Z
    [[false; true;  false];
     [false; false; true];
     [true;  false; false]].

(** The A, B, C, D example after scheduling, with B and D switched off. *)
Definition example_scheduled : SystemManager :=
  {| objects := <[4160%Z := mkISystem 5 false]>
                  (<[4288%Z := mkISystem 10 false]> (objects example_ABCD));
     m_Systems := m_Systems example_ABCD;
     m_SystemDependencyMatrix := m_SystemDependencyMatrix example_ABCD;
     m_SystemWorkOrder := [4288; 4160; 4096; 4224]%Z |}.

(** A work order that lists one system twice. *)
Definition example_twice : SystemManager :=
  {| objects := {[ 4096%Z := mkISystem 5 true ]};
     m_Systems := {[ 0 := 4096%Z ]};
     m_SystemDependencyMatrix := [[false]];
     m_SystemWorkOrder := [4096; 4096]%Z |}.

(** The A, B, C, D example with every system declared dependent on itself. *)
Definition example_self : SystemManager :=
  {| objects := objects example_ABCD;
     m_Systems := m_Systems example_ABCD;
     m_SystemDependencyMatrix :=
       [[true;  true;  false; false];
        [false; true;  false; false];
        [false; true;  true;  false];
        [false; false; false; true]];
     m_SystemWorkOrder := [] |}.

End SystemManager.

(** * Entity manager *)

Module EntityManager.

(** ** Collaborators outside the sources at hand *)

(** Modelled from the spec: the global memory collaborator, of which only
    the interface [Allocate(size, tag) -> block] is known.  Blocks handed out
    never overlap: [next_block] is the first address not handed out yet. *)
Record GlobalMemory := mkGlobalMemory { next_block : Z }.

(** Modelled from the spec: [Allocate(size, tag)] of the global memory
    collaborator; the tag is a diagnostic label and is left out. *)
Definition Allocate (memSize : Z) (gm : GlobalMemory) : Z * GlobalMemory :=
  (next_block gm, {| next_block := next_block gm + memSize |}).

(** Modelled from the spec: the pool allocator ([PoolAllocator.h] is
    missing), a fixed-slot-size allocator over a caller-supplied memory
    block with a free list of slots. *)
Record PoolAllocator := mkPoolAllocator {
  first_address : Z;
  free_list : list Z
}.

(** Modelled from the spec: the constructor of the pool allocator over the
    block of [memSize] bytes at [mem], cut into slots of [objectSize] bytes
    (the block is taken to be aligned for the objects). *)
Definition PoolAllocator_new (memSize mem objectSize : Z) : PoolAllocator :=
  {| first_address := mem;
     free_list := (λ k, mem + objectSize * Z.of_nat k)%Z
                    <$> seq 0 (Z.to_nat (memSize `div` objectSize)) |}.

(** Modelled from the spec: the first address of the managed block. *)
Definition GetFirstMemoryAddress (a : PoolAllocator) : Z := first_address a.

(** Modelled from the spec: [allocate(size, align)] returns a slot, or null
    when the pool is exhausted. *)
Definition allocate (a : PoolAllocator) : option Z * PoolAllocator :=
  match free_list a with
  | [] => (None, a)
  | slot :: rest => (Some slot, {| first_address := first_address a; free_list := rest |})
  end.

(** Modelled from the spec: [free(ptr)] returns a slot to the free list. *)
Definition free (mem : Z) (a : PoolAllocator) : PoolAllocator :=
  {| first_address := first_address a; free_list := mem :: free_list a |}.

(** ** Entity containers *)

Record EntityMemoryChunk := mkEntityMemoryChunk {
  allocator : PoolAllocator;
  entities : list Z;
  chunkStart : Z;
  chunkEnd : Z
}.

Record EntityContainer := mkEntityContainer { m_Chunks : list EntityMemoryChunk }.

Section Container.

(** [sizeof(T)] of the entity type and the macro [ENITY_T_ALLOCATION_AMOUNT]
    of the missing [API.h]. *)
Variable sizeof_T : Z.
Variable ENITY_T_ALLOCATION_AMOUNT : nat.

Definition ALLOC_SIZE : Z := (sizeof_T * Z.of_nat ENITY_T_ALLOCATION_AMOUNT)%Z.

(** The constructor of [EntityMemoryChunk]. *)
Definition EntityMemoryChunk_new (a : PoolAllocator) : EntityMemoryChunk :=
  {| allocator := a;
     entities := [];
     chunkStart := GetFirstMemoryAddress a;
     chunkEnd := (GetFirstMemoryAddress a + ALLOC_SIZE)%Z |}.

(** [new EntityMemoryChunk(new EnityAllocator(ALLOC_SIZE, Allocate(ALLOC_SIZE, ..), ..))] *)
Definition new_chunk (gm : GlobalMemory) : EntityMemoryChunk * GlobalMemory :=
  let r := Allocate ALLOC_SIZE gm in
  (EntityMemoryChunk_new (PoolAllocator_new ALLOC_SIZE r.1 sizeof_T), r.2).

(** The constructor of [EntityContainer]. *)
Definition EntityContainer_new (gm : GlobalMemory) : EntityContainer * GlobalMemory :=
  let r := new_chunk gm in ({| m_Chunks := [r.1] |}, r.2).

(** [chunk->entities.push_back(slot)], with the allocator as the
    allocation left it. *)
Definition push_entity (chunk : EntityMemoryChunk) (a : PoolAllocator) (slot : Z)
    : EntityMemoryChunk :=
  {| allocator := a;
     entities := entities chunk ++ [slot];
     chunkStart := chunkStart chunk;
     chunkEnd := chunkEnd chunk |}.

Definition with_allocator (chunk : EntityMemoryChunk) (a : PoolAllocator)
    : EntityMemoryChunk :=
  {| allocator := a;
     entities := entities chunk;
     chunkStart := chunkStart chunk;
     chunkEnd := chunkEnd chunk |}.

(** The loop [for (auto chunk : this->m_Chunks)] of [CreateEntity]: the
    slot found, if any, and the chunks as the loop leaves them. *)
Fixpoint CreateEntity_for (chunks : list EntityMemoryChunk)
    : option Z * list EntityMemoryChunk :=
  match chunks with
  | [] => (None, [])
  | chunk :: rest =>
      if decide (ENITY_T_ALLOCATION_AMOUNT < length (entities chunk)) then
        let r := CreateEntity_for rest in (r.1, chunk :: r.2)
      else
        match allocate (allocator chunk) with
        | (Some slot, a) => (Some slot, push_entity chunk a slot :: rest)
        | (None, a) =>
            let r := CreateEntity_for rest in (r.1, with_allocator chunk a :: r.2)
        end
  end.

Definition CreateEntity (this : EntityContainer) (gm : GlobalMemory)
    : option (Z * EntityContainer * GlobalMemory) :=
  match CreateEntity_for (m_Chunks this) with
  | (Some slot, chunks) => Some (slot, {| m_Chunks := chunks |}, gm)
  | (None, chunks) =>
      (* all chunks are full... allocate a new one *)
      let r := new_chunk gm in
      match allocate (allocator r.1) with
      | (Some slot, a) =>
          Some (slot, {| m_Chunks := push_entity r.1 a slot :: chunks |}, r.2)
      | (None, _) => None
      end
  end.

(** [chunk->entities.remove(entity); chunk->allocator->free(entity);] *)
Definition remove_entity (entity : Z) (chunk : EntityMemoryChunk) : EntityMemoryChunk :=
  {| allocator := free entity (allocator chunk);
     entities := filter (λ e, e ≠ entity) (entities chunk);
     chunkStart := chunkStart chunk;
     chunkEnd := chunkEnd chunk |}.

(** The loop of [DestroyEntity]; falling out of it is the failed assertion. *)
Fixpoint DestroyEntity_for (adr : Z) (chunks : list EntityMemoryChunk)
    : option (list EntityMemoryChunk) :=
  match chunks with
  | [] => None
  | chunk :: rest =>
      if decide (chunkStart chunk ≤ adr ∧ chunkEnd chunk > adr)%Z then
        Some (remove_entity adr chunk :: rest)
      else
        rest' ← DestroyEntity_for adr rest; Some (chunk :: rest')
  end.

Definition DestroyEntity (entity : Z) (this : EntityContainer) : option EntityContainer :=
  chunks ← DestroyEntity_for entity (m_Chunks this); Some {| m_Chunks := chunks |}.

(** ** The container as the design document words it *)

(** A chunk "whose occupant count has not exceeded the configured per-chunk
    capacity and whose allocator yields a non-null slot". *)
Definition yields_slot (chunk : EntityMemoryChunk) : Prop :=
  length (entities chunk) ≤ ENITY_T_ALLOCATION_AMOUNT ∧
  is_Some (allocate (allocator chunk)).1.

#[global] Instance yields_slot_dec chunk : Decision (yields_slot chunk).
Proof. unfold yields_slot. apply _. Defined.

(** [CreateEntity] in the words of the design document: the first chunk of
    the list (newest first) that yields a slot gives it and is the only one
    to change; when there is none a new chunk goes to the front of the list
    and gives its first slot, or the call fails. *)
Definition CreateEntity_design (this : EntityContainer) (gm : GlobalMemory)
    : option (Z * EntityContainer * GlobalMemory) :=
  match list_find yields_slot (m_Chunks this) with
  | Some (k, chunk) =>
      slot ← (allocate (allocator chunk)).1;
      Some (slot,
            {| m_Chunks := <[k := push_entity chunk (allocate (allocator chunk)).2 slot]>
                             (m_Chunks this) |},
            gm)
  | None =>
      let r := new_chunk gm in
      slot ← (allocate (allocator r.1)).1;
      Some (slot,
            {| m_Chunks := push_entity r.1 (allocate (allocator r.1)).2 slot
                             :: m_Chunks this |},
            r.2)
  end.

(** The address-range test [chunkStart <= ptr < chunkEnd]. *)
Definition owns (adr : Z) (chunk : EntityMemoryChunk) : Prop :=
  (chunkStart chunk ≤ adr ∧ adr < chunkEnd chunk)%Z.

#[global] Instance owns_dec adr chunk : Decision (owns adr chunk).
Proof. unfold owns. apply _. Defined.

(** [DestroyEntity] in the words of the design document: the owning chunk
    is found by the range test; its entity list loses [ptr] and its allocator
    gets the slot back, its range stays; no owning chunk is a fatal
    failure. *)
Definition DestroyEntity_design (entity : Z) (this : EntityContainer)
    : option EntityContainer :=
  match list_find (owns entity) (m_Chunks this) with
  | Some (k, chunk) =>
      Some {| m_Chunks :=
                <[k := {| allocator := free entity (allocator chunk);
                          entities := filter (λ e, e ≠ entity) (entities chunk);
                          chunkStart := chunkStart chunk;
                          chunkEnd := chunkEnd chunk |}]> (m_Chunks this) |}
  | None => None
  end.

(** ** Sequences of calls on one container *)

Inductive Call := Create | Destroy (entity : Z).

(** One call on the container and the global memory it draws chunks from;
    [None] is a failed assertion. *)
Definition call_step (call : Call) (st : EntityContainer * GlobalMemory)
    : option (EntityContainer * GlobalMemory) :=
  match call with
  | Create => r ← CreateEntity st.1 st.2; Some (r.1.2, r.2)
  | Destroy entity => this ← DestroyEntity entity st.1; Some (this, st.2)
  end.

(** The states a sequence of calls goes through: the state it starts from
    and the state after every call, up to the first call that fails. *)
Fixpoint states (calls : list Call) (st : EntityContainer * GlobalMemory)
    : list (EntityContainer * GlobalMemory) :=
  st :: match calls with
        | [] => []
        | call :: calls =>
            match call_step call st with
            | Some st' => states calls st'
            | None => []
            end
        end.

(** ** Vocabulary of the properties *)

(** The live entities: created and not destroyed since. *)
Definition live_entities (this : EntityContainer) : list Z :=
  concat (entities <$> m_Chunks this).

(** Two entities at [e1] and [e2] do not share a byte. *)
Definition apart (e1 e2 : Z) : Prop :=
  (e1 + sizeof_T ≤ e2 ∨ e2 + sizeof_T ≤ e1)%Z.

(** No two entries of the list, at different positions, overlap. *)
Fixpoint no_overlap (l : list Z) : Prop :=
  match l with
  | [] => True
  | e :: l => Forall (apart e) l ∧ no_overlap l
  end.

(** The address lies in the range of exactly one chunk of the container. *)
Definition in_one_chunk (this : EntityContainer) (e : Z) : Prop :=
  ∃ k chunk, m_Chunks this !! k = Some chunk ∧ owns e chunk ∧
    ∀ k' chunk', m_Chunks this !! k' = Some chunk' → owns e chunk' → k' = k.

Definition entities_well_placed (this : EntityContainer) : Prop :=
  no_overlap (live_entities this) ∧
  ∀ e, e ∈ live_entities this → in_one_chunk this e.

(** The pool allocator of the chunk hands out disjoint in-range slots: the
    slot it would return now lies in the block of the chunk and overlaps none
    of the slots it handed out and did not get back. *)
Definition hands_out_sound (chunk : EntityMemoryChunk) : Prop :=
  ∀ slot a, allocate (allocator chunk) = (Some slot, a) →
    (chunkStart chunk ≤ slot ∧ slot + sizeof_T ≤ chunkEnd chunk)%Z ∧
    Forall (apart slot) (entities chunk).

(** The pool allocators behave so whenever the sequence asks them. *)
Fixpoint pools_sound_along (calls : list Call) (st : EntityContainer * GlobalMemory)
    : Prop :=
  match calls with
  | [] => True
  | call :: calls =>
      (call = Create → Forall hands_out_sound (m_Chunks st.1)) ∧
      match call_step call st with
      | Some st' => pools_sound_along calls st'
      | None => True
      end
  end.

(** Every [Destroy] of the sequence is given an entity that is live, or an
    address no chunk owns. *)
Fixpoint destroys_live (calls : list Call) (st : EntityContainer * GlobalMemory)
    : Prop :=
  match calls with
  | [] => True
  | call :: calls =>
      match call with
      | Create => True
      | Destroy e => e ∈ live_entities st.1 ∨ DestroyEntity e st.1 = None
      end ∧
      match call_step call st with
      | Some st' => destroys_live calls st'
      | None => True
      end
  end.

(** The address ranges of the chunks, newest first. *)
Definition ranges (chunks : list EntityMemoryChunk) : list (Z * Z) :=
  (λ chunk, (chunkStart chunk, chunkEnd chunk)) <$> chunks.

(** What a chunk keeps true: its range is the block of its pool, below the
    break of the global memory, and holds its entities apart from each other. *)
Definition chunk_inv (gm : GlobalMemory) (chunk : EntityMemoryChunk) : Prop :=
  chunkEnd chunk = (chunkStart chunk + ALLOC_SIZE)%Z ∧
  (chunkEnd chunk ≤ next_block gm)%Z ∧
  Forall (λ e, chunkStart chunk ≤ e ∧ e + sizeof_T ≤ chunkEnd chunk)%Z (entities chunk) ∧
  no_overlap (entities chunk).

Definition container_inv (st : EntityContainer * GlobalMemory) : Prop :=
  Forall (chunk_inv st.2) (m_Chunks st.1) ∧
  StronglySorted (λ new old : Z * Z, (old.2 ≤ new.1)%Z) (ranges (m_Chunks st.1)).

(** The free list of a pool is a list of slots of the chunk that are apart
    from each other and from the entities of the chunk. *)
Definition pool_inv (chunk : EntityMemoryChunk) : Prop :=
  Forall (λ e, chunkStart chunk ≤ e ∧ e + sizeof_T ≤ chunkEnd chunk)%Z
         (free_list (allocator chunk)) ∧
  no_overlap (free_list (allocator chunk) ++ entities chunk).

(** The address ranges of any two chunks of the container are disjoint,
    wherever the chunks stand in the list. *)
Definition ranges_disjoint (this : EntityContainer) : Prop :=
  ∀ i j ci cj, i ≠ j →
    m_Chunks this !! i = Some ci → m_Chunks this !! j = Some cj →
    (chunkEnd ci ≤ chunkStart cj ∨ chunkEnd cj ≤ chunkStart ci)%Z.

(** Every chunk holds its entities inside its range and apart from each
    other. *)
Definition chunks_hold_entities (this : EntityContainer) : Prop :=
  Forall (λ chunk,
            Forall (λ e, chunkStart chunk ≤ e ∧ e + sizeof_T ≤ chunkEnd chunk)%Z
                   (entities chunk) ∧
            no_overlap (entities chunk))
         (m_Chunks this).

End Container.

(** ** Example configuration *)

(** Entities of 16 bytes, two to a chunk; global memory starts at 4096. *)
Definition example_container : EntityContainer * GlobalMemory :=
  EntityContainer_new 16 2 {| next_block := 4096 |}.

(** Three entities are created, the first is destroyed, one more is
    created. *)
Definition example_calls : list Call := [Create; Create; Create; Destroy 4096; Create].

(** Two chunks of two 16-byte slots with one entity each, the chunk at the
    lower addresses standing first in the list. *)
Definition example_ascending : EntityContainer :=
  {| m_Chunks :=
       [ {| allocator := {| first_address := 4096; free_list := [4112] |};
            entities := [4096]; chunkStart := 4096; chunkEnd := 4128 |};
         {| allocator := {| first_address := 4128; free_list := [4144] |};
            entities := [4128]; chunkStart := 4128; chunkEnd := 4160 |} ]%Z |}.

(** ** The lookup table of the entity manager *)

Record EntityManager := mkEntityManager {
  m_EntityLUT : list (option Z)
}.

(** [GetEntity]; [INVALID_ENTITY_ID] comes from the missing [IEntity.h]. *)
Definition GetEntity (INVALID_ENTITY_ID : nat) (id : nat) (this : EntityManager)
    : option (option Z) :=
  if decide (id ≠ INVALID_ENTITY_ID ∧ id < length (m_EntityLUT this)) then
    m_EntityLUT this !! id
  else None.

End EntityManager.

Import SystemManager.

(** * Properties of the scheduler *)

Lemma pop_back_snoc {A} (l : list A) x : pop_back (l ++ [x]) = Some (l, x).
Proof.
  unfold pop_back. rewrite last_snoc /= length_app /= Nat.add_1_r /=.
  by rewrite take_app_length.
Qed.

Lemma pop_back_nil {A} : pop_back (@nil A) = None.
Proof. done. Qed.

Lemma pop_back_Some {A} (l l' : list A) x : pop_back l = Some (l', x) → l = l' ++ [x].
Proof.
  destruct l as [|y l] using rev_ind; [done|].
  rewrite pop_back_snoc. by intros [= <- <-].
Qed.

Lemma pop_back_None {A} (l : list A) : pop_back l = None → l = [].
Proof.
  destruct l as [|y l] using rev_ind; [done|]. by rewrite pop_back_snoc.
Qed.

Section Graph.

Context (M : list (list bool)) (Hsq : square M).

Lemma square_row i row : M !! i = Some row → length row = length M.
Proof using Hsq.
  intros Hrow. exact (Forall_lookup_1 _ _ _ _ Hsq Hrow).
Qed.

Lemma at2_is_Some i j : i < length M → j < length M → is_Some (at2 M i j).
Proof using Hsq.
  intros Hi Hj. unfold at2.
  destruct (lookup_lt_is_Some_2 M i Hi) as [row Hrow]. rewrite Hrow /=.
  apply lookup_lt_is_Some_2. by rewrite (square_row i row).
Qed.

Lemma at2_lt i j b : at2 M i j = Some b → i < length M ∧ j < length M.
Proof using Hsq.
  unfold at2. intros H.
  destruct (M !! i) as [row|] eqn:Hrow; [|done]. simpl in H.
  split; [exact (lookup_lt_Some _ _ _ Hrow)|].
  rewrite -(square_row i row) //. exact (lookup_lt_Some _ _ _ H).
Qed.

Lemma dep_lt i j : dep M i j → i < length M ∧ j < length M.
Proof using Hsq. apply at2_lt. Qed.

Lemma adjacent_lt i j : adjacent M i j → i < length M ∧ j < length M.
Proof using Hsq. intros [H|H]; apply dep_lt in H; tauto. Qed.

Lemma adjacent_sym i j : adjacent M i j → adjacent M j i.
Proof. unfold adjacent. tauto. Qed.

(** *** The neighbour scan *)

Lemma member_for_spec index ks (INDICES : list Z) member :
  index < length M →
  NoDup ks → (∀ i, i ∈ ks → i < length INDICES ∧ i < length M) →
  ∃ INDICES' new,
    member_for M index ks INDICES member = Some (INDICES', member ++ new) ∧
    length INDICES' = length INDICES ∧
    NoDup new ∧
    (∀ j, j ∈ new ↔ j ∈ ks ∧ INDICES !! j ≠ Some (-1)%Z ∧ adjacent M j index) ∧
    (∀ j, INDICES' !! j = if decide (j ∈ new) then Some (-1)%Z else INDICES !! j).
Proof using Hsq.
  intros Hidx. revert INDICES member.
  induction ks as [|i ks IH]; intros INDICES member Hnd Hks.
  { exists INDICES, []. rewrite app_nil_r. split_and!; try done.
    intros j. rewrite elem_of_nil. tauto. }
  apply NoDup_cons in Hnd as [Hi Hnd].
  destruct (Hks i) as [Hil HiM]; [left|].
  destruct (lookup_lt_is_Some_2 INDICES i Hil) as [x Hx].
  destruct (at2_is_Some i index HiM Hidx) as [a Ha].
  destruct (at2_is_Some index i Hidx HiM) as [b Hb].
  simpl. rewrite Hx /=.
  assert (Hks' : ∀ I' : list Z, length I' = length INDICES →
             ∀ i0, i0 ∈ ks → i0 < length I' ∧ i0 < length M).
  { intros I' HI' i0 Hi0. rewrite HI'. apply Hks. by right. }
  destruct (decide (x ≠ (-1)%Z ∧ (a = true ∨ b = true))) as [Hc|Hc].
  - (* the neighbour is taken *)
    destruct (IH (<[i:=(-1)%Z]> INDICES) (member ++ [i]) Hnd) as
      (I' & new & Hrun & Hlen & Hndn & Hmem & Hlook).
    { apply Hks'. by rewrite length_insert. }
    exists I', (i :: new).
    assert (Hinew : i ∉ new).
    { intros Hin. apply Hmem in Hin as [Hin _]. done. }
    split_and!.
    + destruct Hc as [Hx1 Hab]. rewrite decide_True //. rewrite Ha /=.
      destruct a; simpl.
      * rewrite Hrun. by rewrite -app_assoc.
      * rewrite Hb /=. destruct b; [|naive_solver].
        rewrite Hrun. by rewrite -app_assoc.
    + by rewrite Hlen length_insert.
    + by apply NoDup_cons.
    + intros j. rewrite !elem_of_cons Hmem. split.
      * intros [->|(Hj & Hjm & Hadj)].
        -- split_and!; [by left| |].
           ++ rewrite Hx. naive_solver.
           ++ unfold adjacent, dep. rewrite Ha Hb. naive_solver.
        -- split_and!; [by right| |done].
           rewrite list_lookup_insert_ne in Hjm; [done|]. by intros ->.
      * intros ([->|Hj] & Hjm & Hadj); [by left|right].
        split_and!; [done| |done].
        rewrite list_lookup_insert_ne; [done|]. by intros ->.
    + intros j. rewrite Hlook. destruct (decide (j = i)) as [->|Hne].
      * rewrite decide_False // decide_True; [|by left].
        by rewrite list_lookup_insert_eq.
      * rewrite list_lookup_insert_ne; [|done].
        destruct (decide (j ∈ new)).
        -- rewrite decide_True //. by right.
        -- rewrite decide_False //. rewrite elem_of_cons. naive_solver.
  - (* the neighbour is skipped *)
    destruct (IH INDICES member Hnd) as (I' & new & Hrun & Hlen & Hndn & Hmem & Hlook).
    { by apply Hks'. }
    exists I', new. split_and!; try done.
    + destruct (decide (x ≠ (-1)%Z)) as [Hx1|Hx1]; simpl.
      * rewrite Ha /=. destruct a; [naive_solver|]. simpl.
        rewrite Hb /=. destruct b; [naive_solver|]. done.
      * done.
    + intros j. rewrite Hmem elem_of_cons. split; [naive_solver|].
      intros ([->|Hj] & Hjm & Hadj); [|done].
      exfalso. apply Hc. split; [congruence|].
      unfold adjacent, dep in Hadj. rewrite Ha Hb in Hadj. naive_solver.
Qed.

Lemma NoDup_le_length (l : list nat) k :
  NoDup l → (∀ j, j ∈ l → j ≤ k) → length l ≤ k + 1.
Proof.
  intros Hnd Hle.
  assert (Hsub : l ⊆+ seq 0 (S k)).
  { apply NoDup_submseteq; [done|]. intros j Hj. apply elem_of_seq.
    specialize (Hle j Hj). lia. }
  apply submseteq_length in Hsub. rewrite length_seq in Hsub. lia.
Qed.

Lemma list_snoc_cases {A} (l : list A) : l = [] ∨ ∃ l' x, l = l' ++ [x].
Proof. destruct l as [|x l _] using rev_ind; [by left|right; eauto]. Qed.

End Graph.

(** *** The flood fill of one group *)

Lemma member_while_spec LOWEST this assigned k fuel INDICES member group p :
  square (m_SystemDependencyMatrix this) → registered this →
  k < length (m_SystemDependencyMatrix this) →
  closed (m_SystemDependencyMatrix this) assigned →
  member_inv (m_SystemDependencyMatrix this) assigned k INDICES member group →
  k + 1 ≤ fuel + length group →
  group_priority LOWEST this group p →
  ∃ INDICES' group' p',
    member_while fuel this INDICES member group p = Some (INDICES', group', p') ∧
    member_inv (m_SystemDependencyMatrix this) assigned k INDICES' [] group' ∧
    group_priority LOWEST this group' p' ∧
    (∀ j, j ∈ member ++ group → j ∈ group').
Proof.
  set (M := m_SystemDependencyMatrix this).
  intros Hsq Hreg Hk Hcl. revert INDICES member group p.
  induction fuel as [|fuel IH]; intros INDICES member group p Hinv Hfuel Hprio;
    destruct (list_snoc_cases member) as [->|(member' & index & ->)].
  1,3: by (exists INDICES, group, p).
  - exfalso. destruct Hinv as (_ & Hnd & Hle & _).
    apply NoDup_le_length with (k := k) in Hnd; [|naive_solver].
    rewrite !length_app /= in Hnd. lia.
  - destruct Hinv as (Hlen & Hnd & Hle & Hcov & Hval & Hadj).
    assert (Hindex : index < length M).
    { destruct (Hle index) as [? _]; [set_solver|]. lia. }
    destruct (member_for_spec M Hsq index (seq 0 (length INDICES)) INDICES member')
      as (I' & new & Hrun & Hlen' & Hndn & Hnew & Hlook); [done|apply NoDup_seq| |].
    { intros i Hi%elem_of_seq. lia. }
    destruct (Hreg index Hindex) as (ptr & sys & Hptr & Hsys).
    assert (Hsysat : system_at this index = Some sys).
    { unfold system_at. by rewrite Hptr /= Hsys. }
    assert (Hnew' : ∀ j, j ∈ new → j < k ∧ (j ∉ assigned) ∧ (j ∉ (member' ++ [index]) ++ group)
                                  ∧ adjacent M j index).
    { intros j [Hj [Hm Ha]]%Hnew. apply elem_of_seq in Hj.
      assert (j < k) by lia. split_and!; [done| | |done].
      - intros Hin. destruct (adjacent_lt M Hsq _ _ Ha) as [Hj' _].
        apply Hm. destruct (Hcov j Hj') as [H1 _].
        destruct H1 as [?|?]; [by left|lia|done].
      - intros Hin. destruct (adjacent_lt M Hsq _ _ Ha) as [Hj' _].
        apply Hm. destruct (Hcov j Hj') as [H1 _].
        destruct H1 as [?|?]; [by right|lia|done]. }
    cbn [member_while]. rewrite pop_back_snoc. fold M. rewrite Hrun /= Hsysat /=.
    edestruct (IH I' (member' ++ new) (group ++ [index])
                 (Z.max (GetSystemPriority sys) p))
      as (I'' & group' & p' & Hrun' & Hinv' & Hprio' & Hsub); last first.
    { exists I'', group', p'. split_and!; [done..|].
      intros j Hj. apply Hsub. set_solver. }
    + destruct Hprio as (Hlow & Hall & Hmax).
      assert (Hpo : priority_of this index = Some (GetSystemPriority sys)).
      { unfold priority_of. by rewrite Hsysat. }
      split_and!.
      * lia.
      * intros m Hm. assert (m ∈ group ∨ m = index) as [Hm'| ->] by set_solver.
        -- destruct (Hall m Hm') as (q & Hq & Hqp). exists q. split; [done|lia].
        -- exists (GetSystemPriority sys). split; [done|lia].
      * destruct (Z.max_spec (GetSystemPriority sys) p) as [[_ ->]|[_ ->]].
        -- destruct Hmax as [->|(m & Hm & Hmp)]; [by left|right].
           exists m. split; [set_solver|done].
        -- right. exists index. split; [set_solver|done].
    + rewrite length_app /=. lia.
    + split_and!.
      * lia.
      * assert (Hp : (member' ++ new) ++ group ++ [index]
                     ≡ₚ new ++ (member' ++ [index]) ++ group) by solve_Permutation.
        rewrite Hp. apply NoDup_app. split_and!; [done| |done].
        intros j Hj. by apply Hnew'.
      * intros j Hj.
        assert (j ∈ new ∨ j ∈ (member' ++ [index]) ++ group) as [Hj'|Hj'] by set_solver.
        -- destruct (Hnew' j Hj') as (? & ? & _). split; [lia|done].
        -- by apply Hle.
      * intros j Hj. rewrite Hlook. specialize (Hcov j Hj).
        destruct (decide (j ∈ new)) as [Hjn|Hjn].
        -- split; [by right|]. intros _. right. set_solver.
        -- rewrite -Hcov. set_solver.
      * intros j x. rewrite Hlook. destruct (decide (j ∈ new)); [|by apply Hval].
        intros [= <-]. by left.
      * intros i j Hi Ha.
        assert (i ∈ group ∨ i = index) as [Hi'| ->] by set_solver.
        { specialize (Hadj i j Hi' Ha). set_solver. }
        destruct (adjacent_lt M Hsq _ _ Ha) as [_ Hj'].
        destruct (decide (j ∈ new)) as [|Hjn]; [set_solver|].
        assert (Hjc : k ≤ j ∨ INDICES !! j = Some (-1)%Z).
        { destruct (decide (j < k)) as [Hjk|]; [|lia]. right.
          destruct (decide (INDICES !! j = Some (-1)%Z)) as [|Hne]; [done|].
          exfalso. apply Hjn, Hnew. split_and!; [apply elem_of_seq; lia|done|].
          by apply adjacent_sym. }
        apply Hcov in Hjc as [Hja|Hjm]; [|set_solver|done].
        exfalso. destruct (Hle index) as [_ Hna]; [set_solver|].
        apply Hna. eapply Hcl; [done|]. by apply adjacent_sym.
Qed.

(** *** The partition loop *)

Lemma elem_of_concat {A} (x : A) (ls : list (list A)) :
  x ∈ concat ls ↔ ∃ l, x ∈ l ∧ l ∈ ls.
Proof.
  induction ls as [|l ls IH]; simpl.
  - rewrite elem_of_nil. split; [done|]. by intros (l & _ & ?%elem_of_nil).
  - rewrite elem_of_app IH. split.
    + intros [?|(l' & ? & ?)]; [exists l|exists l']; split; try done; by constructor.
    + intros (l' & Hx & [->|?]%elem_of_cons); [by left|right; eauto].
Qed.

Lemma closed_concat M (VG : list (list nat)) : Forall (closed M) VG → closed M (concat VG).
Proof.
  intros HVG i j Hi Ha. apply elem_of_concat in Hi as (g & Hi & Hg).
  apply elem_of_concat. exists g. split; [|done].
  rewrite Forall_forall in HVG. by apply (HVG g Hg i j).
Qed.

Lemma groups_while_spec LOWEST this fuel INDICES VG GP :
  square (m_SystemDependencyMatrix this) → registered this →
  groups_inv LOWEST this INDICES VG GP →
  length INDICES ≤ fuel →
  ∃ VG' GP',
    groups_while LOWEST fuel this INDICES VG GP = Some (VG', GP') ∧
    groups_inv LOWEST this [] VG' GP'.
Proof.
  set (M := m_SystemDependencyMatrix this).
  intros Hsq Hreg. revert INDICES VG GP.
  induction fuel as [|fuel IH]; intros INDICES VG GP Hinv Hfuel;
    destruct (list_snoc_cases INDICES) as [->|(I & x & ->)].
  1,3: by (exists VG, GP).
  { rewrite length_app /= in Hfuel. lia. }
  destruct Hinv as (Hlen & Hval & Hnd & Hcov & Hlt & Hcl & Hne & Hprio).
  fold M in Hlen, Hcov, Hlt, Hcl.
  rewrite length_app /= in Hlen, Hfuel.
  assert (Hcov' : ∀ j, j < length M →
            j ∈ concat VG ↔ (length I < j ∨ j = length I ∧ x = (-1)%Z
                              ∨ I !! j = Some (-1)%Z)).
  { intros j Hj. rewrite (Hcov j Hj) length_app /=.
    destruct (decide (j < length I)) as [Hjl|Hjl].
    - rewrite lookup_app_l //. naive_solver lia.
    - rewrite lookup_app_r; [|lia]. rewrite (lookup_ge_None_2 I); [|lia].
      destruct (decide (j = length I)) as [->|].
      + rewrite Nat.sub_diag /=. naive_solver lia.
      + destruct (j - length I) as [|m] eqn:E; [lia|]. simpl. naive_solver lia. }
  assert (Hval' : ∀ j y, I !! j = Some y → y = (-1)%Z ∨ y = Z.of_nat j).
  { intros j y Hy. apply (Hval j). by apply lookup_app_l_Some. }
  cbn [groups_while]. rewrite pop_back_snoc.
  destruct (decide (x = (-1)%Z)) as [->|Hx].
  { apply IH; [|lia]. split_and!; try done; [fold M; lia|].
    fold M. intros j Hj. rewrite (Hcov' j Hj). naive_solver lia. }
  assert (Hxk : x = Z.of_nat (length I)).
  { destruct (Hval (length I) x) as [?|?]; [|done..].
    by rewrite lookup_app_r // Nat.sub_diag. }
  subst x. rewrite Nat2Z.id.
  assert (Hknew : length I ∉ concat VG).
  { intros Hin. apply Hcov' in Hin; [|lia].
    destruct Hin as [?|[[_ ?]|Hin]]; [lia|done|].
    apply lookup_lt_Some in Hin. lia. }
  destruct (member_while_spec LOWEST this (concat VG) (length I) (S (length I))
              I [length I] [] LOWEST) as (I' & group' & p' & Hrun & Hinv' & Hprio' & Hsub);
    [done|done|fold M; lia|by apply closed_concat| |simpl; lia| |].
  { fold M. split_and!; [done|apply NoDup_singleton| | |done|].
    - intros j Hj. assert (j = length I) as -> by set_solver. done.
    - intros j Hj. rewrite (Hcov' j Hj). rewrite app_nil_r list_elem_of_singleton.
      naive_solver lia.
    - intros i j Hi. by apply elem_of_nil in Hi. }
  { split_and!; [lia| |by left]. intros m Hm. by apply elem_of_nil in Hm. }
  fold M in Hrun. rewrite Hrun /=.
  destruct Hinv' as (Hlen' & Hnd' & Hle' & Hcovm & Hvalm & Hadj').
  simpl in Hnd', Hle', Hcovm, Hadj', Hsub.
  apply IH; [|simpl; lia]. subst M.
  split_and!.
  - lia.
  - done.
  - rewrite concat_app /= app_nil_r. apply NoDup_app. split_and!; [done| |done].
    intros j Hj Hj'. by destruct (Hle' j Hj').
  - intros j Hj. rewrite concat_app /= app_nil_r elem_of_app Hlen'. by apply Hcovm.
  - intros j. rewrite concat_app /= app_nil_r elem_of_app.
    intros [?|Hj]; [by apply Hlt|]. destruct (Hle' j Hj). lia.
  - apply Forall_app. split; [done|]. apply Forall_singleton.
    intros i j Hi Ha. by apply (Hadj' i j).
  - apply Forall_app. split; [done|]. apply Forall_singleton.
    intros ->. specialize (Hsub (length I)). set_solver.
  - apply Forall2_app; [done|]. by apply Forall2_cons.
Qed.

(** The partition finds groups that split the indices [0 .. n-1], are closed
    under adjacency and carry the largest priority of their members. *)
Lemma vertex_groups_spec LOWEST this :
  square (m_SystemDependencyMatrix this) → registered this →
  ∃ VG GP,
    vertex_groups LOWEST this = Some (VG, GP) ∧
    concat VG ≡ₚ seq 0 (length (m_SystemDependencyMatrix this)) ∧
    Forall (closed (m_SystemDependencyMatrix this)) VG ∧
    Forall (λ g, g ≠ []) VG ∧
    Forall2 (group_priority LOWEST this) VG GP.
Proof.
  intros Hsq Hreg.
  destruct (groups_while_spec LOWEST this (length (m_SystemDependencyMatrix this)) (Z.of_nat <$> seq 0 (length (m_SystemDependencyMatrix this))) [] [])
    as (VG & GP & Hrun & Hinv); [done|done| |by rewrite length_fmap length_seq|].
  { split_and!.
    - by rewrite length_fmap length_seq.
    - intros j x. rewrite list_lookup_fmap. intros Hx. right.
      destruct (seq 0 (length (m_SystemDependencyMatrix this)) !! j) as [y|] eqn:Hy; [|done].
      apply lookup_seq in Hy as [-> _]. simpl in Hx. by injection Hx as <-.
    - constructor.
    - intros j Hj. rewrite length_fmap length_seq list_lookup_fmap.
      rewrite lookup_seq_lt //=. split; [by intros ?%elem_of_nil|].
      intros [?|[=]]; lia.
    - by intros j ?%elem_of_nil.
    - constructor.
    - constructor.
    - constructor. }
  exists VG, GP. destruct Hinv as (_ & _ & Hnd & Hcov & Hlt & Hcl & Hne & Hprio).
  split_and!; try done.
  apply NoDup_Permutation; [done|apply NoDup_seq|].
  intros j. rewrite elem_of_seq. split; [intros ?%Hlt; lia|].
  intros [_ Hj]. apply Hcov; [lia|]. left. simpl. lia.
Qed.

(** *** Vertex states *)

Lemma step_refl a : step a a.
Proof. unfold step. naive_solver. Qed.

Lemma step_trans a b c : step a b → step b c → step a c.
Proof. unfold step. intros [H1 H2] [H3 H4]. split; intros; naive_solver lia. Qed.

Lemma Forall2_step_refl VS : Forall2 step VS VS.
Proof. apply Forall2_same_length_lookup. split; [done|]. intros i a b ? ?. simplify_eq. apply step_refl. Qed.

Lemma Forall2_step_trans VS1 VS2 VS3 :
  Forall2 step VS1 VS2 → Forall2 step VS2 VS3 → Forall2 step VS1 VS3.
Proof.
  intros H1 H2. revert VS3 H2. induction H1; intros VS3 H2; inversion H2; subst;
    constructor; eauto using step_trans.
Qed.

Lemma Forall2_step_lookup VS VS' i a :
  Forall2 step VS VS' → VS !! i = Some a → ∃ b, VS' !! i = Some b ∧ step a b.
Proof.
  intros H Ha. destruct (Forall2_lookup_l _ _ _ _ _ H Ha) as (b & ? & ?). eauto.
Qed.

Lemma Forall2_step_nonzero VS VS' i a :
  Forall2 step VS VS' → VS !! i = Some a → a ≠ 0%Z → VS' !! i = Some a.
Proof.
  intros H Ha Hne. destruct (Forall2_step_lookup _ _ _ _ H Ha) as (b & Hb & [Hs _]).
  by rewrite Hb (Hs Hne).
Qed.

Lemma Forall2_step_zero_inv VS VS' i :
  Forall2 step VS VS' → VS' !! i = Some 0%Z → VS !! i = Some 0%Z.
Proof.
  intros H Hb. destruct (Forall2_lookup_r _ _ _ _ _ H Hb) as (a & Ha & [Hs _]).
  rewrite Ha. f_equal. destruct (decide (a = 0%Z)); [done|]. by rewrite -(Hs n).
Qed.

Lemma zeros_mono VS VS' : Forall2 step VS VS' → zeros VS' ≤ zeros VS.
Proof.
  unfold zeros. induction 1 as [|a b VS VS' [Hs1 Hs2] _ IH]; [done|].
  rewrite !filter_cons. destruct (decide (b = 0%Z)) as [->|Hb].
  - destruct (decide (a = 0%Z)) as [|Ha]; [simpl; lia|]. by specialize (Hs1 Ha).
  - destruct (decide (a = 0%Z)); simpl; lia.
Qed.

Lemma zeros_insert VS v :
  VS !! v = Some 0%Z → zeros (<[v:=1%Z]> VS) < zeros VS.
Proof.
  unfold zeros. revert v. induction VS as [|a VS IH]; intros [|v] Hv; simplify_eq/=.
  - rewrite !filter_cons /=. destruct (decide (1%Z = 0%Z)); [done|]. lia.
  - rewrite !filter_cons. specialize (IH v Hv). destruct (decide (a = 0%Z)); simpl; lia.
Qed.

Section Search.

Context (M : list (list bool)) (Hsq : square M).

(** The loop of one search, given that the recursive searches behave. *)
Lemma DFS_for_spec (rec : nat → list Z → list nat → option (list Z * list nat)) f v :
  (∀ i VS out, i < length M → length VS = length M → VS !! i = Some 0%Z →
     zeros VS ≤ f →
     ∃ VS' new, rec i VS out = Some (VS', out ++ new) ∧ VS' !! i = Some 2%Z ∧
                DFS_post M i VS VS' new) →
  v < length M →
  ∀ ks VS out,
    (∀ i, i ∈ ks → i < length M) →
    length VS = length M → zeros VS ≤ f →
    ∃ VS' new,
      DFS_for rec M v ks VS out = Some (VS', out ++ new) ∧
      (∀ i, i ∈ ks → dep M i v → VS' !! i ≠ Some 0%Z) ∧
      DFS_post M v VS VS' new.
Proof using Hsq.
  intros Hrec Hv. induction ks as [|i ks IH]; intros VS out Hks Hlen Hz.
  { exists VS, []. rewrite app_nil_r. split_and!; [done|by intros i ?%elem_of_nil|].
    split_and!; [apply Forall2_step_refl|constructor| |by intros i ?%elem_of_nil|].
    - intros i. rewrite elem_of_nil. split; [done|]. intros [H1 H2]. congruence.
    - intros _ _ pj j i Hpj. by rewrite lookup_nil in Hpj. }
  assert (Hi : i < length M) by (apply Hks; left).
  assert (Hks' : ∀ i0, i0 ∈ ks → i0 < length M) by (intros; apply Hks; by right).
  destruct (at2_is_Some M Hsq i v Hi Hv) as [e He].
  destruct (lookup_lt_is_Some_2 VS i) as [st Hst]; [lia|].
  assert (Hcall : e = true ∧ st = 0%Z ∨ ¬ (e = true ∧ st = 0%Z)).
  { destruct e; [|right; naive_solver]. destruct (decide (st = 0%Z)); naive_solver. }
  destruct Hcall as [[-> ->]|Hno].
  - (* the recursive search of [i] *)
    destruct (Hrec i VS out Hi Hlen Hst Hz) as (VS1 & new1 & Hrun1 & Hdone1 & Hpost1).
    destruct Hpost1 as (Hstep1 & Hnd1 & Hmem1 & Hreach1 & Htopo1).
    destruct (IH VS1 (out ++ new1) Hks') as (VS2 & new2 & Hrun2 & Hcl2 & Hpost2).
    { by rewrite -(Forall2_length _ _ _ Hstep1). }
    { pose proof (zeros_mono _ _ Hstep1). lia. }
    destruct Hpost2 as (Hstep2 & Hnd2 & Hmem2 & Hreach2 & Htopo2).
    exists VS2, (new1 ++ new2). split_and!.
    + simpl. rewrite He /= Hst /= Hrun1 /= Hrun2. by rewrite app_assoc.
    + intros i' [->|Hi']%elem_of_cons Hd; [|by apply Hcl2].
      rewrite (Forall2_step_nonzero _ _ _ _ Hstep2 Hdone1); done.
    + split_and!.
      * by eapply Forall2_step_trans.
      * apply NoDup_app. split_and!; [done| |done].
        intros x [_ Hx1]%Hmem1 [Hx2 _]%Hmem2. congruence.
      * intros x. rewrite elem_of_app Hmem1 Hmem2. split.
        -- intros [[Hx Hx1]|[Hx1 Hx2]].
           ++ split; [done|]. by apply (Forall2_step_nonzero _ _ _ _ Hstep2 Hx1).
           ++ split; [|done]. by eapply Forall2_step_zero_inv.
        -- intros [Hx Hx2].
           destruct (Forall2_step_lookup _ _ _ _ Hstep1 Hx) as (b & Hb & [_ Hs]).
           destruct (Hs eq_refl) as [-> | ->]; [by right|by left].
      * intros x [Hx|Hx]%elem_of_app; [|by apply Hreach2].
        eapply rtc_l; [|by apply Hreach1]. done.
      * intros Hac Hstack pj j x Hpj Hd.
        apply lookup_app_Some in Hpj as [Hpj|[Hge Hpj]].
        -- destruct (Htopo1 Hac) with (pj := pj) (j := j) (i := x)
             as [(px & Hpx & Hx)|Hfin]; [|done|done| |by right].
           { intros a Ha. eapply rtc_r; [by apply Hstack|]. done. }
           left. exists px. split; [done|]. by apply lookup_app_l_Some.
        -- destruct (Htopo2 Hac) with (pj := pj - length new1) (j := j) (i := x)
             as [(px & Hpx & Hx)|[Hf0 Hf1]]; [|done|done| |].
           { intros a Ha. apply Hstack.
             destruct (VS !! a) as [s|] eqn:Hs.
             - destruct (decide (s = 0%Z)) as [->|Hs0].
               + destruct (Forall2_step_lookup _ _ _ _ Hstep1 Hs) as (b & Hb & [_ Hs']).
                 destruct (Hs' eq_refl); congruence.
               + by rewrite -(Forall2_step_nonzero _ _ _ _ Hstep1 Hs Hs0).
             - apply lookup_ge_None in Hs. apply lookup_lt_Some in Ha.
               rewrite (Forall2_length _ _ _ Hstep1) in Hs. lia. }
           ++ left. exists (length new1 + px). split; [lia|].
              rewrite lookup_app_r; [|lia]. by replace (length new1 + px - length new1) with px by lia.
           ++ destruct (dep_lt M Hsq _ _ Hd) as [Hx _].
              destruct (lookup_lt_is_Some_2 VS x) as [s Hs]; [lia|].
              destruct (decide (s = 0%Z)) as [->|Hs0].
              ** left. destruct (Forall2_step_lookup _ _ _ _ Hstep1 Hs) as (b & Hb & [_ Hs']).
                 destruct (Hs' eq_refl) as [-> | ->]; [done|].
                 assert (Hin : x ∈ new1) by by apply Hmem1.
                 apply list_elem_of_lookup_1 in Hin as [px Hpx]. exists px.
                 split; [|by apply lookup_app_l_Some].
                 apply lookup_lt_Some in Hpx. lia.
              ** right. rewrite (Forall2_step_nonzero _ _ _ _ Hstep1 Hs Hs0) in Hf0, Hf1.
                 by rewrite /finished Hs.
  - (* no search is started from [i] *)
    destruct (IH VS out Hks' Hlen Hz) as (VS2 & new2 & Hrun2 & Hcl2 & Hpost2).
    exists VS2, new2. split_and!; [| |done].
    + simpl. rewrite He /=. destruct e; [|done]. rewrite Hst /=.
      destruct (decide (st = 0%Z)); [naive_solver|done].
    + intros i' [->|Hi']%elem_of_cons Hd; [|by apply Hcl2].
      unfold dep in Hd. rewrite He in Hd. injection Hd as ->.
      destruct Hpost2 as (Hstep2 & _).
      assert (st ≠ 0%Z) by naive_solver.
      rewrite (Forall2_step_nonzero _ _ _ _ Hstep2 Hst); congruence.
Qed.

(** A search from an unvisited vertex returns, with fuel for every
    unvisited vertex. *)
Lemma DFS_spec f :
  ∀ v VS out, v < length M → length VS = length M → VS !! v = Some 0%Z →
    zeros VS ≤ f →
    ∃ VS' new, DFS f M v VS out = Some (VS', out ++ new) ∧ VS' !! v = Some 2%Z ∧
               DFS_post M v VS VS' new.
Proof using Hsq.
  induction f as [|f IH]; intros v VS out Hv Hlen Hst Hz.
  { pose proof (zeros_insert VS v Hst). lia. }
  destruct (DFS_for_spec (DFS f M) f v IH Hv (seq 0 (length VS)) (<[v:=1%Z]> VS) out)
    as (VS2 & new & Hrun & Hcl & Hpost).
  { intros i Hi%elem_of_seq. lia. }
  { by rewrite length_insert. }
  { pose proof (zeros_insert VS v Hst). lia. }
  destruct Hpost as (Hstep & Hnd & Hmem & Hreach & Htopo).
  assert (Hlen2 : length VS2 = length M).
  { by rewrite -(Forall2_length _ _ _ Hstep) length_insert. }
  assert (Hv1 : <[v:=1%Z]> VS !! v = Some 1%Z) by (apply list_lookup_insert_eq; lia).
  assert (Hne : ∀ i, i ≠ v → <[v:=1%Z]> VS !! i = VS !! i).
  { intros i Hi. by apply list_lookup_insert_ne. }
  assert (Hv2 : <[v:=2%Z]> VS2 !! v = Some 2%Z) by (apply list_lookup_insert_eq; lia).
  assert (Hne2 : ∀ i, i ≠ v → <[v:=2%Z]> VS2 !! i = VS2 !! i).
  { intros i Hi. by apply list_lookup_insert_ne. }
  assert (Hvnew : v ∉ new).
  { intros [Hv0 _]%Hmem. congruence. }
  exists (<[v:=2%Z]> VS2), (new ++ [v]). split_and!.
  - cbn [DFS]. rewrite decide_True; [|lia]. rewrite Hrun /=. by rewrite app_assoc.
  - done.
  - split_and!.
    + apply Forall2_same_length_lookup. split; [by rewrite length_insert Hlen2|].
      intros i a b Ha Hb. destruct (decide (i = v)) as [->|Hi].
      * rewrite Hv2 in Hb. rewrite Hst in Ha. simplify_eq. unfold step. naive_solver.
      * rewrite Hne2 // in Hb. rewrite -Hne // in Ha.
        destruct (Forall2_step_lookup _ _ _ _ Hstep Ha) as (b' & Hb' & Hs). congruence.
    + apply NoDup_app. split_and!; [done| |apply NoDup_singleton].
      intros x Hx ->%list_elem_of_singleton. done.
    + intros i. rewrite elem_of_app list_elem_of_singleton Hmem.
      destruct (decide (i = v)) as [->|Hi]; [naive_solver|].
      rewrite Hne // Hne2 //. naive_solver.
    + intros i [Hi| ->%list_elem_of_singleton]%elem_of_app; [by apply Hreach|done].
    + intros Hac Hstack pj j x Hpj Hd.
      assert (Hstack1 : ∀ a, <[v:=1%Z]> VS !! a = Some 1%Z → rtc (arc M) a v).
      { intros a Ha. destruct (decide (a = v)) as [->|Hav]; [done|].
        apply Hstack. by rewrite -Hne. }
      apply lookup_app_Some in Hpj as [Hpj|[Hge Hpj]].
      * destruct (Htopo Hac Hstack1 pj j x Hpj Hd) as [(px & Hpx & Hx)|[Hf0 Hf1]].
        -- left. exists px. split; [done|]. by apply lookup_app_l_Some.
        -- right. destruct (decide (x = v)) as [->|Hxv]; [done|].
           rewrite !Hne // in Hf0, Hf1.
      * apply list_lookup_singleton_Some in Hpj as [Hpj <-].
        destruct (dep_lt M Hsq _ _ Hd) as [Hx _].
        destruct (decide (x = v)) as [->|Hxv].
        { destruct (Hac v). by apply tc_once. }
        destruct (lookup_lt_is_Some_2 VS x) as [s Hs]; [lia|].
        destruct (decide (s = 0%Z)) as [->|Hs0].
        -- left. rewrite -Hne // in Hs.
           destruct (Forall2_step_lookup _ _ _ _ Hstep Hs) as (b & Hb & [_ Hs']).
           destruct (Hs' eq_refl) as [-> | ->].
           { destruct (Hcl x); [apply elem_of_seq; lia|done..]. }
           assert (Hin : x ∈ new) by by apply Hmem.
           apply list_elem_of_lookup_1 in Hin as [px Hpx]. exists px.
           split; [|by apply lookup_app_l_Some].
           apply lookup_lt_Some in Hpx. lia.
        -- destruct (decide (s = 1%Z)) as [->|Hs1].
           { destruct (Hac x). eapply tc_rtc_l; [by apply Hstack|]. by apply tc_once. }
           right. rewrite /finished Hs. split; congruence.
Qed.

Lemma zeros_le_length VS : zeros VS ≤ length VS.
Proof. unfold zeros. apply length_filter. Qed.

Lemma closed_rtc G v i : closed M G → v ∈ G → rtc (arc M) v i → i ∈ G.
Proof.
  intros Hcl Hv Hrtc. induction Hrtc as [|x y z Hxy _ IH]; [done|].
  apply IH. apply (Hcl x y Hv). by right.
Qed.

(** The searches started for one group [G] emit exactly its members, in
    postorder when the matrix is acyclic. *)
Lemma group_for_spec S G :
  closed M G → (∀ x, x ∈ G → x < length M ∧ x ∉ S) →
  ∀ g VS order,
    (∀ x, x ∈ g → x ∈ G) →
    marked (length M) (S ++ order) VS → NoDup order → (∀ x, x ∈ order → x ∈ G) →
    (acyclic M → postordered M order) →
    ∃ VS' order',
      group_for (length M) M g VS order = Some (VS', order') ∧
      marked (length M) (S ++ order') VS' ∧ NoDup order' ∧
      (∀ x, x ∈ order' → x ∈ G) ∧
      (acyclic M → postordered M order') ∧
      (∀ x, x ∈ order → x ∈ order') ∧ (∀ x, x ∈ g → x ∈ order').
Proof using Hsq.
  intros Hcl HG. induction g as [|v g IH]; intros VS order Hg Hmark Hnd Hsub Hpo.
  { exists VS, order. split_and!; try done. by intros x ?%elem_of_nil. }
  assert (HvG : v ∈ G) by (apply Hg; left).
  destruct (HG v HvG) as [Hv HvS].
  destruct Hmark as [Hlen Hmark].
  assert (Hg' : ∀ x, x ∈ g → x ∈ G) by (intros; apply Hg; by right).
  cbn [group_for]. rewrite (Hmark v Hv) /=.
  destruct (decide (v ∈ S ++ order)) as [Hin|Hnin].
  { simpl.
    destruct (IH VS order) as (VS' & order' & Hrun & ? & ? & ? & ? & Hmono & Hall);
      [done|by split|done..|].
    exists VS', order'. split_and!; try done.
    intros x [->|Hx]%elem_of_cons; [|by apply Hall].
    apply Hmono. set_solver. }
  simpl.
  destruct (DFS_spec (length M) v VS order Hv Hlen) as (VS1 & new & Hrun1 & Hv2 & Hpost).
  { rewrite (Hmark v Hv). by rewrite decide_False. }
  { rewrite -Hlen. apply zeros_le_length. }
  destruct Hpost as (Hstep & Hndn & Hmem & Hreach & Htopo).
  rewrite Hrun1 /=.
  assert (Hnew0 : ∀ x, x ∈ new → x < length M ∧ (x ∉ S ++ order) ∧ x ∈ G).
  { intros x Hx. pose proof (Hx' := Hx). apply Hmem in Hx as [Hx0 _].
    assert (x < length M) by (apply lookup_lt_Some in Hx0; lia).
    split_and!; [done| |by eapply closed_rtc, Hreach].
    intros Hin. rewrite Hmark // decide_True // in Hx0. }
  destruct (IH VS1 (order ++ new)) as (VS' & order' & Hrun & ? & ? & ? & ? & Hmono & Hall).
  - done.
  - split; [by rewrite -(Forall2_length _ _ _ Hstep)|].
    intros i Hi. specialize (Hmark i Hi).
    destruct (decide (i ∈ S ++ order)) as [Hio|Hio].
    + rewrite decide_True; [|set_solver].
      by apply (Forall2_step_nonzero _ _ _ _ Hstep Hmark).
    + destruct (Forall2_step_lookup _ _ _ _ Hstep Hmark) as (b & Hb & [_ Hs]).
      destruct (decide (i ∈ new)) as [Hin|Hin].
      * rewrite decide_True; [|set_solver]. by apply Hmem in Hin as [_ ?].
      * rewrite decide_False; [|set_solver].
        destruct (Hs eq_refl) as [-> | ->]; [done|]. destruct Hin. by apply Hmem.
  - apply NoDup_app. split_and!; [done| |done].
    intros x Hx Hx'. destruct (Hnew0 x Hx') as (_ & Hn & _). set_solver.
  - intros x [?|?]%elem_of_app; [by apply Hsub|by apply Hnew0].
  - intros Hac pj j i Hpj Hd.
    apply lookup_app_Some in Hpj as [Hpj|[Hge Hpj]].
    { destruct (Hpo Hac pj j i Hpj Hd) as (pi & ? & ?). exists pi.
      split; [done|]. by apply lookup_app_l_Some. }
    destruct (Htopo Hac) with (pj := pj - length order) (j := j) (i := i)
      as [(pi & Hpi & Hi)|[Hf0 Hf1]]; [|done|done| |].
    { intros a Ha. apply lookup_lt_Some in Ha as Hlt. rewrite Hmark in Ha; [|lia].
      by destruct (decide _). }
    + exists (length order + pi). split; [lia|]. rewrite lookup_app_r; [|lia].
      by replace (length order + pi - length order) with pi by lia.
    + destruct (dep_lt M Hsq _ _ Hd) as [Hi _].
      rewrite Hmark // in Hf0. destruct (decide (i ∈ S ++ order)) as [Hin|]; [|done].
      apply elem_of_app in Hin as [Hin|Hin].
      * exfalso. assert (Hj : j ∈ new) by by eapply list_elem_of_lookup_2.
        destruct (Hnew0 j Hj) as (_ & _ & HjG).
        destruct (HG i) as [_ HiS]; [|done].
        apply (Hcl j i HjG). by right.
      * apply list_elem_of_lookup_1 in Hin as [pi Hpi]. exists pi.
        split; [apply lookup_lt_Some in Hpi; lia|by apply lookup_app_l_Some].
  - exists VS', order'. split_and!; try done.
    + intros x Hx. apply Hmono. set_solver.
    + intros x [->|Hx]%elem_of_cons; [|by apply Hall].
      apply Hmono. apply elem_of_app. right. apply Hmem. split; [|done].
      rewrite Hmark // decide_False //.
Qed.

(** The search of the code is the search of the design document, for a
    group closed under adjacency. *)
Lemma DFS_visit G f :
  closed M G →
  ∀ v VS out VS' out',
    v ∈ G → DFS f M v VS out = Some (VS', out') → visit M G v VS out VS' out'.
Proof.
  intros Hcl. induction f as [|f IH]; intros v VS out VS' out' Hv Hrun; [done|].
  cbn [DFS] in Hrun. case_decide; [|done].
  destruct (DFS_for _ _ _ _ _ _) as [[VS2 out2]|] eqn:Hloop; simplify_eq/=.
  constructor. revert Hloop. generalize (<[v:=1%Z]> VS) as VS1.
  generalize (seq 0 (length VS)) as ks. clear H.
  intros ks. revert out. induction ks as [|i ks IHks]; intros out VS1 Hloop.
  { simplify_eq/=. constructor. }
  cbn [DFS_for] in Hloop.
  destruct (at2 M i v) as [e|] eqn:He; [|done]. simpl in Hloop.
  destruct e.
  - destruct (VS1 !! i) as [st|] eqn:Hst; [|done]. simpl in Hloop.
    assert (HiG : i ∈ G) by (apply (Hcl v i Hv); by right).
    destruct (decide (st = 0%Z)) as [->|Hne].
    + destruct (DFS f M i VS1 out) as [[VS3 out3]|] eqn:Hrec; [|done]. simpl in Hloop.
      eapply visit_preds_visit; [done..|by apply IH|by apply IHks].
    + simpl in Hloop. apply visit_preds_skip; [|by apply IHks].
      intros (_ & _ & ?). congruence.
  - simpl in Hloop. apply visit_preds_skip; [|by apply IHks].
    intros (Hd & _). unfold dep in Hd. congruence.
Qed.

Lemma group_for_visit G f :
  closed M G →
  ∀ g VS order VS' order',
    (∀ x, x ∈ g → x ∈ G) →
    group_for f M g VS order = Some (VS', order') →
    visit_group M G g VS order VS' order'.
Proof.
  intros Hcl. induction g as [|v g IH]; intros VS order VS' order' Hg Hrun.
  { simplify_eq/=. constructor. }
  cbn [group_for] in Hrun.
  destruct (VS !! v) as [st|] eqn:Hst; [|done]. simpl in Hrun.
  assert (Hg' : ∀ x, x ∈ g → x ∈ G) by (intros; apply Hg; by right).
  destruct (decide (st = 0%Z)) as [->|Hne].
  - destruct (DFS f M v VS order) as [[VS1 order1]|] eqn:Hrec; [|done]. simpl in Hrun.
    eapply visit_group_start; [done| |by apply IH].
    apply (DFS_visit G f Hcl); [apply Hg; by left|done].
  - simpl in Hrun. eapply visit_group_skip; [done..|by apply IH].
Qed.

Lemma drop_cons_lookup {A} (l : list A) a x l' :
  drop a l = x :: l' → l !! a = Some x ∧ drop (S a) l = l'.
Proof.
  intros Hd. split.
  - by rewrite -(Nat.add_0_r a) -lookup_drop Hd.
  - by rewrite -(Nat.add_1_r a) -drop_drop Hd.
Qed.

(** The sorting loop: every group contributes the reverse of a postorder of
    its members. *)
Lemma sort_for_spec MAX VG GP :
  ∀ gs ps a VS SORTED E,
    drop a VG = gs → drop a GP = ps → length ps = length gs →
    marked (length M) E VS →
    Forall (closed M) gs → NoDup (E ++ concat gs) →
    (∀ x, x ∈ concat gs → x < length M) →
    ∃ orders,
      sort_for MAX (length M) M (seq a (length gs)) VG GP VS SORTED
        = Some (multimap_from SORTED (entries MAX ps orders)) ∧
      Forall2 (λ g o, o ≡ₚ g ∧ (acyclic M → postordered M o)) gs orders ∧
      visit_groups M gs VS orders.
Proof using Hsq.
  induction gs as [|g gs IH]; intros ps a VS SORTED E Hgs Hps Hlen Hmark Hcl Hnd Hlt.
  { exists []. destruct ps; [|done]. split_and!; [done|constructor..]. }
  destruct ps as [|p ps]; [done|].
  apply drop_cons_lookup in Hgs as [Hg Hgs]. apply drop_cons_lookup in Hps as [Hp Hps].
  apply Forall_cons in Hcl as [Hclg Hcl].
  simpl in Hnd, Hlt.
  assert (HndS : NoDup E ∧ NoDup g ∧ NoDup (concat gs)).
  { apply NoDup_app in Hnd as (? & _ & Hnd). apply NoDup_app in Hnd as (? & _ & ?). done. }
  destruct HndS as (HndS & Hndg & Hndgs).
  destruct (group_for_spec E g Hclg) with (g := g) (VS := VS) (order := @nil nat)
    as (VS1 & o & Hrun & Hmark1 & Hndo & Hsub & Hpo & _ & Hall).
  { intros x Hx. split; [apply Hlt; set_solver|].
    intros HxS. apply NoDup_app in Hnd as (_ & Hd & _). apply (Hd x HxS). set_solver. }
  { done. }
  { by rewrite app_nil_r. }
  { constructor. }
  { by intros x ?%elem_of_nil. }
  { intros _ pj j i Hpj. by rewrite lookup_nil in Hpj. }
  assert (Hperm : o ≡ₚ g).
  { apply NoDup_Permutation; [done..|]. intros x. split; [apply Hsub|apply Hall]. }
  destruct (IH ps (S a) VS1 (multimap_insert (sort_key MAX p) (reverse o) SORTED) (E ++ o))
    as (orders & Hrun' & Hall' & Hvisit); [done|done|by simplify_eq/=|done|done| | |].
  { by rewrite -app_assoc Hperm. }
  { intros x Hx. apply Hlt. set_solver. }
  exists (o :: orders). split_and!; [|by constructor|].
  - cbn [length seq sort_for]. rewrite Hg /= Hrun /= Hp /=. by rewrite Hrun'.
  - econstructor; [|done]. by eapply group_for_visit.
Qed.

End Search.

(** *** The multimap *)

Section Multimap.

Context {V : Type}.
Implicit Types (m L : list (Z * V)).

Let key_le (x y : Z * V) : Prop := (x.1 ≤ y.1)%Z.

Lemma multimap_insert_perm k v m : multimap_insert k v m ≡ₚ (k, v) :: m.
Proof.
  induction m as [|kv m IH]; [done|]. simpl.
  destruct (decide (k < kv.1)%Z); [done|]. rewrite IH. apply Permutation_swap.
Qed.

Lemma multimap_from_perm m L : multimap_from m L ≡ₚ m ++ L.
Proof.
  revert m. induction L as [|[k v] L IH]; intros m; simpl.
  - by rewrite app_nil_r.
  - rewrite IH multimap_insert_perm. by rewrite -Permutation_middle.
Qed.

Lemma multimap_insert_split k v m :
  StronglySorted key_le m →
  ∃ m1 m2, m = m1 ++ m2 ∧ multimap_insert k v m = m1 ++ (k, v) :: m2 ∧
           Forall (λ kv, (kv.1 ≤ k)%Z) m1 ∧ Forall (λ kv, (k < kv.1)%Z) m2.
Proof.
  induction 1 as [|kv m Hs IH Hall]; simpl.
  { exists [], []. by split_and!. }
  destruct (decide (k < kv.1)%Z) as [Hlt|Hge].
  - exists [], (kv :: m). split_and!; [done..|].
    constructor; [done|]. eapply Forall_impl; [done|]. unfold key_le. simpl. lia.
  - destruct IH as (m1 & m2 & -> & -> & H1 & H2).
    exists (kv :: m1), m2. split_and!; [done..| |done].
    constructor; [lia|done].
Qed.

Lemma multimap_insert_sorted k v m :
  StronglySorted key_le m → StronglySorted key_le (multimap_insert k v m).
Proof.
  induction 1 as [|kv m Hs IH Hall]; simpl.
  { by repeat constructor. }
  destruct (decide (k < kv.1)%Z) as [Hlt|Hge].
  - constructor; [by constructor|]. constructor; [unfold key_le; simpl; lia|].
    eapply Forall_impl; [done|]. unfold key_le. simpl. lia.
  - constructor; [done|]. rewrite multimap_insert_perm.
    constructor; [unfold key_le; simpl; lia|done].
Qed.

Lemma multimap_from_sorted m L :
  StronglySorted key_le m → StronglySorted key_le (multimap_from m L).
Proof.
  revert m. induction L as [|[k v] L IH]; intros m Hm; [done|].
  simpl. by apply IH, multimap_insert_sorted.
Qed.

Lemma lookup_insert_middle {A} (l1 l2 : list A) e p x :
  (l1 ++ l2) !! p = Some x →
  (l1 ++ e :: l2) !! (if decide (p < length l1) then p else S p) = Some x.
Proof.
  intros Hp. destruct (decide (p < length l1)) as [Hlt|Hge].
  - rewrite lookup_app_l // in Hp. by rewrite lookup_app_l.
  - rewrite lookup_app_r in Hp; [|lia]. rewrite lookup_app_r; [|lia].
    by replace (S p - length l1) with (S (p - length l1)) by lia.
Qed.

(** Insertion sorts by key and keeps the insertion order of equal keys. *)
Lemma multimap_from_stable L a b ea eb :
  L !! a = Some ea → L !! b = Some eb →
  (ea.1 < eb.1 ∨ ea.1 = eb.1 ∧ (a < b)%nat)%Z →
  ∃ pa pb, multimap_from [] L !! pa = Some ea ∧ multimap_from [] L !! pb = Some eb ∧
           pa < pb.
Proof.
  revert a b ea eb. induction L as [|[k v] L IH] using rev_ind; intros a b ea eb Ha Hb Hord.
  { by rewrite lookup_nil in Ha. }
  unfold multimap_from in *. rewrite foldl_snoc /=.
  set (m := foldl (λ m kv, multimap_insert kv.1 kv.2 m) [] L) in *.
  assert (Hsorted : StronglySorted key_le m).
  { apply (multimap_from_sorted [] L). constructor. }
  assert (Hperm : m ≡ₚ L) by apply (multimap_from_perm [] L).
  destruct (multimap_insert_split k v m Hsorted) as (m1 & m2 & Hm & -> & H1 & H2).
  assert (Hold : ∀ c ec, c < length L → (L ++ [(k, v)]) !! c = Some ec →
            ec ∈ L ∧ L !! c = Some ec).
  { intros c ec Hc Hec. rewrite lookup_app_l // in Hec. split; [|done].
    by eapply list_elem_of_lookup_2. }
  assert (Hnew : ∀ ec, (L ++ [(k, v)]) !! length L = Some ec → ec = (k, v)).
  { intros ec Hec. rewrite lookup_app_r // Nat.sub_diag /= in Hec. congruence. }
  assert (Ha' := lookup_lt_Some _ _ _ Ha). assert (Hb' := lookup_lt_Some _ _ _ Hb).
  rewrite length_app /= in Ha', Hb'.
  destruct (decide (a < length L)) as [Hal|Hal], (decide (b < length L)) as [Hbl|Hbl].
  - destruct (Hold a ea Hal Ha) as [_ Ha2]. destruct (Hold b eb Hbl Hb) as [_ Hb2].
    destruct (IH a b ea eb Ha2 Hb2 Hord) as (pa & pb & Hpa & Hpb & Hlt).
    rewrite Hm in Hpa, Hpb.
    apply (lookup_insert_middle m1 m2 (k, v)) in Hpa, Hpb.
    eexists _, _. split_and!; [done..|].
    repeat case_decide; lia.
  - assert (b = length L) as -> by lia. apply Hnew in Hb as ->.
    destruct (Hold a ea Hal Ha) as [Hin _]. rewrite -Hperm Hm in Hin.
    apply elem_of_app in Hin as [Hin|Hin].
    + apply list_elem_of_lookup_1 in Hin as [pa Hpa].
      exists pa, (length m1). split_and!.
      * by apply lookup_app_l_Some.
      * by rewrite lookup_app_r // Nat.sub_diag.
      * by eapply lookup_lt_Some.
    + rewrite Forall_forall in H2. specialize (H2 ea Hin). simpl in *. lia.
  - assert (a = length L) as -> by lia. apply Hnew in Ha as ->.
    destruct (Hold b eb Hbl Hb) as [Hin _]. rewrite -Hperm Hm in Hin.
    apply elem_of_app in Hin as [Hin|Hin].
    + rewrite Forall_forall in H1. specialize (H1 eb Hin). simpl in *. lia.
    + apply list_elem_of_lookup_1 in Hin as [pb Hpb].
      exists (length m1), (S (length m1 + pb)). split_and!.
      * by rewrite lookup_app_r // Nat.sub_diag.
      * rewrite lookup_app_r; [|lia].
        by replace (S (length m1 + pb) - length m1) with (S pb) by lia.
      * lia.
  - assert (a = length L) as -> by lia. assert (b = length L) as -> by lia.
    apply Hnew in Ha as ->. apply Hnew in Hb as ->. simpl in *. lia.
Qed.

End Multimap.

(** *** Positions in a concatenation *)

Lemma concat_lookup_block {A} (ls : list (list A)) p l q x :
  ls !! p = Some l → l !! q = Some x →
  concat ls !! (length (concat (take p ls)) + q) = Some x.
Proof.
  intros Hp Hq.
  assert (Hc : concat ls = concat (take p ls) ++ l ++ concat (drop (S p) ls)).
  { by rewrite -concat_cons -concat_app take_drop_middle. }
  rewrite {1}Hc. rewrite lookup_app_r; [|lia].
  replace (length (concat (take p ls)) + q - length (concat (take p ls))) with q by lia.
  by apply lookup_app_l_Some.
Qed.

Lemma concat_offset_lt {A} (ls : list (list A)) p1 p2 l1 :
  p1 < p2 → ls !! p1 = Some l1 →
  length (concat (take p1 ls)) + length l1 ≤ length (concat (take p2 ls)).
Proof.
  intros Hlt Hp1.
  assert (Hp : take p2 ls !! p1 = Some l1) by by rewrite lookup_take_lt.
  assert (Hc : take p2 ls = take p1 ls ++ l1 :: drop (S p1) (take p2 ls)).
  { rewrite -{1}(take_drop_middle _ _ _ Hp) take_take.
    by replace (p1 `min` p2) with p1 by lia. }
  rewrite Hc concat_app /= !length_app. lia.
Qed.

Lemma before_concat_blocks {A} (ls : list (list A)) p1 p2 l1 l2 x y :
  ls !! p1 = Some l1 → ls !! p2 = Some l2 → p1 < p2 → x ∈ l1 → y ∈ l2 →
  before (concat ls) x y.
Proof.
  intros H1 H2 Hlt [q1 Hx]%list_elem_of_lookup_1 [q2 Hy]%list_elem_of_lookup_1.
  exists (length (concat (take p1 ls)) + q1), (length (concat (take p2 ls)) + q2).
  split_and!; [by eapply concat_lookup_block..|].
  pose proof (concat_offset_lt ls p1 p2 l1 Hlt H1).
  apply lookup_lt_Some in Hx. lia.
Qed.

Lemma before_concat_block {A} (ls : list (list A)) p l x y :
  ls !! p = Some l → before l x y → before (concat ls) x y.
Proof.
  intros Hp (q1 & q2 & Hx & Hy & Hlt).
  exists (length (concat (take p ls)) + q1), (length (concat (take p ls)) + q2).
  split_and!; [by eapply concat_lookup_block..|lia].
Qed.

Lemma concat_Permutation {A} (ls ls' : list (list A)) :
  ls ≡ₚ ls' → concat ls ≡ₚ concat ls'.
Proof.
  induction 1 as [|l ls ls' _ IH|l1 l2 ls|ls1 ls2 ls3 _ IH1 _ IH2]; simpl.
  - done.
  - by rewrite IH.
  - rewrite !app_assoc. f_equiv. apply Permutation_app_comm.
  - by rewrite IH1.
Qed.

Lemma concat_Forall2_Permutation {A} (ls ls' : list (list A)) :
  Forall2 (≡ₚ) ls ls' → concat ls ≡ₚ concat ls'.
Proof. induction 1 as [|l l' ls ls' Hl _ IH]; simpl; [done|]. by rewrite Hl IH. Qed.

(** *** The whole computation *)

Lemma entries_snd MAX (ps : list Z) (orders : list (list nat)) :
  length ps = length orders → (entries MAX ps orders).*2 = reverse <$> orders.
Proof.
  revert orders. induction ps as [|p ps IH]; intros [|o orders] Hlen; simplify_eq/=; [done|].
  f_equal. by apply IH.
Qed.

Lemma entries_lookup MAX (ps : list Z) (orders : list (list nat)) a p o :
  ps !! a = Some p → orders !! a = Some o →
  entries MAX ps orders !! a = Some (sort_key MAX p, reverse o).
Proof. intros Hp Ho. unfold entries. by rewrite lookup_zip_with Hp /= Ho. Qed.

Lemma mapM_Some_omap {A B} (f : A → option B) l k : mapM f l = Some k → omap f l = k.
Proof.
  intros H%mapM_Some_1. induction H as [|x y l k Hxy _ IH]; [done|].
  cbn. rewrite Hxy. f_equal. exact IH.
Qed.

Lemma before_Forall2 {A B} (R : A → B → Prop) l k x y px py :
  (∀ a b b', R a b → R a b' → b = b') →
  Forall2 R l k → R x px → R y py → before l x y → before k px py.
Proof.
  intros Hfun HR Hx Hy (qx & qy & Hqx & Hqy & Hlt).
  destruct (Forall2_lookup_l _ _ _ _ _ HR Hqx) as (bx & Hbx & HRx).
  destruct (Forall2_lookup_l _ _ _ _ _ HR Hqy) as (by' & Hby & HRy).
  exists qx, qy. rewrite Hbx Hby (Hfun _ _ _ Hx HRx) (Hfun _ _ _ Hy HRy). done.
Qed.

Lemma before_reverse {A} (l : list A) x y : before l x y → before (reverse l) y x.
Proof.
  intros (qx & qy & Hx & Hy & Hlt).
  assert (Hly := lookup_lt_Some _ _ _ Hy).
  exists (length l - S qy), (length l - S qx). split_and!; [| |lia].
  - rewrite reverse_lookup; [|lia]. by replace (length l - S (length l - S qy)) with qy by lia.
  - rewrite reverse_lookup; [|lia]. by replace (length l - S (length l - S qx)) with qx by lia.
Qed.

(** The computation returns on every square matrix whose indices all have a
    registered system; its result is described by the groups [VG] of the
    partition, their priorities [GP] and a postorder [orders] per group. *)
Lemma UpdateSystemWorkOrder_spec MAX LOWEST this :
  square (m_SystemDependencyMatrix this) → registered this →
  ∃ VG GP orders ids this',
    vertex_groups LOWEST this = Some (VG, GP) ∧
    concat VG ≡ₚ seq 0 (length (m_SystemDependencyMatrix this)) ∧
    Forall (closed (m_SystemDependencyMatrix this)) VG ∧
    Forall (λ g, g ≠ []) VG ∧
    Forall2 (group_priority LOWEST this) VG GP ∧
    Forall2 (λ g o, o ≡ₚ g ∧ (acyclic (m_SystemDependencyMatrix this) →
                               postordered (m_SystemDependencyMatrix this) o)) VG orders ∧
    visit_groups (m_SystemDependencyMatrix this) VG
      (replicate (length (m_SystemDependencyMatrix this)) 0%Z) orders ∧
    ids = concat (multimap_from [] (entries MAX GP orders)).*2 ∧
    ids ≡ₚ seq 0 (length (m_SystemDependencyMatrix this)) ∧
    work_order_ids MAX LOWEST this = Some ids ∧
    UpdateSystemWorkOrder MAX LOWEST this = Some this' ∧
    Forall2 (λ m p, m_Systems this !! m = Some p) ids (m_SystemWorkOrder this') ∧
    objects this' = objects this ∧ m_Systems this' = m_Systems this ∧
    m_SystemDependencyMatrix this' = m_SystemDependencyMatrix this.
Proof.
  intros Hsq Hreg.
  destruct (vertex_groups_spec LOWEST this Hsq Hreg) as (VG & GP & Hvg & Hperm & Hcl & Hne & Hprio).
  destruct (sort_for_spec (m_SystemDependencyMatrix this) Hsq MAX VG GP VG GP 0
              (replicate (length (m_SystemDependencyMatrix this)) 0%Z) [] [])
    as (orders & Hsort & Horders & Hvisit); [done|done| | |done| | |].
  { symmetry. by eapply Forall2_length. }
  { split; [by rewrite length_replicate|]. intros i Hi.
    rewrite lookup_replicate_2 //. }
  { rewrite app_nil_l Hperm. apply NoDup_seq. }
  { intros x. rewrite Hperm elem_of_seq. lia. }
  set (ids := concat (multimap_from [] (entries MAX GP orders)).*2).
  assert (Hids : ids ≡ₚ seq 0 (length (m_SystemDependencyMatrix this))).
  { unfold ids. rewrite -Hperm.
    etrans; [apply concat_Permutation, fmap_Permutation, multimap_from_perm|].
    rewrite app_nil_l entries_snd.
    2:{ rewrite -(Forall2_length _ _ _ Horders). symmetry. by eapply Forall2_length. }
    apply concat_Forall2_Permutation, Forall2_fmap_l, Forall2_flip.
    eapply Forall2_impl; [done|]. intros g o [Ho _]. simpl. by rewrite reverse_Permutation. }
  assert (Hwo : work_order_ids MAX LOWEST this = Some ids).
  { unfold work_order_ids. rewrite Hvg /=. by rewrite Hsort. }
  destruct (mapM_is_Some_2 (λ m, m_Systems this !! m) ids) as [wo Hmap].
  { apply Forall_forall. intros m Hm. rewrite Hids in Hm. apply elem_of_seq in Hm.
    destruct (Hreg m) as (p & _ & Hp & _); [lia|]. simpl. by rewrite Hp. }
  exists VG, GP, orders, ids,
    {| objects := objects this; m_Systems := m_Systems this;
       m_SystemDependencyMatrix := m_SystemDependencyMatrix this;
       m_SystemWorkOrder := wo |}.
  split_and!; try done.
  - unfold UpdateSystemWorkOrder. rewrite Hwo /= Hmap /=. done.
  - simpl. by apply mapM_Some_1.
Qed.

(** *** Properties of the work order *)

Lemma acyclic_by_rank M (rank : nat → nat) :
  (∀ i j, dep M i j → rank j < rank i) → acyclic M.
Proof.
  intros Hrank i Hi.
  assert (Hlt : ∀ x y, tc (arc M) x y → rank x < rank y).
  { induction 1 as [x y Hxy|x y z Hxy _ IH].
    - by apply Hrank.
    - specialize (Hrank _ _ Hxy). lia. }
  specialize (Hlt i i Hi). lia.
Qed.

Lemma square_example_ABCD : square (m_SystemDependencyMatrix example_ABCD).
Proof. repeat constructor. Qed.

Lemma registered_example_ABCD : registered example_ABCD.
Proof.
  intros i Hi. simpl in Hi.
  destruct i as [|[|[|[|i]]]]; [by eexists _, _; split; vm_compute; reflexivity..|lia].
Qed.

Lemma acyclic_example_ABCD : acyclic (m_SystemDependencyMatrix example_ABCD).
Proof.
  apply (acyclic_by_rank _ (λ i, if decide (i = 1) then 0 else 1)).
  intros i j Hd. destruct (dep_lt _ square_example_ABCD _ _ Hd) as [Hi Hj].
  simpl in Hi, Hj.
  destruct i as [|[|[|[|i]]]], j as [|[|[|[|j]]]]; try lia; by vm_compute in Hd |- *.
Qed.

Lemma square_example_cycle : square (m_SystemDependencyMatrix example_cycle).
Proof. repeat constructor. Qed.

Lemma registered_example_cycle : registered example_cycle.
Proof.
  intros i Hi. simpl in Hi.
  destruct i as [|[|[|i]]]; [by eexists _, _; split; vm_compute; reflexivity..|lia].
Qed.

(** C10. On every square dependency matrix over registered systems, cyclic or
    not, [UpdateSystemWorkOrder] returns and the work order it leaves has as
    many entries as the matrix has rows and is a permutation of the
    registered systems: it lists the pointers of a permutation [ids] of the
    type ids [0 .. n-1]. *)
Theorem work_order_permutation MAX LOWEST this :
  square (m_SystemDependencyMatrix this) → registered this →
  ∃ this' ids,
    UpdateSystemWorkOrder MAX LOWEST this = Some this' ∧
    length (m_SystemWorkOrder this') = length (m_SystemDependencyMatrix this) ∧
    ids ≡ₚ seq 0 (length (m_SystemDependencyMatrix this)) ∧
    Forall2 (λ m p, m_Systems this !! m = Some p) ids (m_SystemWorkOrder this') ∧
    m_SystemWorkOrder this' ≡ₚ registered_systems this.
Proof.
  intros Hsq Hreg.
  destruct (UpdateSystemWorkOrder_spec MAX LOWEST this Hsq Hreg)
    as (VG & GP & orders & ids & this' & _ & _ & _ & _ & _ & _ & _ & _ & Hids & _ & Hrun & Hwo & _).
  exists this', ids. split_and!; [done| |done|done|].
  - rewrite -(Forall2_length _ _ _ Hwo) Hids. apply length_seq.
  - apply mapM_Some_2, mapM_Some_omap in Hwo. rewrite -Hwo.
    unfold registered_systems. by rewrite Hids.
Qed.

Lemma work_order_permutation_witness :
  square (m_SystemDependencyMatrix example_cycle) ∧ registered example_cycle ∧
  ∃ this' ids,
    UpdateSystemWorkOrder 65535 0 example_cycle = Some this' ∧
    length (m_SystemWorkOrder this') = 3 ∧
    ids ≡ₚ seq 0 3 ∧
    Forall2 (λ m p, m_Systems example_cycle !! m = Some p) ids (m_SystemWorkOrder this') ∧
    m_SystemWorkOrder this' ≡ₚ registered_systems example_cycle.
Proof.
  split; [exact square_example_cycle|]. split; [exact registered_example_cycle|].
  exact (work_order_permutation 65535 0 example_cycle
           square_example_cycle registered_example_cycle).
Defined.

(** C1. On an acyclic dependency matrix, after [UpdateSystemWorkOrder]
    whenever [M[i][j]] is set (system [i] runs after system [j]) system [j]
    stands before system [i] in the work order. *)
Theorem dependency_precedes_dependent MAX LOWEST this :
  square (m_SystemDependencyMatrix this) → registered this →
  acyclic (m_SystemDependencyMatrix this) →
  ∃ this' ids,
    UpdateSystemWorkOrder MAX LOWEST this = Some this' ∧
    ids ≡ₚ seq 0 (length (m_SystemDependencyMatrix this)) ∧
    Forall2 (λ m p, m_Systems this !! m = Some p) ids (m_SystemWorkOrder this') ∧
    (∀ i j, dep (m_SystemDependencyMatrix this) i j → before ids j i) ∧
    (∀ i j pi pj,
       dep (m_SystemDependencyMatrix this) i j →
       m_Systems this !! i = Some pi → m_Systems this !! j = Some pj →
       before (m_SystemWorkOrder this') pj pi).
Proof.
  intros Hsq Hreg Hac.
  destruct (UpdateSystemWorkOrder_spec MAX LOWEST this Hsq Hreg)
    as (VG & GP & orders & ids & this' & _ & Hperm & Hcl & _ & Hprio & Horders & _ & Hids
        & Hidsp & _ & Hrun & Hwo & _).
  assert (Hbefore : ∀ i j, dep (m_SystemDependencyMatrix this) i j → before ids j i);
    last first.
  { exists this', ids. split_and!; [done..|]. intros i j pi pj Hd Hpi Hpj.
    eapply (before_Forall2 _ ids); [|done|exact Hpj|exact Hpi|by apply Hbefore].
    congruence. }
  intros i j Hd.
  destruct (dep_lt _ Hsq _ _ Hd) as [Hi Hj].
  (* the group of [j], which holds [i] as well *)
  assert (Hjin : j ∈ concat VG) by (rewrite Hperm; apply elem_of_seq; lia).
  apply elem_of_concat in Hjin as (g & Hjg & [k Hk]%list_elem_of_lookup_1).
  assert (Hig : i ∈ g).
  { rewrite Forall_forall in Hcl. apply (Hcl g (list_elem_of_lookup_2 _ _ _ Hk) j i Hjg).
    by right. }
  destruct (Forall2_lookup_l _ _ _ _ _ Horders Hk) as (o & Ho & Hog & Hpo).
  destruct (Forall2_lookup_l _ _ _ _ _ Hprio Hk) as (p & Hp & _).
  (* inside the postorder [i] comes first, so [j] comes first in its reverse *)
  assert (Hb : before (reverse o) j i).
  { apply before_reverse. rewrite -Hog in Hjg.
    apply list_elem_of_lookup_1 in Hjg as [qj Hqj].
    destruct (Hpo Hac qj j i Hqj Hd) as (qi & Hlt & Hqi). by exists qi, qj. }
  (* the reversed postorder is one block of the work order *)
  pose proof (entries_lookup MAX GP orders k p o Hp Ho) as He.
  apply list_elem_of_lookup_2 in He.
  change (entries MAX GP orders) with ([] ++ entries MAX GP orders) in He.
  rewrite -(multimap_from_perm [] (entries MAX GP orders)) in He.
  apply list_elem_of_lookup_1 in He as [q Hq].
  rewrite Hids. eapply (before_concat_block _ q); [|done].
  by rewrite list_lookup_fmap Hq.
Qed.

Lemma dependency_precedes_dependent_witness :
  square (m_SystemDependencyMatrix example_ABCD) ∧ registered example_ABCD ∧
  acyclic (m_SystemDependencyMatrix example_ABCD) ∧
  ∃ this' ids,
    UpdateSystemWorkOrder 65535 0 example_ABCD = Some this' ∧
    ids ≡ₚ seq 0 4 ∧
    Forall2 (λ m p, m_Systems example_ABCD !! m = Some p) ids (m_SystemWorkOrder this') ∧
    (∀ i j, dep (m_SystemDependencyMatrix example_ABCD) i j → before ids j i) ∧
    (∀ i j pi pj,
       dep (m_SystemDependencyMatrix example_ABCD) i j →
       m_Systems example_ABCD !! i = Some pi → m_Systems example_ABCD !! j = Some pj →
       before (m_SystemWorkOrder this') pj pi).
Proof.
  split; [exact square_example_ABCD|]. split; [exact registered_example_ABCD|].
  split; [exact acyclic_example_ABCD|].
  exact (dependency_precedes_dependent 65535 0 example_ABCD
           square_example_ABCD registered_example_ABCD acyclic_example_ABCD).
Defined.

Lemma sort_key_small MAX p : (0 ≤ p ≤ MAX)%Z → sort_key MAX p = (MAX - p)%Z.
Proof. intros Hp. unfold sort_key. apply Z.mod_small. lia. Qed.

(** C2. The groups found by the partition carry the largest priority of
    their members, and the work order lists the groups by descending group
    priority: every system of a group stands before every system of a group
    of strictly lower priority, and of two groups of equal priority the one
    the partition discovered first comes first. *)
Theorem groups_by_descending_priority MAX LOWEST this :
  square (m_SystemDependencyMatrix this) → registered this →
  priorities_ok MAX LOWEST this →
  ∃ VG GP this' ids,
    vertex_groups LOWEST this = Some (VG, GP) ∧
    UpdateSystemWorkOrder MAX LOWEST this = Some this' ∧
    concat VG ≡ₚ seq 0 (length (m_SystemDependencyMatrix this)) ∧
    Forall2 (max_priority this) VG GP ∧
    ids ≡ₚ seq 0 (length (m_SystemDependencyMatrix this)) ∧
    Forall2 (λ m p, m_Systems this !! m = Some p) ids (m_SystemWorkOrder this') ∧
    ∀ a b ga gb pa pb x y,
      VG !! a = Some ga → VG !! b = Some gb →
      GP !! a = Some pa → GP !! b = Some pb →
      x ∈ ga → y ∈ gb →
      (pb < pa ∨ pa = pb ∧ (a < b)%nat)%Z →
      before ids x y ∧
      ∀ px py, m_Systems this !! x = Some px → m_Systems this !! y = Some py →
               before (m_SystemWorkOrder this') px py.
Proof.
  intros Hsq Hreg [Hlow Hrange].
  destruct (UpdateSystemWorkOrder_spec MAX LOWEST this Hsq Hreg)
    as (VG & GP & orders & ids & this' & Hvg & Hperm & Hcl & Hne & Hprio & Horders & _ & Hids
        & Hidsp & _ & Hrun & Hwo & _).
  assert (Hmax : Forall2 (max_priority this) VG GP).
  { apply Forall2_same_length_lookup. split; [by eapply Forall2_length|].
    intros k g p Hg Hp.
    destruct (Forall2_lookup_l _ _ _ _ _ Hprio Hg) as (p' & Hp' & Hlo & Hall & Hex).
    assert (p' = p) as -> by congruence.
    split; [done|]. destruct Hex as [->|Hex]; [|done].
    rewrite Forall_forall in Hne. specialize (Hne g (list_elem_of_lookup_2 _ _ _ Hg)).
    destruct g as [|m g]; [done|]. exists m. split; [by left|].
    destruct (Hall m) as (q & Hq & Hqp); [by left|].
    destruct (Hrange m q Hq) as [Hq1 _]. rewrite Hq. f_equal. lia. }
  assert (Hin : ∀ k p, GP !! k = Some p → (0 ≤ p ≤ MAX)%Z).
  { intros k p Hp.
    destruct (Forall2_lookup_r _ _ _ _ _ Hmax Hp) as (g & Hg & _ & m & Hm & Hmp).
    specialize (Hrange m p Hmp). lia. }
  exists VG, GP, this', ids. split_and!; [done..|].
  intros a b ga gb pa pb x y Hga Hgb Hpa Hpb Hx Hy Hord.
  assert (Hbefore : before ids x y); last first.
  { split; [done|]. intros px py Hpx Hpy.
    eapply (before_Forall2 _ ids); [|done|exact Hpx|exact Hpy|done]. congruence. }
  destruct (Forall2_lookup_l _ _ _ _ _ Horders Hga) as (oa & Hoa & Hoga & _).
  destruct (Forall2_lookup_l _ _ _ _ _ Horders Hgb) as (ob & Hob & Hogb & _).
  pose proof (entries_lookup MAX GP orders a pa oa Hpa Hoa) as Hea.
  pose proof (entries_lookup MAX GP orders b pb ob Hpb Hob) as Heb.
  destruct (multimap_from_stable _ _ _ _ _ Hea Heb) as (qa & qb & Hqa & Hqb & Hlt).
  { simpl. rewrite (sort_key_small MAX pa); [|by eapply Hin].
    rewrite (sort_key_small MAX pb); [|by eapply Hin]. lia. }
  rewrite Hids.
  eapply (before_concat_blocks _ qa qb (reverse oa) (reverse ob)); [| |done| |].
  - by rewrite list_lookup_fmap Hqa.
  - by rewrite list_lookup_fmap Hqb.
  - by rewrite elem_of_reverse Hoga.
  - by rewrite elem_of_reverse Hogb.
Qed.

Lemma priorities_ok_example_ABCD : priorities_ok 65535 0 example_ABCD.
Proof.
  split; [done|]. intros i q Hq. unfold priority_of, system_at in Hq.
  destruct (m_Systems example_ABCD !! i) as [p|] eqn:Hp; [|done].
  apply elem_of_map_to_list in Hp.
  let l := eval vm_compute in (map_to_list (m_Systems example_ABCD)) in
  change (map_to_list (m_Systems example_ABCD)) with l in Hp.
  set_unfold in Hp.
  destruct_or! Hp; simplify_eq; vm_compute in Hq; simplify_eq; lia.
Qed.

Lemma groups_by_descending_priority_witness :
  square (m_SystemDependencyMatrix example_ABCD) ∧ registered example_ABCD ∧
  priorities_ok 65535 0 example_ABCD ∧
  ∃ VG GP this' ids,
    vertex_groups 0 example_ABCD = Some (VG, GP) ∧
    UpdateSystemWorkOrder 65535 0 example_ABCD = Some this' ∧
    concat VG ≡ₚ seq 0 4 ∧
    Forall2 (max_priority example_ABCD) VG GP ∧
    ids ≡ₚ seq 0 4 ∧
    Forall2 (λ m p, m_Systems example_ABCD !! m = Some p) ids (m_SystemWorkOrder this') ∧
    ∀ a b ga gb pa pb x y,
      VG !! a = Some ga → VG !! b = Some gb →
      GP !! a = Some pa → GP !! b = Some pb →
      x ∈ ga → y ∈ gb →
      (pb < pa ∨ pa = pb ∧ (a < b)%nat)%Z →
      before ids x y ∧
      ∀ px py, m_Systems example_ABCD !! x = Some px → m_Systems example_ABCD !! y = Some py →
               before (m_SystemWorkOrder this') px py.
Proof.
  split; [exact square_example_ABCD|]. split; [exact registered_example_ABCD|].
  split; [exact priorities_ok_example_ABCD|].
  exact (groups_by_descending_priority 65535 0 example_ABCD
           square_example_ABCD registered_example_ABCD priorities_ok_example_ABCD).
Defined.

(** *** Repeated scheduling *)

Lemma member_while_ext f this this' :
  m_SystemDependencyMatrix this' = m_SystemDependencyMatrix this →
  (∀ i, priority_of this' i = priority_of this i) →
  ∀ INDICES member group p,
    member_while f this' INDICES member group p
    = member_while f this INDICES member group p.
Proof.
  intros HM Hprio. induction f as [|f IH]; intros INDICES member group p; simpl;
    destruct (pop_back member) as [[member' index]|]; try done.
  rewrite HM. destruct (member_for _ _ _ _ _) as [r|]; [simpl|done].
  specialize (Hprio index). unfold priority_of in Hprio.
  destruct (system_at this' index) as [sys'|], (system_at this index) as [sys|];
    simplify_eq/=; [|done]. by rewrite Hprio IH.
Qed.

Lemma groups_while_ext LOWEST f this this' :
  m_SystemDependencyMatrix this' = m_SystemDependencyMatrix this →
  (∀ i, priority_of this' i = priority_of this i) →
  ∀ INDICES VG GP,
    groups_while LOWEST f this' INDICES VG GP = groups_while LOWEST f this INDICES VG GP.
Proof.
  intros HM Hprio. induction f as [|f IH]; intros INDICES VG GP; cbn [groups_while];
    destruct (pop_back INDICES) as [[I index]|]; try done.
  destruct (decide (index = (-1)%Z)); [by rewrite IH|].
  rewrite (member_while_ext _ this this') //.
  destruct (member_while _ _ _ _ _ _) as [r|]; [simpl|done]. by rewrite IH.
Qed.

(** The order of the type ids is a function of the matrix and of the
    priorities of the registered systems alone. *)
Lemma work_order_ids_ext MAX LOWEST this this' :
  m_SystemDependencyMatrix this' = m_SystemDependencyMatrix this →
  (∀ i, priority_of this' i = priority_of this i) →
  work_order_ids MAX LOWEST this' = work_order_ids MAX LOWEST this.
Proof.
  intros HM Hprio. unfold work_order_ids, vertex_groups.
  by rewrite HM (groups_while_ext _ _ this this').
Qed.

(** C8. Scheduling is deterministic: a second run of
    [UpdateSystemWorkOrder], with no registration or matrix change in
    between, returns and leaves the same work order, entry by entry. *)
Theorem UpdateSystemWorkOrder_twice MAX LOWEST this :
  square (m_SystemDependencyMatrix this) → registered this →
  ∃ this1 this2,
    UpdateSystemWorkOrder MAX LOWEST this = Some this1 ∧
    UpdateSystemWorkOrder MAX LOWEST this1 = Some this2 ∧
    m_SystemWorkOrder this2 = m_SystemWorkOrder this1.
Proof.
  intros Hsq Hreg.
  destruct (UpdateSystemWorkOrder_spec MAX LOWEST this Hsq Hreg)
    as (_ & _ & _ & ids & this1 & _ & _ & _ & _ & _ & _ & _ & _ & _ & Hids & Hrun & Hwo
        & Hobj & Hsys & HM).
  exists this1,
    {| objects := objects this1; m_Systems := m_Systems this1;
       m_SystemDependencyMatrix := m_SystemDependencyMatrix this1;
       m_SystemWorkOrder := m_SystemWorkOrder this1 |}.
  split_and!; [done| |done].
  unfold UpdateSystemWorkOrder.
  rewrite (work_order_ids_ext MAX LOWEST this this1);
    [|done|intros i; unfold priority_of, system_at; by rewrite Hsys Hobj].
  rewrite Hids /= Hsys. apply mapM_Some_2 in Hwo. by rewrite Hwo.
Qed.

Lemma UpdateSystemWorkOrder_twice_witness :
  square (m_SystemDependencyMatrix example_ABCD) ∧ registered example_ABCD ∧
  ∃ this1 this2,
    UpdateSystemWorkOrder 65535 0 example_ABCD = Some this1 ∧
    UpdateSystemWorkOrder 65535 0 this1 = Some this2 ∧
    m_SystemWorkOrder this2 = m_SystemWorkOrder this1.
Proof.
  split; [exact square_example_ABCD|]. split; [exact registered_example_ABCD|].
  exact (UpdateSystemWorkOrder_twice 65535 0 example_ABCD
           square_example_ABCD registered_example_ABCD).
Defined.

(** *** Work-state masks *)

Lemma SetActive_IsActive sys : SetActive (IsActive sys) sys = sys.
Proof. by destruct sys. Qed.

Lemma SetSystemWorkState_for_id (order : list Z) mask ks (objs : gmap Z ISystem) :
  Forall2 (λ p b, IsActive <$> objs !! p = Some b) order mask →
  (∀ i, i ∈ ks → i < length order) →
  SetSystemWorkState_for order mask ks objs = Some objs.
Proof.
  intros Hmask. induction ks as [|i ks IH]; intros Hks; [done|].
  destruct (lookup_lt_is_Some_2 order i) as [p Hp]; [apply Hks; by left|].
  destruct (Forall2_lookup_l _ _ _ _ _ Hmask Hp) as (b & Hb & Hact).
  destruct (objs !! p) as [sys|] eqn:Hsys; [|done]. simpl in Hact. simplify_eq.
  cbn [SetSystemWorkState_for]. rewrite Hp /= Hb /= Hsys /=.
  rewrite SetActive_IsActive insert_id //. apply IH. intros j Hj. apply Hks. by right.
Qed.

(** C7. Whatever the work order and the active flags of its systems: the
    mask returned by [GetSystemWorkState], given back to
    [SetSystemWorkState], is accepted and leaves every system object, hence
    every active flag, as it was. *)
Theorem SetSystemWorkState_GetSystemWorkState this :
  work_order_valid this →
  ∃ mask this',
    GetSystemWorkState this = Some mask ∧
    SetSystemWorkState mask this = Some this' ∧
    (∀ p, IsActive <$> objects this' !! p = IsActive <$> objects this !! p) ∧
    this' = this.
Proof.
  intros Hvalid.
  destruct (mapM_is_Some_2 (λ p, IsActive <$> objects this !! p) (m_SystemWorkOrder this))
    as [mask Hget].
  { apply Forall_forall. intros p Hp. destruct (Hvalid p Hp) as [sys Hsys].
    simpl. by rewrite Hsys. }
  exists mask, this. split_and!; [done| |done..].
  apply mapM_Some_1 in Hget. unfold SetSystemWorkState.
  rewrite decide_True; [|by rewrite (Forall2_length _ _ _ Hget)].
  rewrite SetSystemWorkState_for_id //.
  - by destruct this.
  - intros i Hi%elem_of_seq. lia.
Qed.

Lemma SetSystemWorkState_GetSystemWorkState_witness :
  work_order_valid example_scheduled ∧
  ∃ mask this',
    GetSystemWorkState example_scheduled = Some mask ∧
    SetSystemWorkState mask example_scheduled = Some this' ∧
    (∀ p, IsActive <$> objects this' !! p = IsActive <$> objects example_scheduled !! p) ∧
    this' = example_scheduled.
Proof.
  assert (Hvalid : work_order_valid example_scheduled).
  { intros p Hp. simpl in Hp. set_unfold in Hp.
    destruct_or! Hp; simplify_eq; eexists; vm_compute; reflexivity. }
  split; [exact Hvalid|].
  exact (SetSystemWorkState_GetSystemWorkState example_scheduled Hvalid).
Defined.

(** *** The order inside a group *)

(** C3. For every group of the partition the code runs the depth-first
    search of the design document: from the vertex being visited it visits, by
    recursion, exactly the predecessors (the [i] with [M[i][v]] set) that are
    still unvisited, all of them members of the group; it appends the vertex
    to the postorder after the recursion; and the reverse of the postorder of
    a group is the stretch of the work order that holds the group. *)
Theorem group_order_is_reversed_postorder MAX LOWEST this :
  square (m_SystemDependencyMatrix this) → registered this →
  ∃ VG GP postorders ids this',
    vertex_groups LOWEST this = Some (VG, GP) ∧
    visit_groups (m_SystemDependencyMatrix this) VG
      (replicate (length (m_SystemDependencyMatrix this)) 0%Z) postorders ∧
    Forall2 (λ g o, o ≡ₚ g) VG postorders ∧
    work_order_ids MAX LOWEST this = Some ids ∧
    ids = concat (multimap_from [] (entries MAX GP postorders)).*2 ∧
    (∀ k o, postorders !! k = Some o → ∃ l1 l2, ids = l1 ++ reverse o ++ l2) ∧
    UpdateSystemWorkOrder MAX LOWEST this = Some this' ∧
    Forall2 (λ m p, m_Systems this !! m = Some p) ids (m_SystemWorkOrder this').
Proof.
  intros Hsq Hreg.
  destruct (UpdateSystemWorkOrder_spec MAX LOWEST this Hsq Hreg)
    as (VG & GP & orders & ids & this' & Hvg & _ & _ & _ & Hprio & Horders & Hvisit & Hids
        & _ & Hwoi & Hrun & Hwo & _).
  exists VG, GP, orders, ids, this'. split_and!; try done.
  - eapply Forall2_impl; [done|]. by intros g o [? _].
  - intros k o Ho.
    destruct (Forall2_lookup_r _ _ _ _ _ Horders Ho) as (g & Hg & _).
    destruct (Forall2_lookup_l _ _ _ _ _ Hprio Hg) as (p & Hp & _).
    pose proof (entries_lookup MAX GP orders k p o Hp Ho) as He.
    apply list_elem_of_lookup_2 in He.
    change (entries MAX GP orders) with ([] ++ entries MAX GP orders) in He.
    rewrite -(multimap_from_perm [] (entries MAX GP orders)) in He.
    apply list_elem_of_lookup_1 in He as [q Hq].
    assert (Hq2 : (multimap_from [] (entries MAX GP orders)).*2 !! q = Some (reverse o)).
    { by rewrite list_lookup_fmap Hq. }
    exists (concat (take q (multimap_from [] (entries MAX GP orders)).*2)),
           (concat (drop (S q) (multimap_from [] (entries MAX GP orders)).*2)).
    by rewrite Hids -concat_cons -concat_app take_drop_middle.
Qed.

Lemma group_order_is_reversed_postorder_witness :
  square (m_SystemDependencyMatrix example_ABCD) ∧ registered example_ABCD ∧
  ∃ VG GP postorders ids this',
    vertex_groups 0 example_ABCD = Some (VG, GP) ∧
    visit_groups (m_SystemDependencyMatrix example_ABCD) VG (replicate 4 0%Z) postorders ∧
    Forall2 (λ g o, o ≡ₚ g) VG postorders ∧
    work_order_ids 65535 0 example_ABCD = Some ids ∧
    ids = concat (multimap_from [] (entries 65535 GP postorders)).*2 ∧
    (∀ k o, postorders !! k = Some o → ∃ l1 l2, ids = l1 ++ reverse o ++ l2) ∧
    UpdateSystemWorkOrder 65535 0 example_ABCD = Some this' ∧
    Forall2 (λ m p, m_Systems example_ABCD !! m = Some p) ids (m_SystemWorkOrder this').
Proof.
  split; [exact square_example_ABCD|]. split; [exact registered_example_ABCD|].
  exact (group_order_is_reversed_postorder 65535 0 example_ABCD
           square_example_ABCD registered_example_ABCD).
Defined.

(** The example of the design document, run: D (priority 10) first, then B
    before A and C. *)
Example example_ABCD_work_order :
  m_SystemWorkOrder <$> UpdateSystemWorkOrder 65535 0 example_ABCD
  = Some [4288; 4160; 4096; 4224]%Z.
Proof. by vm_compute. Qed.

Example example_cycle_work_order :
  work_order_ids 65535 0 example_cycle = Some [2; 1; 0].
Proof. by vm_compute. Qed.

(** * Properties of the entity containers *)

Import EntityManager.

Lemma allocate_None a a' : allocate a = (None, a') → a' = a.
Proof. unfold allocate. destruct (free_list a); by intros [= <-]. Qed.

Lemma with_allocator_id chunk : with_allocator chunk (allocator chunk) = chunk.
Proof. by destruct chunk. Qed.

Section ContainerFacts.

Context (sizeof_T : Z) (AMOUNT : nat).

(** The loop of [CreateEntity] stops at the first chunk that yields a slot
    and changes no other chunk. *)
Lemma CreateEntity_for_find chunks :
  match list_find (yields_slot AMOUNT) chunks with
  | Some (k, chunk) =>
      ∃ slot a, allocate (allocator chunk) = (Some slot, a) ∧
        CreateEntity_for AMOUNT chunks = (Some slot, <[k := push_entity chunk a slot]> chunks)
  | None => CreateEntity_for AMOUNT chunks = (None, chunks)
  end.
Proof.
  induction chunks as [|chunk rest IH]; [done|].
  cbn [list_find CreateEntity_for].
  destruct (decide (yields_slot AMOUNT chunk)) as [[Hroom Hsome]|Hno].
  { rewrite decide_False; [|lia].
    destruct (allocate (allocator chunk)) as [[slot|] a] eqn:Ha; [|by destruct Hsome].
    by exists slot, a. }
  assert (Hrest : CreateEntity_for AMOUNT (chunk :: rest)
                  = ((CreateEntity_for AMOUNT rest).1, chunk :: (CreateEntity_for AMOUNT rest).2)).
  { cbn [CreateEntity_for].
    destruct (decide (AMOUNT < length (entities chunk))) as [Hfull|Hroom]; [done|].
    destruct (allocate (allocator chunk)) as [[slot|] a] eqn:Ha.
    - destruct Hno. split; [lia|]. rewrite Ha. by eexists.
    - apply allocate_None in Ha as ->. by rewrite with_allocator_id. }
  cbn [CreateEntity_for] in Hrest. rewrite Hrest.
  destruct (list_find _ rest) as [[k ch]|]; simpl.
  - destruct IH as (slot & a & Ha & ->). by exists slot, a.
  - by rewrite IH.
Qed.

Lemma CreateEntity_design_eq this gm :
  CreateEntity sizeof_T AMOUNT this gm = CreateEntity_design sizeof_T AMOUNT this gm.
Proof.
  unfold CreateEntity, CreateEntity_design.
  pose proof (CreateEntity_for_find (m_Chunks this)) as Hfind.
  destruct (list_find _ (m_Chunks this)) as [[k chunk]|].
  - destruct Hfind as (slot & a & Ha & ->). by rewrite Ha.
  - rewrite Hfind. by destruct (allocate _) as [[slot|] a].
Qed.


Lemma DestroyEntity_for_find adr chunks :
  DestroyEntity_for adr chunks =
    match list_find (owns adr) chunks with
    | Some (k, chunk) => Some (<[k := remove_entity adr chunk]> chunks)
    | None => None
    end.
Proof.
  induction chunks as [|chunk rest IH]; [done|].
  cbn [list_find DestroyEntity_for]. unfold owns at 1.
  destruct (decide (chunkStart chunk ≤ adr ∧ chunkEnd chunk > adr)%Z) as [Hin|Hout].
  - rewrite decide_True; [|lia]. done.
  - rewrite decide_False; [|lia]. rewrite IH.
    by destruct (list_find _ rest) as [[k ch]|].
Qed.

Lemma DestroyEntity_find entity this :
  DestroyEntity entity this =
    match list_find (owns entity) (m_Chunks this) with
    | Some (k, chunk) =>
        Some {| m_Chunks := <[k := remove_entity entity chunk]> (m_Chunks this) |}
    | None => None
    end.
Proof.
  unfold DestroyEntity. rewrite DestroyEntity_for_find.
  by destruct (list_find _ _) as [[k chunk]|].
Qed.

Lemma DestroyEntity_design_eq entity this :
  DestroyEntity entity this = DestroyEntity_design entity this.
Proof.
  rewrite DestroyEntity_find. unfold DestroyEntity_design.
  by destruct (list_find _ _) as [[k chunk]|].
Qed.

Lemma filter_ne_not_elem_of (entity : Z) (l : list Z) :
  entity ∉ filter (λ e, e ≠ entity) l.
Proof. intros [? _]%list_elem_of_filter. done. Qed.

(** C6. [DestroyEntity] finds the owning chunk by the range test
    [chunkStart <= ptr < chunkEnd], scanning the chunk list; it removes [ptr]
    from the entity list of that chunk and frees the slot in the allocator of
    that chunk, every other chunk staying as it is; when no chunk owns [ptr]
    it fails.  Spelled out: with [chunk] the first chunk of the list whose
    range contains [ptr], at position [k], the call returns the chunk list
    with position [k] replaced by a chunk [chunk'] of the same range, whose
    entity list is that of [chunk] without [ptr] and whose allocator is that
    of [chunk] after [free(ptr)], the slot being back on its free list. *)
Theorem DestroyEntity_as_designed entity this :
  DestroyEntity entity this = DestroyEntity_design entity this ∧
  match list_find (owns entity) (m_Chunks this) with
  | Some (k, chunk) =>
      ∃ chunk',
        DestroyEntity entity this
          = Some {| m_Chunks := <[k := chunk']> (m_Chunks this) |} ∧
        entities chunk' = filter (λ e, e ≠ entity) (entities chunk) ∧
        entity ∉ entities chunk' ∧
        allocator chunk' = free entity (allocator chunk) ∧
        free_list (allocator chunk') = entity :: free_list (allocator chunk) ∧
        chunkStart chunk' = chunkStart chunk ∧
        chunkEnd chunk' = chunkEnd chunk
  | None => DestroyEntity entity this = None
  end.
Proof.
  split; [apply DestroyEntity_design_eq|].
  rewrite DestroyEntity_design_eq. unfold DestroyEntity_design.
  destruct (list_find _ _) as [[k chunk]|]; [|done].
  eexists. split; [reflexivity|]. simpl. split_and!; try done.
  apply filter_ne_not_elem_of.
Qed.

End ContainerFacts.

(** ** Placement of the live entities *)

Lemma StronglySorted_lookup {A} (R : relation A) l i j x y :
  StronglySorted R l → i < j → l !! i = Some x → l !! j = Some y → R x y.
Proof.
  intros Hs. revert i j. induction Hs as [|z l _ IH Hall]; intros i j Hij Hi Hj; [done|].
  destruct j as [|j]; [lia|]. simpl in Hj. destruct i as [|i]; simplify_eq/=.
  - rewrite Forall_forall in Hall. apply Hall. by eapply list_elem_of_lookup_2.
  - apply (IH i j); [lia|done..].
Qed.

Section Placement.

Context (sizeof_T : Z) (AMOUNT : nat).
Context (Hsize : (0 < sizeof_T)%Z).

Lemma apart_sym e1 e2 : apart sizeof_T e1 e2 → apart sizeof_T e2 e1.
Proof. unfold apart. lia. Qed.

Lemma no_overlap_app l1 l2 :
  no_overlap sizeof_T (l1 ++ l2) ↔
    no_overlap sizeof_T l1 ∧ no_overlap sizeof_T l2 ∧
    ∀ x y, x ∈ l1 → y ∈ l2 → apart sizeof_T x y.
Proof.
  induction l1 as [|e l1 IH]; simpl.
  - split; [intros ?; split_and!; [done..|]|naive_solver]. by intros x y ?%elem_of_nil.
  - rewrite Forall_app IH !Forall_forall. split.
    + intros ([H1 H2] & H3 & H4 & H5). split_and!; [done..|].
      intros x y [->|Hx]%elem_of_cons Hy; [by apply H2|by apply H5].
    + intros ([H1 H2] & H3 & H4). split_and!; [done| |done..|].
      * intros y Hy. apply H4; [by left|done].
      * intros x y Hx Hy. apply H4; [by right|done].
Qed.

Lemma no_overlap_filter (P : Z → Prop) `{!∀ x, Decision (P x)} l :
  no_overlap sizeof_T l → no_overlap sizeof_T (filter P l).
Proof.
  induction l as [|e l IH]; [done|]. intros [Hall Hl]. rewrite filter_cons.
  destruct (decide (P e)); [|by apply IH]. split; [|by apply IH].
  rewrite Forall_forall in Hall. apply Forall_forall.
  intros y [_ Hy]%list_elem_of_filter. by apply Hall.
Qed.

Lemma no_overlap_Permutation l1 l2 :
  l1 ≡ₚ l2 → no_overlap sizeof_T l1 → no_overlap sizeof_T l2.
Proof.
  induction 1 as [|e l1 l2 Hp IH|e1 e2 l|l1 l2 l3 _ IH1 _ IH2]; simpl.
  - done.
  - intros [Hall Hl]. split; [by rewrite -Hp|by apply IH].
  - intros [[H12 H1]%Forall_cons [H2 Hl]]. split_and!; [|done..].
    constructor; [by apply apart_sym|done].
  - intros Hl. by apply IH2, IH1.
Qed.

Lemma no_overlap_NoDup l : no_overlap sizeof_T l → NoDup l.
Proof using Hsize.
  induction l as [|e l IH]; [constructor|]. intros [Hall Hl].
  constructor; [|by apply IH]. intros Hin. rewrite Forall_forall in Hall.
  specialize (Hall e Hin). unfold apart in Hall. lia.
Qed.

(** The slots of a fresh pool lie in its block and are apart. *)
Lemma new_pool_slots mem slot :
  slot ∈ free_list (PoolAllocator_new (ALLOC_SIZE sizeof_T AMOUNT) mem sizeof_T) →
  (mem ≤ slot ∧ slot + sizeof_T ≤ mem + ALLOC_SIZE sizeof_T AMOUNT)%Z.
Proof using Hsize.
  unfold PoolAllocator_new, ALLOC_SIZE. simpl.
  rewrite Z.mul_comm Z.div_mul; [|lia]. rewrite Nat2Z.id.
  intros (k & -> & Hk%elem_of_seq)%list_elem_of_fmap. nia.
Qed.

Lemma new_pool_apart mem n k :
  no_overlap sizeof_T ((λ k, mem + sizeof_T * Z.of_nat k)%Z <$> seq k n).
Proof using Hsize.
  revert k. induction n as [|n IH]; intros k; [done|]. simpl. split; [|apply IH].
  apply Forall_forall. intros y (j & -> & Hj%elem_of_seq)%list_elem_of_fmap.
  unfold apart. nia.
Qed.

Lemma allocate_Some a slot a' :
  allocate a = (Some slot, a') →
  free_list a = slot :: free_list a' ∧ first_address a' = first_address a.
Proof. unfold allocate. destruct (free_list a); [done|]. by intros [= <- <-]. Qed.

Lemma ranges_insert chunks k chunk chunk' :
  chunks !! k = Some chunk →
  chunkStart chunk' = chunkStart chunk → chunkEnd chunk' = chunkEnd chunk →
  ranges (<[k := chunk']> chunks) = ranges chunks.
Proof.
  intros Hk Hs He. unfold ranges. rewrite list_fmap_insert Hs He.
  apply list_insert_id. by rewrite list_lookup_fmap Hk.
Qed.

(** The invariant gives the two properties of the live entities. *)
Lemma container_inv_well_placed st :
  container_inv sizeof_T AMOUNT st → entities_well_placed sizeof_T st.1.
Proof using Hsize.
  destruct st as [[chunks] gm]. unfold container_inv, entities_well_placed, live_entities.
  simpl. intros [Hall Hsorted]. split.
  - induction chunks as [|chunk chunks IH]; [done|].
    apply Forall_cons in Hall as [(_ & _ & Hin & Hno) Hall].
    simpl in Hsorted. apply StronglySorted_cons in Hsorted as [Hold Hsorted].
    cbn [fmap list_fmap concat]. apply no_overlap_app. split_and!; [done|by apply IH|].
    intros x y Hx (es & Hy & (old & -> & Hold')%list_elem_of_fmap)%elem_of_concat.
    rewrite Forall_forall in Hin. specialize (Hin x Hx).
    rewrite Forall_forall in Hall. destruct (Hall old Hold') as (_ & _ & Hin' & _).
    rewrite Forall_forall in Hin'. specialize (Hin' y Hy).
    rewrite Forall_forall in Hold.
    specialize (Hold (chunkStart old, chunkEnd old)). simpl in Hold.
    unfold apart. right. etrans; [apply Hin'|]. etrans; [apply Hold|apply Hin].
    apply list_elem_of_fmap. by exists old.
  - intros e (es & He & (chunk & -> & Hchunk)%list_elem_of_fmap)%elem_of_concat.
    apply list_elem_of_lookup_1 in Hchunk as [k Hk].
    assert (Hown : ∀ k chunk, chunks !! k = Some chunk → e ∈ entities chunk → owns e chunk).
    { intros k0 chunk0 Hk0 He0. rewrite Forall_forall in Hall.
      destruct (Hall chunk0) as (_ & _ & Hin & _); [by eapply list_elem_of_lookup_2|].
      rewrite Forall_forall in Hin. specialize (Hin e He0). unfold owns. lia. }
    exists k, chunk. split_and!; [done|by eapply Hown|].
    intros k' chunk' Hk' Hown'. pose proof (Hown k chunk Hk He) as Hown0.
    assert (Hr : ∀ i c, chunks !! i = Some c →
              ranges chunks !! i = Some (chunkStart c, chunkEnd c)).
    { intros i c Hi. unfold ranges. by rewrite list_lookup_fmap Hi. }
    unfold owns in Hown0, Hown'.
    destruct (Nat.lt_trichotomy k' k) as [Hlt|[->|Hlt]]; [|done|].
    + pose proof (StronglySorted_lookup _ _ _ _ _ _ Hsorted Hlt (Hr _ _ Hk') (Hr _ _ Hk)) as H.
      simpl in H. lia.
    + pose proof (StronglySorted_lookup _ _ _ _ _ _ Hsorted Hlt (Hr _ _ Hk) (Hr _ _ Hk')) as H.
      simpl in H. lia.
Qed.

Lemma new_chunk_inv gm slot a :
  allocate (allocator (new_chunk sizeof_T AMOUNT gm).1) = (Some slot, a) →
  chunk_inv sizeof_T AMOUNT (new_chunk sizeof_T AMOUNT gm).2
    (push_entity (new_chunk sizeof_T AMOUNT gm).1 a slot).
Proof using Hsize.
  intros Ha. apply allocate_Some in Ha as [Hfree _].
  assert (Hin : slot ∈ free_list (PoolAllocator_new (ALLOC_SIZE sizeof_T AMOUNT)
                                     (next_block gm) sizeof_T)).
  { change (free_list (PoolAllocator_new (ALLOC_SIZE sizeof_T AMOUNT)
                          (next_block gm) sizeof_T))
      with (free_list (allocator (new_chunk sizeof_T AMOUNT gm).1)).
    rewrite Hfree. by left. }
  apply new_pool_slots in Hin.
  unfold chunk_inv. simpl. split_and!; [done|lia| |done..].
  by apply Forall_singleton.
Qed.

Lemma container_inv_init gm :
  container_inv sizeof_T AMOUNT (EntityContainer_new sizeof_T AMOUNT gm).
Proof using Hsize.
  split; simpl.
  - constructor; [|done]. unfold chunk_inv. simpl. by split_and!.
  - by repeat constructor.
Qed.

Lemma chunk_inv_mono gm gm' chunk :
  (next_block gm ≤ next_block gm')%Z →
  chunk_inv sizeof_T AMOUNT gm chunk → chunk_inv sizeof_T AMOUNT gm' chunk.
Proof. intros Hle (? & ? & ? & ?). split_and!; [done|lia|done..]. Qed.

(** One call keeps the invariant, when the pool allocators behave. *)
Lemma container_inv_step call st st' :
  container_inv sizeof_T AMOUNT st →
  (call = Create → Forall (hands_out_sound sizeof_T) (m_Chunks st.1)) →
  call_step sizeof_T AMOUNT call st = Some st' →
  container_inv sizeof_T AMOUNT st'.
Proof using Hsize.
  destruct st as [this gm]. intros [Hall Hsorted] Hsound Hstep. simpl in *.
  destruct call as [|e]; simpl in Hstep.
  - specialize (Hsound eq_refl). rewrite CreateEntity_design_eq in Hstep.
    unfold CreateEntity_design in Hstep.
    destruct (list_find _ _) as [[k chunk]|] eqn:Hfind.
    + apply list_find_Some in Hfind as (Hk & _ & _).
      destruct (allocate (allocator chunk)) as [[slot|] a] eqn:Ha; simplify_eq/=.
      rewrite Forall_forall in Hsound.
      destruct (Hsound chunk (list_elem_of_lookup_2 _ _ _ Hk) slot a Ha) as [Hin Hap].
      rewrite Forall_forall in Hall.
      destruct (Hall chunk (list_elem_of_lookup_2 _ _ _ Hk)) as (H1 & H2 & H3 & H4).
      split; simpl.
      * apply Forall_insert; [by apply Forall_forall|].
        unfold chunk_inv. simpl. split_and!; [done..| |].
        -- apply Forall_app. split; [done|]. by constructor.
        -- apply no_overlap_app. split_and!; [done|by repeat constructor|].
           intros x y Hx ->%list_elem_of_singleton. apply apart_sym.
           rewrite Forall_forall in Hap. by apply Hap.
      * by rewrite (ranges_insert _ _ chunk).
    + destruct (allocate _) as [[slot|] a] eqn:Ha; simplify_eq/=.
      split; simpl.
      * constructor; [by apply new_chunk_inv|].
        eapply Forall_impl; [exact Hall|]. intros chunk. apply chunk_inv_mono. simpl.
        unfold ALLOC_SIZE. nia.
      * constructor; [done|]. apply Forall_forall.
        intros r (chunk & -> & Hchunk)%list_elem_of_fmap. simpl.
        rewrite Forall_forall in Hall. by destruct (Hall chunk Hchunk) as (_ & ? & _).
  - rewrite DestroyEntity_find in Hstep.
    destruct (list_find _ _) as [[k chunk]|] eqn:Hfind; simplify_eq/=.
    apply list_find_Some in Hfind as (Hk & _ & _).
    rewrite Forall_forall in Hall.
    destruct (Hall chunk (list_elem_of_lookup_2 _ _ _ Hk)) as (H1 & H2 & H3 & H4).
    split; simpl.
    + apply Forall_insert; [by apply Forall_forall|].
      unfold chunk_inv. simpl. split_and!; [done..| |by apply no_overlap_filter].
      rewrite Forall_forall in H3. apply Forall_forall.
      intros y [_ Hy]%list_elem_of_filter. by apply H3.
    + by rewrite (ranges_insert _ _ chunk).
Qed.

Lemma container_inv_states calls st :
  container_inv sizeof_T AMOUNT st →
  pools_sound_along sizeof_T AMOUNT calls st →
  Forall (container_inv sizeof_T AMOUNT) (states sizeof_T AMOUNT calls st).
Proof using Hsize.
  revert st. induction calls as [|call calls IH]; intros st Hinv Hsound; simpl.
  { by apply Forall_singleton. }
  constructor; [done|]. destruct Hsound as [Hnow Hlater].
  destruct (call_step sizeof_T AMOUNT call st) as [st'|] eqn:Hstep; [|constructor].
  apply IH; [|done]. by eapply container_inv_step.
Qed.

(** *** The free-list pool under proper use *)

Lemma pool_inv_hands_out_sound chunk :
  pool_inv sizeof_T chunk → hands_out_sound sizeof_T chunk.
Proof.
  intros [Hin Hno] slot a [Hfree _]%allocate_Some. rewrite Hfree in Hin, Hno.
  apply Forall_cons in Hin as [Hslot _]. split; [done|].
  simpl in Hno. destruct Hno as [Hall _]. by apply Forall_app in Hall as [_ ?].
Qed.

Lemma filter_remove_Permutation (l : list Z) e :
  NoDup l → e ∈ l → l ≡ₚ e :: filter (λ x, x ≠ e) l.
Proof.
  induction l as [|x l IH]; intros Hnd Hin; [by apply elem_of_nil in Hin|].
  apply NoDup_cons in Hnd as [Hx Hnd]. rewrite filter_cons.
  destruct (decide (x = e)) as [->|Hne].
  - rewrite decide_False; [|naive_solver]. f_equiv.
    clear IH Hin Hnd. induction l as [|y l IH]; [done|]. rewrite filter_cons.
    apply not_elem_of_cons in Hx as [Hy Hx]. rewrite decide_True; [|done]. by rewrite -IH.
  - rewrite decide_True; [|done]. apply elem_of_cons in Hin as [->|Hin]; [done|].
    rewrite {1}(IH Hnd Hin). apply Permutation_swap.
Qed.

Lemma new_chunk_pool_inv gm slot a :
  allocate (allocator (new_chunk sizeof_T AMOUNT gm).1) = (Some slot, a) →
  pool_inv sizeof_T (push_entity (new_chunk sizeof_T AMOUNT gm).1 a slot).
Proof using Hsize.
  intros [Hfree _]%allocate_Some.
  assert (Hall : ∀ x, x ∈ slot :: free_list a →
            (next_block gm ≤ x ∧ x + sizeof_T ≤ next_block gm + ALLOC_SIZE sizeof_T AMOUNT)%Z).
  { intros x Hx. rewrite -Hfree in Hx. by apply new_pool_slots in Hx. }
  split; simpl.
  - apply Forall_forall. intros x Hx. apply Hall. by right.
  - eapply (no_overlap_Permutation (slot :: free_list a)); [solve_Permutation|].
    rewrite -Hfree. apply new_pool_apart.
Qed.

(** The invariant of the container together with that of its pools. *)
Lemma pools_inv_init gm :
  Forall (pool_inv sizeof_T) (m_Chunks (EntityContainer_new sizeof_T AMOUNT gm).1).
Proof using Hsize.
  simpl. apply Forall_singleton. split; simpl.
  - apply Forall_forall. intros x Hx. by apply new_pool_slots in Hx.
  - rewrite app_nil_r. apply new_pool_apart.
Qed.

Lemma pools_inv_step call st st' :
  container_inv sizeof_T AMOUNT st →
  Forall (pool_inv sizeof_T) (m_Chunks st.1) →
  match call with
  | Create => True
  | Destroy e => e ∈ live_entities st.1 ∨ DestroyEntity e st.1 = None
  end →
  call_step sizeof_T AMOUNT call st = Some st' →
  Forall (pool_inv sizeof_T) (m_Chunks st'.1).
Proof using Hsize.
  destruct st as [this gm]. intros Hinv Hpools Hlive Hstep. simpl in *.
  destruct call as [|e]; simpl in Hstep.
  - rewrite CreateEntity_design_eq in Hstep. unfold CreateEntity_design in Hstep.
    destruct (list_find _ _) as [[k chunk]|] eqn:Hfind.
    + apply list_find_Some in Hfind as (Hk & _ & _).
      destruct (allocate (allocator chunk)) as [[slot|] a] eqn:Ha; simplify_eq/=.
      apply Forall_insert; [done|].
      rewrite Forall_forall in Hpools.
      destruct (Hpools chunk (list_elem_of_lookup_2 _ _ _ Hk)) as [Hin Hno].
      apply allocate_Some in Ha as [Hfree _]. rewrite Hfree in Hin, Hno.
      apply Forall_cons in Hin as [_ Hin]. split; simpl; [done|].
      eapply no_overlap_Permutation; [|exact Hno]. solve_Permutation.
    + destruct (allocate _) as [[slot|] a] eqn:Ha; simplify_eq/=.
      constructor; [|done]. by apply new_chunk_pool_inv.
  - destruct (DestroyEntity e this) as [this'|] eqn:Hdestroy; simplify_eq/=.
    destruct Hlive as [Hlive|?]; [|done].
    rewrite DestroyEntity_find in Hdestroy.
    destruct (list_find _ _) as [[k chunk]|] eqn:Hfind; simplify_eq/=.
    apply list_find_Some in Hfind as (Hk & Hown & _).
    (* the chunk found is the chunk that holds the entity *)
    destruct (container_inv_well_placed (this, gm) Hinv) as [_ Hone].
    destruct (Hone e Hlive) as (k0 & chunk0 & Hk0 & _ & Huniq).
    unfold live_entities in Hlive.
    apply elem_of_concat in Hlive as (es & He & (chunk1 & -> & Hchunk1)%list_elem_of_fmap).
    apply list_elem_of_lookup_1 in Hchunk1 as [k1 Hk1].
    destruct Hinv as [Hall _]. simpl in Hall. rewrite Forall_forall in Hall.
    destruct (Hall chunk1 (list_elem_of_lookup_2 _ _ _ Hk1)) as (_ & _ & Hin1 & Hno1).
    assert (Hown1 : owns e chunk1).
    { rewrite Forall_forall in Hin1. specialize (Hin1 e He). unfold owns. lia. }
    assert (k1 = k) as -> by (rewrite (Huniq k1 chunk1) // (Huniq k chunk) //).
    assert (chunk1 = chunk) as -> by congruence.
    apply Forall_insert; [done|].
    rewrite Forall_forall in Hpools.
    destruct (Hpools chunk (list_elem_of_lookup_2 _ _ _ Hk)) as [Hin Hno].
    assert (Hp : free_list (allocator chunk) ++ entities chunk
                 ≡ₚ (e :: free_list (allocator chunk))
                      ++ filter (λ x, x ≠ e) (entities chunk)).
    { rewrite {1}(filter_remove_Permutation (entities chunk) e); [solve_Permutation| |done].
      by apply no_overlap_NoDup. }
    split.
    + simpl. constructor; [|done]. rewrite Forall_forall in Hin1. by apply Hin1.
    + by apply (no_overlap_Permutation _ _ Hp).
Qed.

(** With the free-list pool the allocators hand out disjoint in-range slots
    along every sequence that destroys live entities only. *)
Lemma proper_use_pools_sound calls st :
  container_inv sizeof_T AMOUNT st →
  Forall (pool_inv sizeof_T) (m_Chunks st.1) →
  destroys_live sizeof_T AMOUNT calls st →
  pools_sound_along sizeof_T AMOUNT calls st.
Proof using Hsize.
  revert st. induction calls as [|call calls IH]; intros st Hinv Hpools Hlive; [done|].
  assert (Hsound : Forall (hands_out_sound sizeof_T) (m_Chunks st.1)).
  { eapply Forall_impl; [exact Hpools|]. apply pool_inv_hands_out_sound. }
  destruct Hlive as [Hnow Hlater]. split; [done|].
  destruct (call_step sizeof_T AMOUNT call st) as [st'|] eqn:Hstep; [|done].
  apply IH; [|by eapply pools_inv_step|done].
  by eapply container_inv_step.
Qed.

End Placement.

(** C4. For every sequence of [CreateEntity] and [DestroyEntity] calls on a
    container, along which the pool allocators hand out disjoint in-range
    slots: in every state the sequence goes through no two live entities
    overlap, and the address of every live entity lies in the range
    [chunkStart, chunkEnd) of exactly one chunk of the container. *)
Theorem live_entities_well_placed sizeof_T AMOUNT gm calls :
  (0 < sizeof_T)%Z →
  pools_sound_along sizeof_T AMOUNT calls (EntityContainer_new sizeof_T AMOUNT gm) →
  Forall (λ st, entities_well_placed sizeof_T st.1)
         (states sizeof_T AMOUNT calls (EntityContainer_new sizeof_T AMOUNT gm)).
Proof.
  intros Hsize Hsound.
  eapply Forall_impl; [apply container_inv_states; [done| |done]|].
  - by apply container_inv_init.
  - intros st. by apply container_inv_well_placed.
Qed.

Lemma example_calls_destroy_live :
  destroys_live 16 2 example_calls example_container.
Proof. vm_compute. split_and!; try done. left. set_solver. Qed.

Lemma live_entities_well_placed_witness :
  (0 < 16)%Z ∧
  pools_sound_along 16 2 example_calls (EntityContainer_new 16 2 {| next_block := 4096 |}) ∧
  Forall (λ st, entities_well_placed 16 st.1)
         (states 16 2 example_calls (EntityContainer_new 16 2 {| next_block := 4096 |})).
Proof.
  assert (Hsound : pools_sound_along 16 2 example_calls
                     (EntityContainer_new 16 2 {| next_block := 4096 |})).
  { apply proper_use_pools_sound; [done| | |].
    - by apply container_inv_init.
    - by apply pools_inv_init.
    - exact example_calls_destroy_live. }
  split; [done|]. split; [exact Hsound|].
  exact (live_entities_well_placed 16 2 {| next_block := 4096 |} example_calls
           eq_refl Hsound).
Defined.

(** The example sequence, run: the third entity opens a second chunk at the
    front of the list, and the next entity is taken from that chunk, which is
    tried first. *)
Example example_calls_states :
  (λ st, entities <$> m_Chunks st.1) <$> states 16 2 example_calls example_container
  = [ [[]];
      [[4096]];
      [[4096; 4112]];
      [[4128]; [4096; 4112]];
      [[4128]; [4112]];
      [[4128; 4144]; [4112]] ]%Z.
Proof. by vm_compute. Qed.

(** C9. [GetEntity] fails exactly when the id is [INVALID_ENTITY_ID] or not
    below the size of the lookup table, and returns the table entry at index
    [id] otherwise. *)
Theorem GetEntity_spec INVALID_ENTITY_ID id this :
  (GetEntity INVALID_ENTITY_ID id this = None
     ↔ id = INVALID_ENTITY_ID ∨ ¬ id < length (m_EntityLUT this)) ∧
  (∀ e, GetEntity INVALID_ENTITY_ID id this = Some e
     ↔ id ≠ INVALID_ENTITY_ID ∧ m_EntityLUT this !! id = Some e).
Proof.
  unfold GetEntity. case_decide as Hok.
  - destruct Hok as [Hne Hlt]. split.
    + split; [|intros [?|?]; done]. intros Hnone. apply lookup_ge_None in Hnone. lia.
    + intros e. naive_solver.
  - split; [split; [|done]|].
    + intros _. destruct (decide (id = INVALID_ENTITY_ID)); [by left|right]. naive_solver.
    + intros e. split; [done|]. intros [Hne He]. destruct Hok. split; [done|].
      by eapply lookup_lt_Some.
Qed.

(** * Further facts about the system manager *)

(** ** Writing a mask *)

(** What the loop of [SetSystemWorkState] leaves alone. *)
Lemma SetSystemWorkState_for_frame (order : list Z) mask ks (objs objs' : gmap Z ISystem) :
  SetSystemWorkState_for order mask ks objs = Some objs' →
  (∀ p, GetSystemPriority <$> objs' !! p = GetSystemPriority <$> objs !! p) ∧
  (∀ p, p ∉ order → objs' !! p = objs !! p).
Proof.
  revert objs. induction ks as [|i ks IH]; intros objs Hrun; [by simplify_eq/=|].
  cbn [SetSystemWorkState_for] in Hrun.
  destruct (order !! i) as [q|] eqn:Hq; [simpl in Hrun|done].
  destruct (mask !! i) as [b|] eqn:Hb; [simpl in Hrun|done].
  destruct (objs !! q) as [sys|] eqn:Hsys; [simpl in Hrun|done].
  destruct (IH _ Hrun) as [Hprio Hother]. split.
  - intros p. rewrite Hprio. destruct (decide (p = q)) as [->|Hne].
    + by rewrite lookup_insert_eq Hsys.
    + by rewrite lookup_insert_ne.
  - intros p Hp. rewrite Hother // lookup_insert_ne //.
    intros ->. apply Hp. by eapply list_elem_of_lookup_2.
Qed.

(** The loop returns when the mask is as long as the work order and the
    work order holds system objects only; when no system is listed twice it
    leaves the flag of the [i]-th system equal to the [i]-th bit. *)
Lemma SetSystemWorkState_for_flags (order : list Z) mask ks (objs : gmap Z ISystem) :
  length mask = length order →
  (∀ i, i ∈ ks → i < length order) →
  (∀ p, p ∈ order → is_Some (objs !! p)) →
  ∃ objs',
    SetSystemWorkState_for order mask ks objs = Some objs' ∧
    (NoDup order → NoDup ks →
     ∀ i p, order !! i = Some p →
       IsActive <$> objs' !! p
       = if decide (i ∈ ks) then mask !! i else IsActive <$> objs !! p).
Proof.
  intros Hlen. revert objs. induction ks as [|i ks IH]; intros objs Hks Hvalid.
  { exists objs. split; [done|]. intros _ _ i p _. case_decide as Hin; [by apply elem_of_nil in Hin|done]. }
  destruct (lookup_lt_is_Some_2 order i) as [q Hq]; [apply Hks; by left|].
  destruct (lookup_lt_is_Some_2 mask i) as [b Hb].
  { rewrite Hlen. apply Hks. by left. }
  destruct (Hvalid q) as [sys Hsys]; [by eapply list_elem_of_lookup_2|].
  destruct (IH (<[q := SetActive b sys]> objs)) as (objs' & Hrun & Hflags).
  { intros j Hj. apply Hks. by right. }
  { intros p Hp. destruct (decide (p = q)) as [->|Hne].
    - rewrite lookup_insert_eq. by eexists.
    - rewrite lookup_insert_ne //. by apply Hvalid. }
  exists objs'. split.
  { cbn [SetSystemWorkState_for]. by rewrite Hq /= Hb /= Hsys /=. }
  intros Hnd [Hi Hndks]%NoDup_cons j p Hp.
  rewrite (Hflags Hnd Hndks j p Hp).
  destruct (decide (j = i)) as [->|Hji].
  - assert (p = q) as -> by congruence.
    repeat case_decide; try done; [|exfalso; set_solver].
    by rewrite lookup_insert_eq Hb.
  - assert (p ≠ q).
    { intros Hpq. apply Hji. rewrite Hpq in Hp. exact (NoDup_lookup _ _ _ _ Hnd Hp Hq). }
    rewrite lookup_insert_ne //.
    repeat case_decide; try done; exfalso; set_solver.
Qed.

(** X1. [SetSystemWorkState] is refused exactly when the mask and the work
    order differ in length; when it is accepted it changes active flags of
    systems of the work order and nothing else: registry, matrix and work
    order stay, every priority stays, objects outside the work order stay. *)
Theorem SetSystemWorkState_changes_flags_only mask this :
  work_order_valid this →
  (is_Some (SetSystemWorkState mask this)
     ↔ length mask = length (m_SystemWorkOrder this)) ∧
  (∀ this', SetSystemWorkState mask this = Some this' →
     m_Systems this' = m_Systems this ∧
     m_SystemDependencyMatrix this' = m_SystemDependencyMatrix this ∧
     m_SystemWorkOrder this' = m_SystemWorkOrder this ∧
     (∀ p, GetSystemPriority <$> objects this' !! p
           = GetSystemPriority <$> objects this !! p) ∧
     (∀ p, p ∉ m_SystemWorkOrder this → objects this' !! p = objects this !! p)).
Proof.
  intros Hvalid. unfold SetSystemWorkState. split.
  - case_decide as Hlen; [|split; [by intros [? ?]|done]].
    split; [done|]. intros _.
    destruct (SetSystemWorkState_for_flags (m_SystemWorkOrder this) mask
                (seq 0 (length (m_SystemWorkOrder this))) (objects this))
      as (objs' & -> & _); [done| |done|by eexists].
    intros i Hi%elem_of_seq. lia.
  - intros this' Hset. case_decide; [|done].
    destruct (SetSystemWorkState_for _ _ _ _) as [objs'|] eqn:Hrun; simplify_eq/=.
    apply SetSystemWorkState_for_frame in Hrun as [? ?]. by split_and!.
Qed.

Lemma work_order_valid_example_scheduled : work_order_valid example_scheduled.
Proof.
  intros p Hp. simpl in Hp. set_unfold in Hp.
  destruct_or! Hp; simplify_eq; eexists; vm_compute; reflexivity.
Qed.

Lemma SetSystemWorkState_changes_flags_only_witness :
  work_order_valid example_scheduled ∧
  (is_Some (SetSystemWorkState [true; false] example_scheduled)
     ↔ length [true; false] = length (m_SystemWorkOrder example_scheduled)) ∧
  (∀ this', SetSystemWorkState [true; false] example_scheduled = Some this' →
     m_Systems this' = m_Systems example_scheduled ∧
     m_SystemDependencyMatrix this' = m_SystemDependencyMatrix example_scheduled ∧
     m_SystemWorkOrder this' = m_SystemWorkOrder example_scheduled ∧
     (∀ p, GetSystemPriority <$> objects this' !! p
           = GetSystemPriority <$> objects example_scheduled !! p) ∧
     (∀ p, p ∉ m_SystemWorkOrder example_scheduled →
           objects this' !! p = objects example_scheduled !! p)).
Proof.
  split; [exact work_order_valid_example_scheduled|].
  exact (SetSystemWorkState_changes_flags_only [true; false] example_scheduled
           work_order_valid_example_scheduled).
Defined.

Lemma SetSystemWorkState_then_Get mask this :
  work_order_valid this → NoDup (m_SystemWorkOrder this) →
  length mask = length (m_SystemWorkOrder this) →
  ∃ this',
    SetSystemWorkState mask this = Some this' ∧
    m_SystemWorkOrder this' = m_SystemWorkOrder this ∧
    (∀ i p, m_SystemWorkOrder this !! i = Some p →
            IsActive <$> objects this' !! p = mask !! i) ∧
    GetSystemWorkState this' = Some mask.
Proof.
  intros Hvalid Hnd Hlen. unfold SetSystemWorkState. rewrite decide_True //.
  destruct (SetSystemWorkState_for_flags (m_SystemWorkOrder this) mask
              (seq 0 (length (m_SystemWorkOrder this))) (objects this))
    as (objs' & -> & Hflags); [done| |done|].
  { intros i Hi%elem_of_seq. lia. }
  specialize (Hflags Hnd (NoDup_seq _ _)).
  assert (Hbits : ∀ i p, m_SystemWorkOrder this !! i = Some p →
            IsActive <$> objs' !! p = mask !! i).
  { intros i p Hp. rewrite (Hflags i p Hp) decide_True //.
    apply elem_of_seq. apply lookup_lt_Some in Hp. lia. }
  eexists. split_and!; [done..|].
  unfold GetSystemWorkState. simpl. apply mapM_Some_2.
  apply Forall2_same_length_lookup. split; [done|].
  intros i p b Hp Hb. by rewrite (Hbits i p Hp).
Qed.

(** X2. When no system stands twice in the work order, a mask of the right
    length written by [SetSystemWorkState] is the mask [GetSystemWorkState]
    reads back. *)
Theorem GetSystemWorkState_SetSystemWorkState mask this :
  work_order_valid this → NoDup (m_SystemWorkOrder this) →
  length mask = length (m_SystemWorkOrder this) →
  ∃ this',
    SetSystemWorkState mask this = Some this' ∧
    GetSystemWorkState this' = Some mask.
Proof.
  intros Hvalid Hnd Hlen.
  destruct (SetSystemWorkState_then_Get mask this Hvalid Hnd Hlen) as (this' & ? & _ & _ & ?).
  by exists this'.
Qed.

Lemma NoDup_example_scheduled : NoDup (m_SystemWorkOrder example_scheduled).
Proof. simpl. repeat (constructor; [set_solver|]). constructor. Qed.

Lemma GetSystemWorkState_SetSystemWorkState_witness :
  work_order_valid example_scheduled ∧ NoDup (m_SystemWorkOrder example_scheduled) ∧
  length [true; true; false; true] = length (m_SystemWorkOrder example_scheduled) ∧
  ∃ this',
    SetSystemWorkState [true; true; false; true] example_scheduled = Some this' ∧
    GetSystemWorkState this' = Some [true; true; false; true].
Proof.
  split; [exact work_order_valid_example_scheduled|].
  split; [exact NoDup_example_scheduled|]. split; [reflexivity|].
  exact (GetSystemWorkState_SetSystemWorkState [true; true; false; true] example_scheduled
           work_order_valid_example_scheduled NoDup_example_scheduled eq_refl).
Defined.

(** Without that condition the read-back differs: the later bit wins. *)
Example example_twice_read_back :
  (SetSystemWorkState [true; false] example_twice ≫= GetSystemWorkState)
  = Some [false; false].
Proof. by vm_compute. Qed.

(** ** Which systems a pass calls *)

Lemma pass_for_spec method (order : list Z) (objs : gmap Z ISystem) log :
  keeps_flags method →
  (∀ p, p ∈ order → is_Some (objs !! p)) →
  ∃ objs',
    pass_for method order objs log = Some (objs', log ++ active_systems objs order) ∧
    (∀ p, IsActive <$> objs' !! p = IsActive <$> objs !! p).
Proof.
  intros Hkeep. revert objs log.
  induction order as [|q order IH]; intros objs log Hvalid.
  { exists objs. by rewrite /= app_nil_r. }
  destruct (Hvalid q) as [sys Hsys]; [by left|].
  assert (Hsame : ∀ objs1 : gmap Z ISystem,
            (∀ p, IsActive <$> objs1 !! p = IsActive <$> objs !! p) →
            active_systems objs1 order = active_systems objs order).
  { intros objs1 H1. unfold active_systems. apply list_filter_iff. intros p. by rewrite H1. }
  cbn [pass_for]. rewrite Hsys /=. unfold active_systems. rewrite filter_cons.
  destruct (IsActive sys) eqn:Hact.
  - rewrite decide_True; [|by rewrite Hsys /= Hact].
    destruct (IH (method q objs) (log ++ [q])) as (objs' & -> & Hflags).
    { intros p Hp. destruct (Hvalid p) as [s Hs]; [by right|].
      specialize (Hkeep q objs p). rewrite Hs /= in Hkeep.
      destruct (method q objs !! p); [by eexists|done]. }
    exists objs'. split.
    + rewrite (Hsame (method q objs)); [|apply Hkeep]. by rewrite -app_assoc.
    + intros p. by rewrite Hflags Hkeep.
  - rewrite decide_False; [|rewrite Hsys /= Hact; congruence].
    apply IH. intros p Hp. apply Hvalid. by right.
Qed.

Lemma pass_spec method this :
  keeps_flags method → work_order_valid this →
  ∃ this',
    pass method this
      = Some (this', active_systems (objects this) (m_SystemWorkOrder this)) ∧
    m_SystemWorkOrder this' = m_SystemWorkOrder this ∧
    (∀ p, IsActive <$> objects this' !! p = IsActive <$> objects this !! p).
Proof.
  intros Hkeep Hvalid. unfold pass.
  destruct (pass_for_spec method (m_SystemWorkOrder this) (objects this) [] Hkeep Hvalid)
    as (objs' & -> & Hflags).
  eexists. by split_and!.
Qed.



Lemma keeps_flags_id : keeps_flags (λ _ objs, objs).
Proof. done. Qed.


Lemma active_systems_masked (objs : gmap Z ISystem) (order : list Z) mask :
  length mask = length order →
  (∀ i p, order !! i = Some p → IsActive <$> objs !! p = mask !! i) →
  active_systems objs order = masked_systems order mask.
Proof.
  revert mask. induction order as [|q order IH]; intros [|b mask] Hlen Hbits;
    simplify_eq/=; [done|].
  pose proof (Hbits 0 q eq_refl) as H0. simpl in H0.
  assert (IH' : active_systems objs order = masked_systems order mask).
  { apply IH; [done|]. intros i p Hp. apply (Hbits (S i) p Hp). }
  change (masked_systems (q :: order) (b :: mask))
    with ((filter (λ pb, pb.2 = true) ((q, b) :: zip order mask)).*1).
  unfold active_systems. rewrite !filter_cons. fold (active_systems objs order).
  rewrite IH' H0. by destruct b.
Qed.

(** X4. A written mask selects the systems of the following passes: after
    [SetSystemWorkState mask], a pass whose methods keep the flags calls
    exactly the systems whose bit of the mask is set, in work-order order
    (no system standing twice in the work order). *)
Theorem SetSystemWorkState_selects_calls upd mask this :
  keeps_flags upd →
  work_order_valid this → NoDup (m_SystemWorkOrder this) →
  length mask = length (m_SystemWorkOrder this) →
  ∃ this1 this2,
    SetSystemWorkState mask this = Some this1 ∧
    Update upd this1 = Some (this2, masked_systems (m_SystemWorkOrder this) mask).
Proof.
  intros Hkeep Hvalid Hnd Hlen.
  destruct (SetSystemWorkState_then_Get mask this Hvalid Hnd Hlen)
    as (this1 & Hset & Hwo & Hbits & Hget).
  assert (Hv1 : work_order_valid this1).
  { intros p Hp. rewrite Hwo in Hp.
    apply list_elem_of_lookup_1 in Hp as [i Hi]. pose proof (Hbits i p Hi) as Hb.
    destruct (lookup_lt_is_Some_2 mask i) as [b Hbi].
    { rewrite Hlen. by eapply lookup_lt_Some. }
    rewrite Hbi in Hb. destruct (objects this1 !! p); [by eexists|done]. }
  destruct (pass_spec upd this1 Hkeep Hv1) as (this2 & Hrun & _ & _).
  exists this1, this2. split; [done|].
  unfold Update. rewrite Hrun Hwo. do 2 f_equal.
  by apply active_systems_masked.
Qed.

Lemma SetSystemWorkState_selects_calls_witness :
  ∃ this1 this2,
    SetSystemWorkState [true; false; false; true] example_scheduled = Some this1 ∧
    Update (λ _ objs, objs) this1
      = Some (this2, masked_systems (m_SystemWorkOrder example_scheduled)
                       [true; false; false; true]).
Proof.
  exact (SetSystemWorkState_selects_calls (λ _ objs, objs) [true; false; false; true]
           example_scheduled keeps_flags_id work_order_valid_example_scheduled
           NoDup_example_scheduled eq_refl).
Defined.

(** ** Scheduling and masks *)

Lemma Forall2_NoDup_inj {A B} (R : A → B → Prop) (l : list A) (k : list B) :
  (∀ x x' y, R x y → R x' y → x = x') →
  Forall2 R l k → NoDup l → NoDup k.
Proof.
  intros Hinj HR. induction HR as [|x y l k Hxy HR IH]; intros Hnd; [constructor|].
  apply NoDup_cons in Hnd as [Hx Hnd]. apply NoDup_cons. split; [|by apply IH].
  intros Hy. apply list_elem_of_lookup_1 in Hy as [i Hi].
  destruct (Forall2_lookup_r _ _ _ _ _ HR Hi) as (x' & Hx' & Hxy').
  apply Hx. rewrite (Hinj x x' y Hxy Hxy'). by eapply list_elem_of_lookup_2.
Qed.

Lemma UpdateSystemWorkOrder_work_order MAX LOWEST this :
  square (m_SystemDependencyMatrix this) → registered this →
  ∃ this',
    UpdateSystemWorkOrder MAX LOWEST this = Some this' ∧
    objects this' = objects this ∧
    length (m_SystemWorkOrder this') = length (m_SystemDependencyMatrix this) ∧
    work_order_valid this' ∧
    (registry_injective this → NoDup (m_SystemWorkOrder this')).
Proof.
  intros Hsq Hreg.
  destruct (UpdateSystemWorkOrder_spec MAX LOWEST this Hsq Hreg)
    as (_ & _ & _ & ids & this' & _ & _ & _ & _ & _ & _ & _ & _ & Hids & _ & Hrun & Hwo
        & Hobj & _ & _).
  exists this'. split_and!; [done|done| | |].
  - rewrite -(Forall2_length _ _ _ Hwo) Hids. apply length_seq.
  - intros p Hp. apply list_elem_of_lookup_1 in Hp as [i Hi].
    destruct (Forall2_lookup_r _ _ _ _ _ Hwo Hi) as (m & Hm & Hmp).
    assert (m ∈ seq 0 (length (m_SystemDependencyMatrix this))) as Hin.
    { rewrite -Hids. by eapply list_elem_of_lookup_2. }
    apply elem_of_seq in Hin. destruct (Hreg m) as (p' & sys & Hp' & Hsys); [lia|].
    rewrite Hobj. simplify_eq. by eexists.
  - intros Hinj. eapply Forall2_NoDup_inj; [|exact Hwo|].
    + intros x x' y Hx Hx'. exact (Hinj x x' y Hx Hx').
    + rewrite Hids. apply NoDup_seq.
Qed.

(** X5. Scheduling prepares the work-state interface: after
    [UpdateSystemWorkOrder] on a square matrix over registered systems, no
    two type ids sharing one system object, every mask with one bit per
    system is accepted by [SetSystemWorkState] and read back unchanged by
    [GetSystemWorkState]. *)
Theorem scheduled_mask_round_trip MAX LOWEST mask this :
  square (m_SystemDependencyMatrix this) → registered this →
  registry_injective this →
  length mask = length (m_SystemDependencyMatrix this) →
  ∃ this1 this2,
    UpdateSystemWorkOrder MAX LOWEST this = Some this1 ∧
    SetSystemWorkState mask this1 = Some this2 ∧
    GetSystemWorkState this2 = Some mask.
Proof.
  intros Hsq Hreg Hinj Hlen.
  destruct (UpdateSystemWorkOrder_work_order MAX LOWEST this Hsq Hreg)
    as (this1 & Hrun & _ & Hn & Hvalid & Hnd).
  destruct (SetSystemWorkState_then_Get mask this1 Hvalid (Hnd Hinj))
    as (this2 & Hset & _ & _ & Hget); [congruence|].
  by exists this1, this2.
Qed.

Lemma registry_injective_example_ABCD : registry_injective example_ABCD.
Proof.
  intros i j p Hi Hj.
  apply elem_of_map_to_list in Hi, Hj.
  let l := eval vm_compute in (map_to_list (m_Systems example_ABCD)) in
  change (map_to_list (m_Systems example_ABCD)) with l in Hi, Hj.
  set_unfold in Hi. set_unfold in Hj.
  destruct_or! Hi; destruct_or! Hj; simplify_eq; done.
Qed.

Lemma scheduled_mask_round_trip_witness :
  ∃ this1 this2,
    UpdateSystemWorkOrder 65535 0 example_ABCD = Some this1 ∧
    SetSystemWorkState [false; true; true; false] this1 = Some this2 ∧
    GetSystemWorkState this2 = Some [false; true; true; false].
Proof.
  exact (scheduled_mask_round_trip 65535 0 [false; true; true; false] example_ABCD
           square_example_ABCD registered_example_ABCD
           registry_injective_example_ABCD eq_refl).
Defined.

(** X6. Scheduling does not look at the active flags: the work order
    computed after a [SetSystemWorkState] is the one computed without it
    (where the scheduler fails, it fails in both cases). *)
Theorem UpdateSystemWorkOrder_ignores_flags MAX LOWEST mask this this' :
  SetSystemWorkState mask this = Some this' →
  m_SystemWorkOrder <$> UpdateSystemWorkOrder MAX LOWEST this'
  = m_SystemWorkOrder <$> UpdateSystemWorkOrder MAX LOWEST this.
Proof.
  unfold SetSystemWorkState. intros Hset. case_decide; [|done].
  destruct (SetSystemWorkState_for _ _ _ _) as [objs'|] eqn:Hrun; simplify_eq/=.
  apply SetSystemWorkState_for_frame in Hrun as [Hprio _].
  unfold UpdateSystemWorkOrder.
  rewrite (work_order_ids_ext MAX LOWEST this); [|done|]; last first.
  { intros i. unfold priority_of, system_at. simpl.
    destruct (m_Systems this !! i) as [p|]; [simpl|done]. apply Hprio. }
  simpl. destruct (work_order_ids MAX LOWEST this) as [ids|]; [simpl|done].
  by destruct (mapM _ ids).
Qed.

Lemma UpdateSystemWorkOrder_ignores_flags_witness :
  m_SystemWorkOrder <$> UpdateSystemWorkOrder 65535 0
    (default example_scheduled (SetSystemWorkState [true; false; false; true] example_scheduled))
  = m_SystemWorkOrder <$> UpdateSystemWorkOrder 65535 0 example_scheduled.
Proof.
  apply (UpdateSystemWorkOrder_ignores_flags 65535 0 [true; false; false; true]).
  vm_compute. reflexivity.
Defined.

(** ** The shape of the partition *)

Lemma member_for_run M index ks (INDICES : list Z) member INDICES' member' :
  member_for M index ks INDICES member = Some (INDICES', member') →
  length INDICES' = length INDICES ∧
  (marks INDICES → marks INDICES') ∧
  ∃ new, member' = member ++ new ∧ ∀ j, j ∈ new → j ∈ ks ∧ adjacent M index j.
Proof.
  revert INDICES member. induction ks as [|i ks IH]; intros INDICES member Hrun.
  { simplify_eq/=. split_and!; [done..|]. exists []. rewrite app_nil_r.
    split; [done|]. by intros j ?%elem_of_nil. }
  cbn [member_for] in Hrun.
  destruct (INDICES !! i) as [x|] eqn:Hx; [simpl in Hrun|done].
  destruct (if decide (x ≠ (-1)%Z)
            then at2 M i index ≫= λ a : bool, if a then Some true else at2 M index i
            else Some false) as [c|] eqn:Hc; [simpl in Hrun|done].
  destruct c.
  - apply IH in Hrun as (Hlen & Hmarks & new & -> & Hnew). split_and!.
    + by rewrite Hlen length_insert.
    + intros Hm. apply Hmarks. intros j y. destruct (decide (j = i)) as [->|].
      * rewrite list_lookup_insert_eq; [|by eapply lookup_lt_Some].
        intros [= <-]. by left.
      * rewrite list_lookup_insert_ne //. apply Hm.
    + exists (i :: new). split; [by rewrite -app_assoc|].
      intros j [->|Hj]%elem_of_cons.
      * split; [by left|]. case_decide; [|done].
        unfold adjacent, dep.
        destruct (at2 M i index) as [[]|]; simplify_eq/=; [by right|by left].
      * destruct (Hnew j Hj). split; [by right|done].
  - apply IH in Hrun as (Hlen & Hmarks & new & -> & Hnew). split_and!; [done..|].
    exists new. split; [done|]. intros j Hj. destruct (Hnew j Hj). split; [by right|done].
Qed.

Lemma member_while_run this fuel (INDICES : list Z) member group p INDICES' group' p' :
  member_while fuel this INDICES member group p = Some (INDICES', group', p') →
  length INDICES' = length INDICES ∧
  (marks INDICES → marks INDICES') ∧
  ∃ t, group' = group ++ t ∧
       head t = last member ∧
       ∀ j, j ∈ t →
         (j ∈ member ∨ j < length INDICES) ∧
         ∃ s, s ∈ member ∧ rtc (adjacent (m_SystemDependencyMatrix this)) s j.
Proof.
  revert INDICES member group p.
  induction fuel as [|fuel IH]; intros INDICES member group p Hrun;
    (destruct (pop_back member) as [[m0 index]|] eqn:Hpop;
     [apply pop_back_Some in Hpop as ->|apply pop_back_None in Hpop as ->]).
  2,4: (simplify_eq/=; (split_and!; [done..|]); exists [];
        rewrite app_nil_r; (split_and!; [done..|]); by intros j ?%elem_of_nil).
  { simpl in Hrun. by rewrite pop_back_snoc in Hrun. }
  cbn [member_while] in Hrun. rewrite pop_back_snoc in Hrun.
  destruct (member_for _ _ _ _ _) as [[I1 mem1]|] eqn:Hfor; [simpl in Hrun|done].
  destruct (system_at this index) as [sys|]; [simpl in Hrun|done].
  apply member_for_run in Hfor as (Hlen1 & Hmarks1 & new & -> & Hnew).
  apply IH in Hrun as (Hlen & Hmarks & t & -> & Hhead & Ht).
  split_and!; [congruence|by auto|].
  exists (index :: t). split_and!.
  - by rewrite -app_assoc.
  - by rewrite last_snoc.
  - intros j [->|Hj]%elem_of_cons.
    { split; [left; set_solver|]. exists index. split; [set_solver|done]. }
    destruct (Ht j Hj) as [Hwhere (s & Hs & Hreach)]. split.
    + destruct Hwhere as [[?|Hjn]%elem_of_app|?]; [left; set_solver| |right; lia].
      right. destruct (Hnew j Hjn) as [?%elem_of_seq _]. lia.
    + apply elem_of_app in Hs as [Hs|Hs]; [exists s; split; [set_solver|done]|].
      exists index. split; [set_solver|].
      eapply rtc_l; [|done]. by apply Hnew.
Qed.

Lemma groups_while_run LOWEST this fuel (INDICES : list Z) VG GP VG' GP' :
  groups_while LOWEST fuel this INDICES VG GP = Some (VG', GP') →
  marks INDICES →
  ∃ new, VG' = VG ++ new ∧
    Forall (λ g, led (m_SystemDependencyMatrix this) g ∧ leader g < length INDICES) new ∧
    StronglySorted (λ g h, leader h < leader g) new.
Proof.
  revert INDICES VG GP.
  induction fuel as [|fuel IH]; intros INDICES VG GP Hrun Hmarks;
    (destruct (pop_back INDICES) as [[I x]|] eqn:Hpop;
     [apply pop_back_Some in Hpop as ->|apply pop_back_None in Hpop as ->]).
  2,4: (simplify_eq/=; exists []; rewrite app_nil_r;
        split_and!; [done|constructor|constructor]).
  { simpl in Hrun. by rewrite pop_back_snoc in Hrun. }
  cbn [groups_while] in Hrun. rewrite pop_back_snoc in Hrun.
  assert (HmI : marks I).
  { intros j y Hy. apply (Hmarks j). by apply lookup_app_l_Some. }
  rewrite length_app /=.
  destruct (decide (x = (-1)%Z)) as [->|Hx].
  { apply IH in Hrun as (new & -> & Hall & Hsorted); [|done].
    exists new. split_and!; [done| |done].
    eapply Forall_impl; [exact Hall|]. simpl. intros g [? ?]. split; [done|lia]. }
  assert (x = Z.of_nat (length I)) as ->.
  { destruct (Hmarks (length I) x) as [?|?]; [|done..].
    by rewrite lookup_app_r // Nat.sub_diag. }
  rewrite Nat2Z.id in Hrun.
  destruct (member_while _ _ _ _ _ _) as [[[I' g] p]|] eqn:Hmem; [simpl in Hrun|done].
  apply member_while_run in Hmem as (Hlen & HmI' & t & Hg & Hhead & Ht).
  simpl in Hg, Hhead. subst g.
  apply IH in Hrun as (new & -> & Hall & Hsorted); [|by auto].
  exists (t :: new). split_and!.
  - by rewrite -app_assoc.
  - constructor.
    + split; [|rewrite /leader Hhead /=; lia].
      exists (length I). split; [done|]. intros j Hj.
      destruct (Ht j Hj) as [Hwhere (s & ->%list_elem_of_singleton & Hreach)].
      split; [|done]. destruct Hwhere as [->%list_elem_of_singleton|?]; lia.
    + eapply Forall_impl; [exact Hall|]. simpl. intros g [? ?]. split; [done|lia].
  - constructor; [done|].
    eapply Forall_impl; [exact Hall|]. simpl. intros g [_ Hlt].
    unfold leader in Hlt |- *. rewrite Hhead /=. lia.
Qed.

Lemma marks_seq n : marks (Z.of_nat <$> seq 0 n).
Proof.
  intros j x. rewrite list_lookup_fmap. intros Hx. right.
  destruct (seq 0 n !! j) as [y|] eqn:Hy; [|done].
  apply lookup_seq in Hy as [-> _]. simpl in Hx. by injection Hx as <-.
Qed.

Lemma vertex_groups_led LOWEST this VG GP :
  vertex_groups LOWEST this = Some (VG, GP) →
  Forall (led (m_SystemDependencyMatrix this)) VG ∧
  StronglySorted (λ g h, leader h < leader g) VG.
Proof.
  unfold vertex_groups. intros Hrun.
  apply groups_while_run in Hrun as (new & -> & Hall & Hsorted); [|apply marks_seq].
  split; [|done]. eapply Forall_impl; [exact Hall|]. by intros g [? _].
Qed.

Lemma rtc_adjacent_sym M x y : rtc (adjacent M) x y → rtc (adjacent M) y x.
Proof.
  induction 1 as [|x y z Hxy _ IH]; [done|].
  eapply rtc_r; [exact IH|]. by apply adjacent_sym.
Qed.

Lemma closed_rtc_adjacent M g x y :
  closed M g → x ∈ g → rtc (adjacent M) x y → y ∈ g.
Proof. intros Hcl Hx Hreach. induction Hreach; eauto. Qed.

(** X7. The groups of the partition are the connected components of the
    dependency graph, read without direction.  Every system lies in exactly
    one group, no group is empty, a group holds with each member exactly the
    systems linked to it, and two systems are in one group exactly when a
    chain of dependencies, each followed in either direction, links them. *)
Theorem vertex_groups_are_components LOWEST this :
  square (m_SystemDependencyMatrix this) → registered this →
  ∃ VG GP,
    vertex_groups LOWEST this = Some (VG, GP) ∧
    concat VG ≡ₚ seq 0 (length (m_SystemDependencyMatrix this)) ∧
    Forall (λ g, g ≠ []) VG ∧
    (∀ g x y, g ∈ VG → x ∈ g →
       (y ∈ g ↔ rtc (adjacent (m_SystemDependencyMatrix this)) x y)) ∧
    (∀ x y, x < length (m_SystemDependencyMatrix this) →
       ((∃ g, g ∈ VG ∧ x ∈ g ∧ y ∈ g)
        ↔ rtc (adjacent (m_SystemDependencyMatrix this)) x y)).
Proof.
  intros Hsq Hreg.
  destruct (vertex_groups_spec LOWEST this Hsq Hreg)
    as (VG & GP & Hrun & Hperm & Hcl & Hne & _).
  destruct (vertex_groups_led LOWEST this VG GP Hrun) as [Hled _].
  rewrite Forall_forall in Hcl. rewrite Forall_forall in Hled.
  assert (Hcomp : ∀ g x y, g ∈ VG → x ∈ g →
            (y ∈ g ↔ rtc (adjacent (m_SystemDependencyMatrix this)) x y)).
  { intros g x y Hg Hx. destruct (Hled g Hg) as (s & _ & Hs). split.
    - intros Hy. etrans; [apply rtc_adjacent_sym; by apply Hs|by apply Hs].
    - intros Hreach. eapply closed_rtc_adjacent; [by apply Hcl|done..]. }
  exists VG, GP. split_and!; [done..|].
  intros x y Hx. split.
  - intros (g & Hg & Hxg & Hyg). by apply (Hcomp g x y Hg Hxg).
  - intros Hreach.
    assert (x ∈ concat VG) as (g & Hxg & Hg)%elem_of_concat.
    { rewrite Hperm. apply elem_of_seq. lia. }
    exists g. split_and!; [done..|]. by apply (Hcomp g x y Hg Hxg).
Qed.

Lemma vertex_groups_are_components_witness :
  ∃ VG GP,
    vertex_groups 0 example_ABCD = Some (VG, GP) ∧
    concat VG ≡ₚ seq 0 (length (m_SystemDependencyMatrix example_ABCD)) ∧
    Forall (λ g, g ≠ []) VG ∧
    (∀ g x y, g ∈ VG → x ∈ g →
       (y ∈ g ↔ rtc (adjacent (m_SystemDependencyMatrix example_ABCD)) x y)) ∧
    (∀ x y, x < length (m_SystemDependencyMatrix example_ABCD) →
       ((∃ g, g ∈ VG ∧ x ∈ g ∧ y ∈ g)
        ↔ rtc (adjacent (m_SystemDependencyMatrix example_ABCD)) x y)).
Proof.
  exact (vertex_groups_are_components 0 example_ABCD
           square_example_ABCD registered_example_ABCD).
Defined.

(** X8. The partition finds the groups from the highest type id down: the
    first member of a group is its largest member, and every group found
    later has a smaller first member. *)
Theorem vertex_groups_by_descending_leader LOWEST this :
  square (m_SystemDependencyMatrix this) → registered this →
  ∃ VG GP,
    vertex_groups LOWEST this = Some (VG, GP) ∧
    (∀ g j, g ∈ VG → j ∈ g → head g = Some (leader g) ∧ j ≤ leader g) ∧
    (∀ a b ga gb, VG !! a = Some ga → VG !! b = Some gb → a < b →
                  leader gb < leader ga).
Proof.
  intros Hsq Hreg.
  destruct (vertex_groups_spec LOWEST this Hsq Hreg) as (VG & GP & Hrun & _).
  destruct (vertex_groups_led LOWEST this VG GP Hrun) as [Hled Hsorted].
  exists VG, GP. split_and!; [done| |].
  - intros g j Hg Hj. rewrite Forall_forall in Hled.
    destruct (Hled g Hg) as (s & Hs & Hall). rewrite /leader Hs /=.
    split; [done|]. by apply Hall.
  - intros a b ga gb Ha Hb Hab.
    exact (StronglySorted_lookup _ _ _ _ _ _ Hsorted Hab Ha Hb).
Qed.

Lemma vertex_groups_by_descending_leader_witness :
  ∃ VG GP,
    vertex_groups 0 example_ABCD = Some (VG, GP) ∧
    (∀ g j, g ∈ VG → j ∈ g → head g = Some (leader g) ∧ j ≤ leader g) ∧
    (∀ a b ga gb, VG !! a = Some ga → VG !! b = Some gb → a < b →
                  leader gb < leader ga).
Proof.
  exact (vertex_groups_by_descending_leader 0 example_ABCD
           square_example_ABCD registered_example_ABCD).
Defined.

(** ** The order of the groups in terms of type ids *)

(** Where the systems of two groups stand in the work order, by the group
    priorities and the order of discovery. *)
Lemma group_blocks_before MAX LOWEST this :
  square (m_SystemDependencyMatrix this) → registered this →
  priorities_ok MAX LOWEST this →
  ∃ VG GP this' ids,
    vertex_groups LOWEST this = Some (VG, GP) ∧
    UpdateSystemWorkOrder MAX LOWEST this = Some this' ∧
    Forall2 (λ m p, m_Systems this !! m = Some p) ids (m_SystemWorkOrder this') ∧
    ∀ a b ga gb pa pb x y,
      VG !! a = Some ga → VG !! b = Some gb →
      GP !! a = Some pa → GP !! b = Some pb →
      x ∈ ga → y ∈ gb →
      (pb < pa ∨ pa = pb ∧ (a < b)%nat)%Z →
      before ids x y.
Proof.
  intros Hsq Hreg [Hlow Hrange].
  destruct (UpdateSystemWorkOrder_spec MAX LOWEST this Hsq Hreg)
    as (VG & GP & orders & ids & this' & Hvg & Hperm & Hcl & Hne & Hprio & Horders & _ & Hids
        & Hidsp & _ & Hrun & Hwo & _).
  assert (Hin : ∀ k p, GP !! k = Some p → (0 ≤ p ≤ MAX)%Z).
  { intros k p Hp.
    destruct (Forall2_lookup_r _ _ _ _ _ Hprio Hp) as (g & Hg & Hlo & Hall & Hex).
    destruct Hex as [->|(m & Hm & Hmp)]; [|specialize (Hrange m p Hmp); lia].
    rewrite Forall_forall in Hne. specialize (Hne g (list_elem_of_lookup_2 _ _ _ Hg)).
    destruct g as [|m g]; [done|].
    destruct (Hall m) as (q & Hq & Hqp); [by left|].
    specialize (Hrange m q Hq). lia. }
  exists VG, GP, this', ids. split_and!; [done..|].
  intros a b ga gb pa pb x y Hga Hgb Hpa Hpb Hx Hy Hord.
  destruct (Forall2_lookup_l _ _ _ _ _ Horders Hga) as (oa & Hoa & Hoga & _).
  destruct (Forall2_lookup_l _ _ _ _ _ Horders Hgb) as (ob & Hob & Hogb & _).
  pose proof (entries_lookup MAX GP orders a pa oa Hpa Hoa) as Hea.
  pose proof (entries_lookup MAX GP orders b pb ob Hpb Hob) as Heb.
  destruct (multimap_from_stable _ _ _ _ _ Hea Heb) as (qa & qb & Hqa & Hqb & Hlt).
  { simpl. rewrite (sort_key_small MAX pa); [|by eapply Hin].
    rewrite (sort_key_small MAX pb); [|by eapply Hin]. lia. }
  rewrite Hids.
  eapply (before_concat_blocks _ qa qb (reverse oa) (reverse ob)); [| |done| |].
  - by rewrite list_lookup_fmap Hqa.
  - by rewrite list_lookup_fmap Hqb.
  - by rewrite elem_of_reverse Hoga.
  - by rewrite elem_of_reverse Hogb.
Qed.

(** X9. Between groups the work order is fixed by two keys: the group
    priority, descending, and then the first member of the group (its
    largest type id), descending.  Every system of a group stands before
    every system of a group of lower priority, or of equal priority and
    smaller first member. *)
Theorem groups_ordered_by_priority_then_leader MAX LOWEST this :
  square (m_SystemDependencyMatrix this) → registered this →
  priorities_ok MAX LOWEST this →
  ∃ VG GP this' ids,
    vertex_groups LOWEST this = Some (VG, GP) ∧
    UpdateSystemWorkOrder MAX LOWEST this = Some this' ∧
    Forall2 (λ m p, m_Systems this !! m = Some p) ids (m_SystemWorkOrder this') ∧
    ∀ a b ga gb pa pb x y,
      VG !! a = Some ga → VG !! b = Some gb →
      GP !! a = Some pa → GP !! b = Some pb →
      x ∈ ga → y ∈ gb →
      (pb < pa ∨ pa = pb ∧ (leader gb < leader ga)%nat)%Z →
      before ids x y.
Proof.
  intros Hsq Hreg Hprio.
  destruct (group_blocks_before MAX LOWEST this Hsq Hreg Hprio)
    as (VG & GP & this' & ids & Hvg & Hrun & Hwo & Hbefore).
  destruct (vertex_groups_led LOWEST this VG GP Hvg) as [_ Hsorted].
  exists VG, GP, this', ids. split_and!; [done..|].
  intros a b ga gb pa pb x y Hga Hgb Hpa Hpb Hx Hy Hord.
  apply (Hbefore a b ga gb pa pb x y); [done..|].
  destruct Hord as [?|[-> Hlead]]; [by left|right]. split; [done|].
  destruct (decide (a < b)) as [|Hge]; [done|exfalso].
  destruct (decide (a = b)) as [->|Hne]; [simplify_eq; lia|].
  assert (b < a) as Hba by lia.
  pose proof (StronglySorted_lookup _ _ _ _ _ _ Hsorted Hba Hgb Hga). simpl in *. lia.
Qed.

Lemma groups_ordered_by_priority_then_leader_witness :
  ∃ VG GP this' ids,
    vertex_groups 0 example_ABCD = Some (VG, GP) ∧
    UpdateSystemWorkOrder 65535 0 example_ABCD = Some this' ∧
    Forall2 (λ m p, m_Systems example_ABCD !! m = Some p) ids (m_SystemWorkOrder this') ∧
    ∀ a b ga gb pa pb x y,
      VG !! a = Some ga → VG !! b = Some gb →
      GP !! a = Some pa → GP !! b = Some pb →
      x ∈ ga → y ∈ gb →
      (pb < pa ∨ pa = pb ∧ (leader gb < leader ga)%nat)%Z →
      before ids x y.
Proof.
  exact (groups_ordered_by_priority_then_leader 65535 0 example_ABCD
           square_example_ABCD registered_example_ABCD priorities_ok_example_ABCD).
Defined.

(** * Further facts about the entity container *)

Section Entities.

Context (sizeof_T : Z) (AMOUNT : nat).

Lemma live_entities_insert chunks k chunk chunk' :
  chunks !! k = Some chunk →
  live_entities {| m_Chunks := chunks |}
    = concat (entities <$> take k chunks) ++ entities chunk
        ++ concat (entities <$> drop (S k) chunks) ∧
  live_entities {| m_Chunks := <[k := chunk']> chunks |}
    = concat (entities <$> take k chunks) ++ entities chunk'
        ++ concat (entities <$> drop (S k) chunks).
Proof.
  intros Hk. unfold live_entities. simpl. split.
  - rewrite -{1}(take_drop_middle chunks k chunk Hk).
    by rewrite fmap_app concat_app.
  - rewrite insert_take_drop; [|by eapply lookup_lt_Some].
    by rewrite fmap_app concat_app.
Qed.

(** What a call does to the address ranges of the chunks. *)
Lemma CreateEntity_ranges this gm slot this' gm' :
  CreateEntity sizeof_T AMOUNT this gm = Some (slot, this', gm') →
  (ranges (m_Chunks this') = ranges (m_Chunks this) ∧ gm' = gm) ∨
  (∃ r, ranges (m_Chunks this') = r :: ranges (m_Chunks this)).
Proof.
  rewrite CreateEntity_design_eq. unfold CreateEntity_design.
  destruct (list_find _ _) as [[k chunk]|] eqn:Hfind.
  - apply list_find_Some in Hfind as (Hk & _ & _).
    destruct (allocate (allocator chunk)) as [[s|] a]; intros ?; simplify_eq/=.
    left. split; [|done]. by eapply ranges_insert.
  - destruct (allocate _) as [[s|] a]; intros ?; simplify_eq/=.
    right. by eexists.
Qed.

Lemma DestroyEntity_ranges e this this' :
  DestroyEntity e this = Some this' →
  ranges (m_Chunks this') = ranges (m_Chunks this).
Proof.
  rewrite DestroyEntity_find.
  destruct (list_find _ _) as [[k chunk]|] eqn:Hfind; intros ?; simplify_eq/=.
  apply list_find_Some in Hfind as (Hk & _ & _). by eapply ranges_insert.
Qed.

(** X10. A successful [CreateEntity] adds the returned address to the live
    entities and takes none away, whatever the state of the pools; the chunk
    list stays as it is or gets one chunk in front. *)
Theorem CreateEntity_adds_one_entity this gm slot this' gm' :
  CreateEntity sizeof_T AMOUNT this gm = Some (slot, this', gm') →
  live_entities this' ≡ₚ slot :: live_entities this ∧
  (length (m_Chunks this') = length (m_Chunks this) ∨
   length (m_Chunks this') = S (length (m_Chunks this))).
Proof.
  rewrite CreateEntity_design_eq. unfold CreateEntity_design.
  destruct (list_find _ _) as [[k chunk]|] eqn:Hfind.
  - apply list_find_Some in Hfind as (Hk & _ & _).
    destruct (allocate (allocator chunk)) as [[s|] a]; intros ?; simplify_eq/=.
    split; [|left; by rewrite length_insert].
    destruct (live_entities_insert (m_Chunks this) k chunk (push_entity chunk a slot) Hk)
      as [Hold ->].
    destruct this as [chunks]. simpl in *. rewrite Hold. simpl. solve_Permutation.
  - destruct (allocate _) as [[s|] a]; intros ?; simplify_eq/=.
    split; [|by right]. done.
Qed.

Lemma filter_ne_idemp (e : Z) (l : list Z) :
  filter (λ x, x ≠ e) (filter (λ x, x ≠ e) l) = filter (λ x, x ≠ e) l.
Proof.
  induction l as [|x l IH]; [done|]. rewrite filter_cons.
  destruct (decide (x ≠ e)); [|done]. rewrite filter_cons decide_True //. by rewrite IH.
Qed.

(** X11. [DestroyEntity] does not look whether the entity is live: after a
    successful call a second call with the same address succeeds as well; it
    changes no entity list, and the pool of the owning chunk is handed the
    same slot a second time. *)
Theorem DestroyEntity_again e this this1 :
  DestroyEntity e this = Some this1 →
  ∃ this2 k chunk,
    DestroyEntity e this1 = Some this2 ∧
    m_Chunks this !! k = Some chunk ∧
    m_Chunks this2 !! k
      = Some {| allocator := free e (free e (allocator chunk));
                entities := filter (λ x, x ≠ e) (entities chunk);
                chunkStart := chunkStart chunk;
                chunkEnd := chunkEnd chunk |} ∧
    entities <$> m_Chunks this2 = entities <$> m_Chunks this1.
Proof.
  rewrite !DestroyEntity_find.
  destruct (list_find _ (m_Chunks this)) as [[k chunk]|] eqn:Hfind;
    intros ?; simplify_eq/=.
  apply list_find_Some in Hfind as (Hk & Howns & Hfirst).
  assert (Hfind1 : list_find (owns e) (<[k := remove_entity e chunk]> (m_Chunks this))
                   = Some (k, remove_entity e chunk)).
  { apply list_find_Some. split_and!.
    - rewrite list_lookup_insert_eq //. by eapply lookup_lt_Some.
    - done.
    - intros j y Hj Hjk. rewrite list_lookup_insert_ne in Hj; [|lia]. by eapply Hfirst. }
  rewrite Hfind1. eexists _, k, chunk. split_and!; [done|done| |].
  - simpl. rewrite list_insert_insert_eq list_lookup_insert_eq; [|by eapply lookup_lt_Some].
    unfold remove_entity. simpl. by rewrite filter_ne_idemp.
  - simpl. rewrite list_insert_insert_eq !list_fmap_insert /=. by rewrite filter_ne_idemp.
Qed.

(** X12. The container never gives a chunk back nor moves one: through any
    sequence of calls, the address ranges of the chunks present at the start
    remain, in their order, at the back of the chunk list. *)
Theorem chunks_never_released calls st :
  Forall (λ st', ranges (m_Chunks st.1) `suffix_of` ranges (m_Chunks st'.1))
         (states sizeof_T AMOUNT calls st).
Proof.
  revert st. induction calls as [|call calls IH]; intros st; simpl.
  { by apply Forall_singleton. }
  constructor; [done|].
  destruct (call_step sizeof_T AMOUNT call st) as [st'|] eqn:Hstep; [|constructor].
  eapply Forall_impl; [apply IH|]. simpl. intros st'' Hsuffix.
  etrans; [|exact Hsuffix]. destruct st as [this gm]. destruct call as [|e]; simpl in Hstep.
  - destruct (CreateEntity _ _ _ _) as [[[slot this'] gm']|] eqn:Hrun; simplify_eq/=.
    apply CreateEntity_ranges in Hrun as [[-> _]|[r ->]]; [done|].
    by apply suffix_cons_r.
  - destruct (DestroyEntity _ _) as [this'|] eqn:Hrun; simplify_eq/=.
    apply DestroyEntity_ranges in Hrun as ->. done.
Qed.

End Entities.

Lemma CreateEntity_adds_one_entity_witness :
  ∃ slot this' gm',
    CreateEntity 16 2 example_container.1 example_container.2 = Some (slot, this', gm') ∧
    live_entities this' ≡ₚ slot :: live_entities example_container.1 ∧
    (length (m_Chunks this') = length (m_Chunks example_container.1) ∨
     length (m_Chunks this') = S (length (m_Chunks example_container.1))).
Proof.
  eexists _, _, _. split; [vm_compute; reflexivity|].
  eapply (CreateEntity_adds_one_entity 16 2 example_container.1 example_container.2).
  vm_compute. reflexivity.
Defined.

Lemma DestroyEntity_again_witness :
  ∃ this2 k chunk,
    DestroyEntity 4100 (default example_container.1 (DestroyEntity 4100 example_container.1))
      = Some this2 ∧
    m_Chunks example_container.1 !! k = Some chunk ∧
    m_Chunks this2 !! k
      = Some {| allocator := free 4100 (free 4100 (allocator chunk));
                entities := filter (λ x, x ≠ 4100%Z) (entities chunk);
                chunkStart := chunkStart chunk;
                chunkEnd := chunkEnd chunk |} ∧
    entities <$> m_Chunks this2
      = entities <$> m_Chunks (default example_container.1
                                 (DestroyEntity 4100 example_container.1)).
Proof.
  apply (DestroyEntity_again 4100 example_container.1). vm_compute. reflexivity.
Defined.

Section Capacity.

Context (sizeof_T : Z) (AMOUNT : nat).
Context (Hsize : (0 < sizeof_T)%Z).

(** The number of the slot of size [sizeof_T] an address falls in, counted
    from [s]. *)
Let slot_index (s e : Z) : nat := Z.to_nat ((e - s) `div` sizeof_T).

Lemma slot_index_spec s e :
  (s ≤ e)%Z →
  ∃ r, (e - s = sizeof_T * Z.of_nat (slot_index s e) + r ∧ 0 ≤ r < sizeof_T)%Z.
Proof using Hsize.
  intros Hle. exists ((e - s) `mod` sizeof_T)%Z. unfold slot_index.
  rewrite Z2Nat.id; [|apply Z.div_pos; lia].
  split; [apply Z.div_mod; lia|apply Z.mod_pos_bound; lia].
Qed.

(** Entities that lie apart in a block of [A] slots are at most [A]. *)
Lemma slots_capacity (s : Z) (A : nat) (l : list Z) :
  Forall (λ e, s ≤ e ∧ e + sizeof_T ≤ s + sizeof_T * Z.of_nat A)%Z l →
  no_overlap sizeof_T l → length l ≤ A.
Proof using Hsize.
  intros Hin Hno.
  assert (Hnd : NoDup (slot_index s <$> l)).
  { induction l as [|e l IH]; [constructor|].
    apply Forall_cons in Hin as [He Hin]. destruct Hno as [Hap Hno].
    rewrite fmap_cons. apply NoDup_cons. split; [|by apply IH].
    intros (e' & Heq & He')%list_elem_of_fmap.
    rewrite Forall_forall in Hin. rewrite Forall_forall in Hap.
    specialize (Hin e' He'). specialize (Hap e' He'). unfold apart in Hap.
    destruct (slot_index_spec s e) as (r & Hr & Hr'); [lia|].
    destruct (slot_index_spec s e') as (r' & Hq & Hq'); [lia|].
    rewrite -Heq in Hq. lia. }
  assert (Hsub : slot_index s <$> l ⊆+ seq 0 A).
  { apply NoDup_submseteq; [done|].
    intros i (e & -> & He)%list_elem_of_fmap. apply elem_of_seq.
    rewrite Forall_forall in Hin. specialize (Hin e He).
    destruct (slot_index_spec s e) as (r & Hr & Hr'); [lia|]. nia. }
  apply submseteq_length in Hsub. by rewrite length_fmap length_seq in Hsub.
Qed.

Lemma chunk_capacity gm chunk :
  chunk_inv sizeof_T AMOUNT gm chunk → length (entities chunk) ≤ AMOUNT.
Proof using Hsize.
  intros (Hend & _ & Hin & Hno). apply (slots_capacity (chunkStart chunk)); [|done].
  eapply Forall_impl; [exact Hin|]. simpl. unfold ALLOC_SIZE in Hend. lia.
Qed.

(** X13. A chunk never holds more entities than its capacity: along every
    sequence of calls on a new container during which the pools hand out
    disjoint slots of their chunk, every chunk has at most
    [ENITY_T_ALLOCATION_AMOUNT] entities, so the test
    [entities.size() > ENITY_T_ALLOCATION_AMOUNT] of [CreateEntity] never
    passes over a chunk. *)
Theorem chunks_within_capacity gm calls :
  pools_sound_along sizeof_T AMOUNT calls (EntityContainer_new sizeof_T AMOUNT gm) →
  Forall (λ st, Forall (λ chunk, length (entities chunk) ≤ AMOUNT) (m_Chunks st.1))
         (states sizeof_T AMOUNT calls (EntityContainer_new sizeof_T AMOUNT gm)).
Proof using Hsize.
  intros Hsound.
  eapply Forall_impl; [apply container_inv_states; [done| |done]|].
  - by apply container_inv_init.
  - intros st [Hall _]. eapply Forall_impl; [exact Hall|]. apply chunk_capacity.
Qed.

Lemma filter_ne_id (e : Z) (l : list Z) : e ∉ l → filter (λ x, x ≠ e) l = l.
Proof.
  induction l as [|x l IH]; [done|]. intros [Hx Hl]%not_elem_of_cons.
  rewrite filter_cons decide_True; [|congruence]. by rewrite IH.
Qed.

Lemma DestroyEntity_at e chunks k chunk :
  chunks !! k = Some chunk → owns e chunk →
  (∀ j y, chunks !! j = Some y → j < k → ¬ owns e y) →
  DestroyEntity e {| m_Chunks := chunks |}
  = Some {| m_Chunks := <[k := remove_entity e chunk]> chunks |}.
Proof.
  intros Hk Howns Hfirst. rewrite DestroyEntity_find.
  simpl. replace (list_find (owns e) chunks) with (Some (k, chunk)); [done|].
  symmetry. by apply list_find_Some.
Qed.

(** With disjoint ranges, a chunk whose range contains an address is the
    only one, so the scan of [DestroyEntity] stops at it. *)
Lemma sole_owner this k chunk e :
  ranges_disjoint this →
  m_Chunks this !! k = Some chunk → owns e chunk →
  ∀ j y, m_Chunks this !! j = Some y → j ≠ k → ¬ owns e y.
Proof.
  intros Hdis Hk [Hlo Hhi] j y Hj Hjk [Hlo' Hhi'].
  destruct (Hdis j k y chunk Hjk Hj Hk); lia.
Qed.

(** The invariant kept by the calls gives both conditions. *)
Lemma container_inv_disjoint st :
  container_inv sizeof_T AMOUNT st →
  ranges_disjoint st.1 ∧ chunks_hold_entities sizeof_T st.1.
Proof.
  intros [Hall Hsorted]. split.
  - assert (Hlt : ∀ i j ci cj, i < j →
              m_Chunks st.1 !! i = Some ci → m_Chunks st.1 !! j = Some cj →
              (chunkEnd cj ≤ chunkStart ci)%Z).
    { intros i j ci cj Hij Hi Hj.
      assert (Hri : ranges (m_Chunks st.1) !! i = Some (chunkStart ci, chunkEnd ci)).
      { unfold ranges. by rewrite list_lookup_fmap Hi. }
      assert (Hrj : ranges (m_Chunks st.1) !! j = Some (chunkStart cj, chunkEnd cj)).
      { unfold ranges. by rewrite list_lookup_fmap Hj. }
      exact (StronglySorted_lookup _ _ _ _ _ _ Hsorted Hij Hri Hrj). }
    intros i j ci cj Hij Hi Hj. destruct (decide (i < j)).
    + right. by eapply (Hlt i j).
    + left. eapply (Hlt j i); [lia|done..].
  - eapply Forall_impl; [exact Hall|]. by intros chunk (_ & _ & ? & ?).
Qed.

(** X14. Create, then destroy: in a container whose chunk ranges are
    pairwise disjoint and whose pools hand out slots inside their chunk and
    apart from its entities, [DestroyEntity] accepts the address
    [CreateEntity] just returned and leaves the live entities, chunk by
    chunk, as they were before the creation; a chunk added by the creation
    stays, empty. *)
Theorem CreateEntity_DestroyEntity this gm slot this1 gm1 :
  ranges_disjoint this →
  Forall (hands_out_sound sizeof_T) (m_Chunks this) →
  CreateEntity sizeof_T AMOUNT this gm = Some (slot, this1, gm1) →
  ∃ this2,
    DestroyEntity slot this1 = Some this2 ∧
    live_entities this2 = live_entities this ∧
    length (m_Chunks this2) = length (m_Chunks this1).
Proof using Hsize.
  intros Hdis Hsound Hrun.
  rewrite CreateEntity_design_eq in Hrun. unfold CreateEntity_design in Hrun.
  destruct this as [chunks]. simpl in *.
  destruct (list_find _ _) as [[k chunk]|] eqn:Hfind.
  - apply list_find_Some in Hfind as (Hk & _ & _).
    destruct (allocate (allocator chunk)) as [[s|] a] eqn:Ha; simplify_eq/=.
    rewrite Forall_forall in Hsound.
    destruct (Hsound chunk (list_elem_of_lookup_2 _ _ _ Hk) slot a Ha) as [Hin Hap].
    assert (Hk1 : <[k := push_entity chunk a slot]> chunks !! k
                  = Some (push_entity chunk a slot)).
    { rewrite list_lookup_insert_eq //. by eapply lookup_lt_Some. }
    assert (Howns : owns slot (push_entity chunk a slot)).
    { unfold owns. simpl. lia. }
    eexists. split.
    { apply (DestroyEntity_at slot _ k _ Hk1 Howns). intros j y Hj Hjk.
      rewrite list_lookup_insert_ne in Hj; [|lia].
      assert (Hown0 : owns slot chunk) by (unfold owns; lia).
      apply (sole_owner {| m_Chunks := chunks |} k chunk slot Hdis Hk Hown0 j y Hj). lia. }
    rewrite list_insert_insert_eq. split; [|by rewrite !length_insert].
    destruct (live_entities_insert chunks k chunk
                (remove_entity slot (push_entity chunk a slot)) Hk) as [-> ->].
    do 2 f_equal. simpl. rewrite filter_app filter_ne_id.
    + rewrite filter_cons decide_False; [|naive_solver]. by rewrite app_nil_r.
    + rewrite Forall_forall in Hap. intros Hslot. specialize (Hap slot Hslot).
      unfold apart in Hap. lia.
  - destruct (allocate _) as [[s|] a] eqn:Ha; simplify_eq/=.
    assert (Hin : slot ∈ free_list (PoolAllocator_new (ALLOC_SIZE sizeof_T AMOUNT)
                                       (next_block gm) sizeof_T)).
    { apply allocate_Some in Ha as [-> _]. by left. }
    apply (new_pool_slots sizeof_T AMOUNT Hsize) in Hin.
    eexists. split.
    { apply (DestroyEntity_at slot (_ :: chunks) 0 _ eq_refl).
      - unfold owns. simpl. lia.
      - intros j y _ Hj. lia. }
    split; [|done]. unfold live_entities. simpl.
    rewrite filter_cons decide_False; [|naive_solver]. done.
Qed.

(** X15. Destroying a live entity removes that entity and no other: in a
    container whose chunk ranges are pairwise disjoint, in whatever order the
    chunks stand, and whose chunks hold their entities inside their range and
    apart, [DestroyEntity] accepts the address of every live entity (the
    assertion at its end is not reached), and afterwards the live entities
    are the former ones without it. *)
Theorem DestroyEntity_removes_entity this e :
  ranges_disjoint this →
  chunks_hold_entities sizeof_T this →
  e ∈ live_entities this →
  ∃ this',
    DestroyEntity e this = Some this' ∧
    live_entities this ≡ₚ e :: live_entities this' ∧
    e ∉ live_entities this'.
Proof using Hsize.
  intros Hdis Hhold He. destruct this as [chunks].
  assert (Hplace : ∀ j y x, chunks !! j = Some y → x ∈ entities y → owns x y).
  { intros j y x Hj Hx. unfold chunks_hold_entities in Hhold.
    rewrite Forall_forall in Hhold.
    destruct (Hhold y (list_elem_of_lookup_2 _ _ _ Hj)) as [Hin _].
    rewrite Forall_forall in Hin. specialize (Hin x Hx). unfold owns. lia. }
  pose proof He as He'. unfold live_entities in He'. simpl in He'.
  apply elem_of_concat in He' as (es & Hes & (chunk & -> & Hchunk)%list_elem_of_fmap).
  apply list_elem_of_lookup_1 in Hchunk as [k Hk].
  pose proof (Hplace k chunk e Hk Hes) as Howns.
  pose proof (sole_owner {| m_Chunks := chunks |} k chunk e Hdis Hk Howns) as Hsole.
  assert (Hother : ∀ j y, chunks !! j = Some y → j ≠ k → e ∉ entities y).
  { intros j y Hj Hjk Hin. by apply (Hsole j y Hj Hjk), (Hplace j). }
  eexists. split.
  { apply (DestroyEntity_at e chunks k chunk Hk Howns).
    intros j y Hj Hjk. apply (Hsole j y Hj). lia. }
  destruct (live_entities_insert chunks k chunk (remove_entity e chunk) Hk) as [-> ->].
  simpl. split.
  - rewrite {1}(filter_remove_Permutation (entities chunk) e); [solve_Permutation| |done].
    apply (no_overlap_NoDup sizeof_T Hsize). unfold chunks_hold_entities in Hhold.
    rewrite Forall_forall in Hhold.
    by destruct (Hhold chunk (list_elem_of_lookup_2 _ _ _ Hk)).
  - rewrite !elem_of_app. intros [Hin|[Hin|Hin]].
    + apply elem_of_concat in Hin as (es & Hin & (y & -> & Hy)%list_elem_of_fmap).
      apply list_elem_of_lookup_1 in Hy as [j Hj].
      apply lookup_take_Some in Hj as [Hj Hjk].
      apply (Hother j y Hj); [lia|done].
    + by apply filter_ne_not_elem_of in Hin.
    + apply elem_of_concat in Hin as (es & Hin & (y & -> & Hy)%list_elem_of_fmap).
      apply list_elem_of_lookup_1 in Hy as [j Hj].
      rewrite lookup_drop in Hj.
      apply (Hother (S k + j) y Hj); [lia|done].
Qed.

End Capacity.

Lemma example_pools_sound :
  pools_sound_along 16 2 example_calls (EntityContainer_new 16 2 {| next_block := 4096 |}).
Proof.
  apply proper_use_pools_sound; [done| | |].
  - by apply container_inv_init.
  - by apply pools_inv_init.
  - exact example_calls_destroy_live.
Qed.

Lemma chunks_within_capacity_witness :
  Forall (λ st, Forall (λ chunk, length (entities chunk) ≤ 2) (m_Chunks st.1))
         (states 16 2 example_calls (EntityContainer_new 16 2 {| next_block := 4096 |})).
Proof.
  exact (chunks_within_capacity 16 2 eq_refl {| next_block := 4096 |} example_calls
           example_pools_sound).
Defined.

Lemma ranges_disjoint_example_ascending : ranges_disjoint example_ascending.
Proof.
  intros i j ci cj Hij Hi Hj.
  destruct i as [|[|i]], j as [|[|j]]; simplify_eq/=; lia.
Qed.

Lemma chunks_hold_entities_example_ascending :
  chunks_hold_entities 16 example_ascending.
Proof.
  unfold chunks_hold_entities. simpl.
  repeat (constructor; [by split; [apply Forall_singleton; simpl; lia|repeat constructor]|]).
  constructor.
Qed.

Lemma hands_out_sound_example_ascending :
  Forall (hands_out_sound 16) (m_Chunks example_ascending).
Proof.
  simpl. repeat apply Forall_cons_2; [..|apply Forall_nil_2];
    intros slot a [= <- <-]; simpl;
    (split; [lia|apply Forall_singleton; unfold apart; lia]).
Qed.

(** The entity created in the chunks that stand in ascending order comes
    from the first chunk, the one at the lower addresses. *)
Lemma CreateEntity_DestroyEntity_witness :
  ∃ this2,
    DestroyEntity 4112
      {| m_Chunks :=
           [ {| allocator := {| first_address := 4096; free_list := [] |};
                entities := [4096; 4112]; chunkStart := 4096; chunkEnd := 4128 |};
             {| allocator := {| first_address := 4128; free_list := [4144] |};
                entities := [4128]; chunkStart := 4128; chunkEnd := 4160 |} ]%Z |}
      = Some this2 ∧
    live_entities this2 = live_entities example_ascending ∧
    length (m_Chunks this2) = 2.
Proof.
  refine (CreateEntity_DestroyEntity 16 2 eq_refl example_ascending
            {| next_block := 4160 |} 4112 _ {| next_block := 4160 |} _ _ _).
  - exact ranges_disjoint_example_ascending.
  - exact hands_out_sound_example_ascending.
  - vm_compute. reflexivity.
Defined.

(** The entity of the second chunk, the one at the higher addresses, is
    destroyed. *)
Lemma DestroyEntity_removes_entity_witness :
  ∃ this',
    DestroyEntity 4128 example_ascending = Some this' ∧
    live_entities example_ascending ≡ₚ 4128%Z :: live_entities this' ∧
    4128%Z ∉ live_entities this'.
Proof.
  refine (DestroyEntity_removes_entity 16 eq_refl example_ascending 4128 _ _ _).
  - exact ranges_disjoint_example_ascending.
  - exact chunks_hold_entities_example_ascending.
  - vm_compute. set_solver.
Defined.

(** * Self-dependencies *)

Lemma DFS_for_keeps rec E v ks VS out VS' out' :
  keeps_visited rec →
  DFS_for rec E v ks VS out = Some (VS', out') →
  length VS' = length VS ∧ ∀ j, VS !! j ≠ Some 0%Z → VS' !! j = VS !! j.
Proof.
  intros Hrec. revert VS out. induction ks as [|i ks IH]; intros VS out Hrun.
  { by simplify_eq/=. }
  cbn [DFS_for] in Hrun.
  destruct (at2 E i v) as [e|]; [simpl in Hrun|done].
  destruct (if e then VS !! i ≫= λ st, if decide (st = 0%Z) then rec i VS out
                                        else Some (VS, out)
            else Some (VS, out)) as [[VS1 out1]|] eqn:Hr; [simpl in Hrun|done].
  apply IH in Hrun as [Hlen Hkeep].
  assert (Hstep : length VS1 = length VS ∧
                  ∀ j, VS !! j ≠ Some 0%Z → VS1 !! j = VS !! j).
  { destruct e; [|by simplify_eq].
    destruct (VS !! i) as [st|] eqn:Hst; [simpl in Hr|done].
    case_decide as H0; [|by simplify_eq]. subst st.
    destruct (Hrec _ _ _ _ _ Hr) as [? Hk]. split; [done|].
    intros j Hj. apply Hk; [|done]. intros ->. done. }
  destruct Hstep as [Hlen1 Hkeep1]. split; [congruence|].
  intros j Hj. rewrite Hkeep; [by apply Hkeep1|]. by rewrite Hkeep1.
Qed.

Lemma DFS_keeps fuel E : keeps_visited (DFS fuel E).
Proof.
  induction fuel as [|fuel IH]; intros v VS out VS' out' Hrun; [done|].
  cbn [DFS] in Hrun. case_decide as Hv; [|done].
  destruct (DFS_for _ _ _ _ _ _) as [[VS1 out1]|] eqn:Hfor; simplify_eq/=.
  apply (DFS_for_keeps _ _ _ _ _ _ _ _ IH) in Hfor as [Hlen Hkeep].
  rewrite length_insert in Hlen. split; [by rewrite length_insert|].
  intros j Hjv Hj. rewrite list_lookup_insert_ne; [|done].
  rewrite Hkeep; rewrite list_lookup_insert_ne //.
Qed.

Lemma group_for_length fuel E g VS out VS' out' :
  group_for fuel E g VS out = Some (VS', out') → length VS' = length VS.
Proof.
  revert VS out. induction g as [|v g IH]; intros VS out Hrun; [by simplify_eq/=|].
  cbn [group_for] in Hrun.
  destruct (VS !! v) as [st|]; [simpl in Hrun|done].
  destruct (if decide (st = 0%Z) then DFS fuel E v VS out else Some (VS, out))
    as [[VS1 out1]|] eqn:Hr; [simpl in Hrun|done].
  apply IH in Hrun as ->. case_decide; [|by simplify_eq].
  by destruct (DFS_keeps _ _ _ _ _ _ _ Hr).
Qed.

(** The marks of the partition are never taken back, and every vertex the
    neighbour scan puts on the stack is struck out. *)
Lemma member_for_marked E index ks (INDICES : list Z) member INDICES' member' :
  member_for E index ks INDICES member = Some (INDICES', member') →
  (∀ j, INDICES !! j = Some (-1)%Z → INDICES' !! j = Some (-1)%Z) ∧
  ∃ new, member' = member ++ new ∧ ∀ j, j ∈ new → INDICES' !! j = Some (-1)%Z.
Proof.
  revert INDICES member. induction ks as [|i ks IH]; intros INDICES member Hrun.
  { simplify_eq/=. split; [done|]. exists []. rewrite app_nil_r.
    split; [done|]. by intros j ?%elem_of_nil. }
  cbn [member_for] in Hrun.
  destruct (INDICES !! i) as [x|] eqn:Hx; [simpl in Hrun|done].
  destruct (if decide (x ≠ (-1)%Z)
            then at2 E i index ≫= λ a : bool, if a then Some true else at2 E index i
            else Some false) as [c|]; [simpl in Hrun|done].
  destruct c.
  - apply IH in Hrun as (Hkeep & new & -> & Hnew).
    assert (Hi : INDICES' !! i = Some (-1)%Z).
    { apply Hkeep. rewrite list_lookup_insert_eq //. by eapply lookup_lt_Some. }
    split.
    + intros j Hj. apply Hkeep. destruct (decide (j = i)) as [->|].
      * rewrite list_lookup_insert_eq //. by eapply lookup_lt_Some.
      * by rewrite list_lookup_insert_ne.
    + exists (i :: new). split; [by rewrite -app_assoc|].
      intros j [->|Hj]%elem_of_cons; [done|by apply Hnew].
  - by apply IH in Hrun.
Qed.

Section Diagonal.

Context (this this' : SystemManager).

Let M := m_SystemDependencyMatrix this.
Let M' := m_SystemDependencyMatrix this'.

Context (HsqM : square M) (HsqM' : square M').
Context (Hlen : length M' = length M).
Context (Hoff : ∀ i j, i ≠ j → at2 M' i j = at2 M i j).
Context (Hobjects : objects this' = objects this).
Context (Hsystems : m_Systems this' = m_Systems this).

Lemma DFS_for_diag rec rec' v :
  keeps_visited rec →
  (∀ i VS out, length VS = length M → rec' i VS out = rec i VS out) →
  v < length M →
  ∀ ks VS out,
    (∀ i, i ∈ ks → i < length M) →
    length VS = length M → VS !! v = Some 1%Z →
    DFS_for rec' M' v ks VS out = DFS_for rec M v ks VS out.
Proof using HsqM HsqM' Hlen Hoff Hobjects Hsystems.
  intros Hkeep Hrec Hv. induction ks as [|i ks IH]; intros VS out Hks HVS Hstate; [done|].
  assert (Hi : i < length M) by (apply Hks; by left).
  assert (Hks' : ∀ i0, i0 ∈ ks → i0 < length M) by (intros; apply Hks; by right).
  cbn [DFS_for].
  destruct (decide (i = v)) as [->|Hiv].
  - destruct (at2_is_Some M HsqM v v Hv Hv) as [e ->].
    destruct (at2_is_Some M' HsqM' v v) as [e' ->]; [lia..|].
    simpl. rewrite Hstate /=.
    destruct e, e'; simpl; by apply IH.
  - rewrite (Hoff i v Hiv).
    destruct (at2 M i v) as [[]|]; simpl; [|by apply IH|done].
    destruct (VS !! i) as [st|] eqn:Hst; [simpl|done].
    case_decide as H0; simpl; [|by apply IH]. subst st.
    rewrite Hrec //.
    destruct (rec i VS out) as [[VS1 out1]|] eqn:Hr; [simpl|done].
    destruct (Hkeep _ _ _ _ _ Hr) as [Hlen1 Hk].
    apply IH; [done|congruence|].
    rewrite Hk; [done|done|]. by rewrite Hstate.
Qed.

Lemma DFS_diag fuel v VS out :
  length VS = length M → DFS fuel M' v VS out = DFS fuel M v VS out.
Proof using HsqM HsqM' Hlen Hoff Hobjects Hsystems.
  revert v VS out. induction fuel as [|fuel IH]; intros v VS out HVS; [done|].
  cbn [DFS]. case_decide as Hv; [|done].
  rewrite (DFS_for_diag (DFS fuel M) (DFS fuel M') v); [done|..].
  - apply DFS_keeps.
  - intros i VS0 out0 H0. by apply IH.
  - lia.
  - intros i Hi%elem_of_seq. lia.
  - by rewrite length_insert.
  - by rewrite list_lookup_insert_eq.
Qed.

Lemma group_for_diag fuel g VS out :
  length VS = length M → group_for fuel M' g VS out = group_for fuel M g VS out.
Proof using HsqM HsqM' Hlen Hoff Hobjects Hsystems.
  revert VS out. induction g as [|v g IH]; intros VS out HVS; [done|].
  cbn [group_for]. destruct (VS !! v) as [st|]; [simpl|done].
  case_decide; [|by apply IH]. rewrite DFS_diag //.
  destruct (DFS fuel M v VS out) as [[VS1 out1]|] eqn:Hr; [simpl|done].
  apply IH. destruct (DFS_keeps _ _ _ _ _ _ _ Hr) as [-> _]. done.
Qed.

Lemma sort_for_diag MAX fuel ks VG GP VS SORTED :
  length VS = length M →
  sort_for MAX fuel M' ks VG GP VS SORTED = sort_for MAX fuel M ks VG GP VS SORTED.
Proof using HsqM HsqM' Hlen Hoff Hobjects Hsystems.
  revert VS SORTED. induction ks as [|i ks IH]; intros VS SORTED HVS; [done|].
  cbn [sort_for]. destruct (VG !! i) as [g|]; [simpl|done].
  rewrite group_for_diag //.
  destruct (group_for fuel M g VS []) as [[VS1 out1]|] eqn:Hr; [simpl|done].
  destruct (GP !! i) as [p|]; [simpl|done].
  apply IH. by rewrite (group_for_length _ _ _ _ _ _ _ Hr).
Qed.

Lemma member_for_diag index ks (INDICES : list Z) member :
  length INDICES ≤ index ∨ INDICES !! index = Some (-1)%Z →
  member_for M' index ks INDICES member = member_for M index ks INDICES member.
Proof using HsqM HsqM' Hlen Hoff Hobjects Hsystems.
  revert INDICES member. induction ks as [|i ks IH]; intros INDICES member Hindex; [done|].
  cbn [member_for]. destruct (INDICES !! i) as [x|] eqn:Hx; [simpl|done].
  assert (Hc : (if decide (x ≠ (-1)%Z)
                then at2 M' i index ≫= λ a : bool, if a then Some true else at2 M' index i
                else Some false)
             = (if decide (x ≠ (-1)%Z)
                then at2 M i index ≫= λ a : bool, if a then Some true else at2 M index i
                else Some false)).
  { case_decide as Hx1; [|done].
    assert (i ≠ index) as Hne.
    { intros ->. destruct Hindex as [Hge|Hm]; [|congruence].
      apply lookup_lt_Some in Hx. lia. }
    rewrite (Hoff i index Hne) (Hoff index i); [done|]. by intros ->. }
  rewrite Hc. clear Hc.
  destruct (if decide (x ≠ (-1)%Z) then _ else _) as [[]|]; simpl; [|by apply IH|done].
  apply IH. rewrite length_insert. destruct Hindex as [?|Hm]; [by left|right].
  destruct (decide (index = i)) as [->|].
  - rewrite list_lookup_insert_eq //. by eapply lookup_lt_Some.
  - by rewrite list_lookup_insert_ne.
Qed.

Lemma system_at_diag index : system_at this' index = system_at this index.
Proof using HsqM HsqM' Hlen Hoff Hobjects Hsystems. unfold system_at. by rewrite Hobjects Hsystems. Qed.

Lemma member_while_diag fuel (INDICES : list Z) member group p :
  (∀ j, j ∈ member → length INDICES ≤ j ∨ INDICES !! j = Some (-1)%Z) →
  member_while fuel this' INDICES member group p
  = member_while fuel this INDICES member group p.
Proof using HsqM HsqM' Hlen Hoff Hobjects Hsystems.
  revert INDICES member group p.
  induction fuel as [|fuel IH]; intros INDICES member group p Hmem;
    (destruct (pop_back member) as [[m0 index]|] eqn:Hpop;
     [apply pop_back_Some in Hpop as ->|apply pop_back_None in Hpop as ->]);
    [by rewrite /= !pop_back_snoc|done| |done].
  cbn [member_while]. rewrite pop_back_snoc. fold M M'.
  rewrite member_for_diag; [|apply Hmem; set_solver].
  destruct (member_for M index _ INDICES m0) as [[I1 mem1]|] eqn:Hfor; [simpl|done].
  rewrite system_at_diag. destruct (system_at this index) as [sys|]; [simpl|done].
  apply IH.
  destruct (member_for_run _ _ _ _ _ _ _ Hfor) as (HlenI & _ & _).
  destruct (member_for_marked _ _ _ _ _ _ _ Hfor) as (Hkeep & new & -> & Hnew).
  intros j [Hj|Hj]%elem_of_app; [|right; by apply Hnew].
  rewrite HlenI. destruct (Hmem j) as [?|?]; [set_solver|by left|right; by apply Hkeep].
Qed.

Lemma groups_while_diag LOWEST fuel (INDICES : list Z) VG GP :
  marks INDICES →
  groups_while LOWEST fuel this' INDICES VG GP
  = groups_while LOWEST fuel this INDICES VG GP.
Proof using HsqM HsqM' Hlen Hoff Hobjects Hsystems.
  revert INDICES VG GP.
  induction fuel as [|fuel IH]; intros INDICES VG GP Hmarks;
    (destruct (pop_back INDICES) as [[I x]|] eqn:Hpop;
     [apply pop_back_Some in Hpop as ->|apply pop_back_None in Hpop as ->]);
    [by rewrite /= !pop_back_snoc|done| |done].
  cbn [groups_while]. rewrite pop_back_snoc.
  assert (HmI : marks I).
  { intros j y Hy. apply (Hmarks j). by apply lookup_app_l_Some. }
  case_decide as Hx; [by apply IH|].
  assert (x = Z.of_nat (length I)) as ->.
  { destruct (Hmarks (length I) x) as [?|?]; [|done..].
    by rewrite lookup_app_r // Nat.sub_diag. }
  rewrite Nat2Z.id member_while_diag;
    [|intros j ->%list_elem_of_singleton; by left].
  destruct (member_while _ this _ _ _ _) as [[[I' g] p]|] eqn:Hmem; [simpl|done].
  apply IH. by destruct (member_while_run _ _ _ _ _ _ _ _ _ Hmem) as (_ & ? & _); auto.
Qed.

Lemma work_order_ids_diag MAX LOWEST :
  work_order_ids MAX LOWEST this' = work_order_ids MAX LOWEST this.
Proof using HsqM HsqM' Hlen Hoff Hobjects Hsystems.
  unfold work_order_ids, vertex_groups. fold M M'. rewrite Hlen.
  rewrite groups_while_diag; [|apply marks_seq].
  destruct (groups_while _ _ this _ _ _) as [gs|]; [simpl|done].
  rewrite sort_for_diag; [done|]. by rewrite length_replicate.
Qed.

End Diagonal.

(** X16. A dependency of a system on itself has no effect: two square
    matrices of the same size that agree off the diagonal give, for the same
    registered systems, the same work order. *)
Theorem self_dependency_ignored MAX LOWEST this this' :
  square (m_SystemDependencyMatrix this) → square (m_SystemDependencyMatrix this') →
  length (m_SystemDependencyMatrix this') = length (m_SystemDependencyMatrix this) →
  (∀ i j, i ≠ j →
     at2 (m_SystemDependencyMatrix this') i j = at2 (m_SystemDependencyMatrix this) i j) →
  objects this' = objects this → m_Systems this' = m_Systems this →
  m_SystemWorkOrder <$> UpdateSystemWorkOrder MAX LOWEST this'
  = m_SystemWorkOrder <$> UpdateSystemWorkOrder MAX LOWEST this.
Proof.
  intros Hsq Hsq' Hlen Hoff Hobj Hsys. unfold UpdateSystemWorkOrder.
  rewrite (work_order_ids_diag this this') // Hsys.
  destruct (work_order_ids MAX LOWEST this) as [ids|]; [simpl|done].
  by destruct (mapM _ ids).
Qed.

Lemma example_self_off_diagonal i j :
  i ≠ j →
  at2 (m_SystemDependencyMatrix example_self) i j
  = at2 (m_SystemDependencyMatrix example_ABCD) i j.
Proof.
  intros Hij.
  do 4 (destruct i as [|i]; [do 4 (destruct j as [|j]; [done|]); by destruct j|]).
  done.
Qed.

Lemma self_dependency_ignored_witness :
  m_SystemWorkOrder <$> UpdateSystemWorkOrder 65535 0 example_self
  = m_SystemWorkOrder <$> UpdateSystemWorkOrder 65535 0 example_ABCD.
Proof.
  apply self_dependency_ignored; [exact square_example_ABCD| |done| |done|done].
  - by repeat constructor.
  - exact example_self_off_diagonal.
Defined.
